(** * intset.c: a set of unsigned 32-bit integers as a PostgreSQL base type

    A shallow embedding of [src/intset.c] and the properties of its
    text codec, its construction tree and its sorted-array operators.

    Conventions of the embedding:
    - a [uint32] is a [Z] in [0, 2^32); every [uint32] operation of the
      source is followed by [u32], its wrap-around;
    - a [uint32 *] into a host allocation is a [list Z]; a read or write
      outside the allocation is undefined in C and is the error
      [OutOfBounds] here;
    - a [TreeNode] is exclusively owned (no node is shared), so the
      pointer structure is an inductive tree and [NULL] a constructor;
      dereferencing [NULL] is the error [NullDereference];
    - recursion of the source that need not terminate ([binarySearch])
      takes a fuel argument and reports [OutOfFuel] when it is spent;
    - the host allocator does not fail ([palloc] reports exhaustion by
      itself), [destroyTree] and [pfree] have no effect on a result,
      and [regcomp] compiles the constant pattern of [intset_in]. *)

From Stdlib Require Import ZArith Lia Bool Ascii String List Sorted.
Import ListNotations.
Local Open Scope Z_scope.

(* ================================================================== *)
(** ** Machine integers *)

Definition INT_MAX : Z := 2147483647.

(** Conversion to [uint32]: reduction modulo 2^32. *)
Definition u32 (x : Z) : Z := x mod 2 ^ 32.

(** Conversion of a [uint32] to [int] (two's complement, as gcc does). *)
Definition s32 (x : Z) : Z :=
  if u32 x <? 2 ^ 31 then u32 x else u32 x - 2 ^ 32.

Definition is_u32 (x : Z) : Prop := 0 <= x < 2 ^ 32.

(* ================================================================== *)
(** ** Outcomes of a call *)

(** [InvalidSyntax] is the one error the source raises ([ereport(ERROR)]
    in [intset_in]), with the offending text.  The others are the
    undefined behaviours of C that the source can reach, and the fuel of
    the embedding. *)
Inductive error : Type :=
| InvalidSyntax (text : list ascii)
| OutOfBounds
| NullDereference
| SignedOverflow
| OutOfFuel.

Inductive result (A : Type) : Type :=
| Ok (a : A)
| Err (e : error).

Arguments Ok {A} a.
Arguments Err {A} e.

Definition bind {A B : Type} (c : result A) (k : A -> result B) : result B :=
  match c with
  | Ok a => k a
  | Err e => Err e
  end.

Notation "x <- c ;; k" := (bind c (fun x => k))
  (at level 61, c at next level, right associativity).
Notation "' p <- c ;; k" := (bind c (fun x => let p := x in k))
  (at level 61, p pattern, c at next level, right associativity).

(** [arr[i]] as an rvalue. *)
Definition load {A : Type} (arr : list A) (i : Z) : result A :=
  if (0 <=? i) && (i <? Z.of_nat (length arr)) then
    match nth_error arr (Z.to_nat i) with
    | Some x => Ok x
    | None => Err OutOfBounds
    end
  else Err OutOfBounds.

Fixpoint list_set {A : Type} (arr : list A) (i : nat) (x : A) : list A :=
  match arr, i with
  | [], _ => []
  | _ :: tl, O => x :: tl
  | hd :: tl, S i' => hd :: list_set tl i' x
  end.

(** [arr[i] = x]. *)
Definition store {A : Type} (arr : list A) (i : Z) (x : A) : result (list A) :=
  if (0 <=? i) && (i <? Z.of_nat (length arr)) then
    Ok (list_set arr (Z.to_nat i) x)
  else Err OutOfBounds.

(** [i++] on an [int]. *)
Definition int_incr (i : Z) : result Z :=
  if i <? INT_MAX then Ok (i + 1) else Err SignedOverflow.

(** How a round of a loop ends: on to the next round, or [break]. *)
Inductive step (S : Type) : Type :=
| Next (s : S)
| Break (s : S).

Arguments Next {S} s.
Arguments Break {S} s.

(** A [for] loop of [n] rounds from index [i], on the state [s]. *)
Fixpoint for_loop {S : Type} (n : nat) (i : Z)
    (body : Z -> S -> result (step S)) (s : S) : result S :=
  match n with
  | O => Ok s
  | Datatypes.S n' =>
      r <- body i s ;;
      match r with
      | Next s' => for_loop n' (i + 1) body s'
      | Break s' => Ok s'
      end
  end.

(** [for (uint32_t i = 0; i < size; i++) body] *)
Definition for_upto {S : Type} (size : Z)
    (body : Z -> S -> result (step S)) (s : S) : result S :=
  for_loop (Z.to_nat size) 0 body s.

(* ================================================================== *)
(** ** Tree operations *)

(** [struct treeNode { uint32_t data; struct treeNode *left, *right; }] *)
Inductive TreeNode : Type :=
| NULL
| Node (data : Z) (left right : TreeNode).

Definition newNode (n : Z) : TreeNode := Node n NULL NULL.

Fixpoint treeHeight (root : TreeNode) : Z :=
  match root with
  | NULL => 0
  | Node _ l r =>
      let left := treeHeight l in
      let right := treeHeight r in
      u32 ((if left >? right then left else right) + 1)
  end.

Definition left_rotate (root : TreeNode) : result TreeNode :=
  match root with
  | Node d l (Node rd right_left rr) => Ok (Node rd (Node d l right_left) rr)
  | _ => Err NullDereference
  end.

Definition right_rotate (root : TreeNode) : result TreeNode :=
  match root with
  | Node d (Node ld ll left_right) r => Ok (Node ld ll (Node d left_right r))
  | _ => Err NullDereference
  end.

(** The second half of [insertNode], from the comment
    [start to balance the tree] on. *)
Definition rebalance (n : Z) (root : TreeNode) : result TreeNode :=
  match root with
  | NULL => Err NullDereference
  | Node d l r =>
      let balanced := s32 (u32 (treeHeight l - treeHeight r)) in
      if balanced >? 1 then
        match l with
        | NULL => Err NullDereference
        | Node ld _ _ =>
            if n <? ld then right_rotate root
            else
              l' <- left_rotate l ;;
              right_rotate (Node d l' r)
        end
      else if balanced <? -1 then
        match r with
        | NULL => Err NullDereference
        | Node rd _ _ =>
            if n >? rd then left_rotate root
            else
              r' <- right_rotate r ;;
              left_rotate (Node d l r')
        end
      else Ok root
  end.

Fixpoint insertNode (n : Z) (root : TreeNode) : result TreeNode :=
  match root with
  | NULL => Ok (newNode n)
  | Node d l r =>
      root' <- (if n >? d then
                  r' <- insertNode n r ;; Ok (Node d l r')
                else if n <? d then
                  l' <- insertNode n l ;; Ok (Node d l' r)
                else Ok root) ;;
      rebalance n root'
  end.

Fixpoint treeSize (root : TreeNode) : Z :=
  match root with
  | NULL => 0
  | Node _ l r => u32 (u32 (treeSize l + treeSize r) + 1)
  end.

Fixpoint treeEqual (a b : TreeNode) : bool :=
  match a, b with
  | NULL, NULL => true
  | NULL, Node _ _ _ => false
  | Node _ _ _, NULL => false
  | Node da la ra, Node db lb rb =>
      if negb (da =? db) then false
      else treeEqual la lb && treeEqual ra rb
  end.

(** [treeToArr(root, arr, i)]: the buffer is threaded through, and the
    next free index returned with it. *)
Fixpoint treeToArr (root : TreeNode) (arr : list Z) (i : Z)
    : result (list Z * Z) :=
  match root with
  | NULL => Ok (arr, i)
  | Node d l r =>
      '(arr, i) <- (match l with
                    | NULL => Ok (arr, i)
                    | Node _ _ _ => treeToArr l arr i
                    end) ;;
      arr <- store arr i d ;;
      i <- int_incr i ;;
      match r with
      | NULL => Ok (arr, i)
      | Node _ _ _ => treeToArr r arr i
      end
  end.

(* ================================================================== *)
(** ** Other operations *)

Fixpoint binarySearch (fuel : nat) (n : list Z) (low high target : Z)
    : result bool :=
  match fuel with
  | O => Err OutOfFuel
  | S fuel' =>
      if high >=? low then
        let mid := u32 (low + u32 (high - low) / 2) in
        x <- load n mid ;;
        if x =? target then Ok true
        else if x >? target then
          binarySearch fuel' n low (u32 (mid - 1)) target
        else binarySearch fuel' n (u32 (mid + 1)) high target
      else Ok false
  end.

Definition numsEqual (a b : list Z) (size : Z) : result bool :=
  for_upto size
    (fun i _ =>
       x <- load a i ;;
       y <- load b i ;;
       if negb (x =? y) then Ok (Break false) else Ok (Next true))
    true.

(* ================================================================== *)
(** ** The host's value layout

    [postgres.h] is not part of the sources.  An [intSet] is a varlena:
    a 4-byte length word followed by the payload, here the array of
    [uint32] that [VARDATA_ANY] points to.  [SET_VARSIZE] records the
    byte size that [VARSIZE_ANY_EXHDR] (payload bytes, header excluded)
    reads back, and the host refuses any allocation above
    [MaxAllocSize], which bounds a value and a C string alike. *)

Definition intSet : Type := list Z.

Definition VARHDRSZ : Z := 4.
Definition MaxAllocSize : Z := 1073741823.

Definition VARSIZE_ANY_EXHDR (a : intSet) : Z := 4 * Z.of_nat (length a).
Definition VARDATA_ANY (a : intSet) : list Z := a.

(** [result = palloc(len); SET_VARSIZE(result, len)]: a fresh varlena of
    [len] bytes in all; its payload is not initialised by the host (the
    zeros stand for whatever the memory holds). *)
Definition palloc_varlena (len : Z) : intSet :=
  repeat 0 (Z.to_nat ((len - VARHDRSZ) / 4)).

(** [palloc(n * sizeof(char))] *)
Definition palloc_chars (n : Z) : list ascii :=
  repeat zero (Z.to_nat n).

(** The closing lines shared by [intset_in], [intset_union],
    [intset_intersectn], [intset_disjunctn] and [intset_diff]: size the
    result by [treeSize], then fill it by [treeToArr] from index 0. *)
Definition tree_to_intSet (tree : TreeNode) : result intSet :=
  let size := treeSize tree in
  let result := palloc_varlena (u32 (VARHDRSZ + u32 (size * 4))) in
  let res_nums := VARDATA_ANY result in
  '(res_nums, _) <- treeToArr tree res_nums 0 ;;
  Ok res_nums.

(** The body of the loops that fill a tree, on [x = nums[i]]:
    [if (keep x) tree = insertNode(x, tree);] *)
Definition insert_if (keep : Z -> result bool) (x : Z) (tree : TreeNode)
    : result (step TreeNode) :=
  k <- keep x ;;
  if k then (t <- insertNode x tree ;; Ok (Next t)) else Ok (Next tree).

(** [for (i = 0; i < size; i++) if (keep nums[i]) tree = insertNode(nums[i], tree);] *)
Definition insert_selected (keep : Z -> result bool) (nums : list Z)
    (size : Z) (tree : TreeNode) : result TreeNode :=
  for_upto size (fun i tree => x <- load nums i ;; insert_if keep x tree) tree.

(* ================================================================== *)
(** ** New operators *)

Definition intset_union (a b : intSet) : result intSet :=
  let asize := u32 (VARSIZE_ANY_EXHDR a / 4) in
  let bsize := u32 (VARSIZE_ANY_EXHDR b / 4) in
  let anums := VARDATA_ANY a in
  let bnums := VARDATA_ANY b in
  if (asize =? 0) && (bsize =? 0) then Ok (palloc_varlena VARHDRSZ)
  else
    u_tree <- insert_selected (fun _ => Ok true) anums asize NULL ;;
    u_tree <- insert_selected (fun _ => Ok true) bnums bsize u_tree ;;
    tree_to_intSet u_tree.

Definition intset_intersectn (fuel : nat) (a b : intSet) : result intSet :=
  let asize := u32 (VARSIZE_ANY_EXHDR a / 4) in
  let bsize := u32 (VARSIZE_ANY_EXHDR b / 4) in
  let anums := VARDATA_ANY a in
  let bnums := VARDATA_ANY b in
  if (asize =? 0) || (bsize =? 0) then Ok (palloc_varlena VARHDRSZ)
  else
    i_tree <- (if asize <? bsize then
                 insert_selected
                   (fun x => binarySearch fuel bnums 0 (u32 (bsize - 1)) x)
                   anums asize NULL
               else
                 insert_selected
                   (fun x => binarySearch fuel anums 0 (u32 (asize - 1)) x)
                   bnums bsize NULL) ;;
    tree_to_intSet i_tree.

(** The loop shared by [intset_contain_all] and [intset_contain_only]:
    [res] stays true until some [nums[i]] is not found in [in_nums]. *)
Definition all_found (fuel : nat) (nums : list Z) (size : Z)
    (in_nums : list Z) (in_size : Z) : result bool :=
  for_upto size
    (fun i res =>
       x <- load nums i ;;
       found <- binarySearch fuel in_nums 0 (u32 (in_size - 1)) x ;;
       if negb found then Ok (Break false) else Ok (Next res))
    true.

Definition intset_contain_all (fuel : nat) (a b : intSet) : result bool :=
  let anums := VARDATA_ANY a in
  let bnums := VARDATA_ANY b in
  let asize := u32 (VARSIZE_ANY_EXHDR a / 4) in
  let bsize := u32 (VARSIZE_ANY_EXHDR b) in
  if asize <? bsize then Ok false
  else all_found fuel bnums bsize anums asize.

Definition intset_contain_only (fuel : nat) (a b : intSet) : result bool :=
  let anums := VARDATA_ANY a in
  let bnums := VARDATA_ANY b in
  let asize := u32 (VARSIZE_ANY_EXHDR a / 4) in
  let bsize := u32 (VARSIZE_ANY_EXHDR b / 4) in
  if asize >? bsize then Ok false
  else all_found fuel anums asize bnums bsize.

Definition intset_equal (a b : intSet) : result bool :=
  let anums := VARDATA_ANY a in
  let bnums := VARDATA_ANY b in
  let asize := u32 (VARSIZE_ANY_EXHDR a / 4) in
  let bsize := u32 (VARSIZE_ANY_EXHDR b / 4) in
  if negb (asize =? bsize) then Ok false
  else numsEqual anums bnums asize.

Definition intset_not_equal (a b : intSet) : result bool :=
  let anums := VARDATA_ANY a in
  let bnums := VARDATA_ANY b in
  let asize := u32 (VARSIZE_ANY_EXHDR a / 4) in
  let bsize := u32 (VARSIZE_ANY_EXHDR b / 4) in
  if negb (asize =? bsize) then Ok true
  else (e <- numsEqual anums bnums asize ;; Ok (negb e)).

Definition intset_contains (fuel : nat) (i : Z) (a : intSet) : result bool :=
  let anums := VARDATA_ANY a in
  let asize := u32 (VARSIZE_ANY_EXHDR a / 4) in
  if asize =? 0 then Ok false
  else binarySearch fuel anums 0 (u32 (asize - 1)) i.

Definition intset_cardinality (a : intSet) : Z :=
  (VARSIZE_ANY_EXHDR a / 4) mod 2 ^ 64.

Definition not_found (fuel : nat) (nums : list Z) (size : Z) (x : Z)
    : result bool :=
  found <- binarySearch fuel nums 0 (u32 (size - 1)) x ;; Ok (negb found).

Definition intset_disjunctn (fuel : nat) (a b : intSet) : result intSet :=
  let anums := VARDATA_ANY a in
  let bnums := VARDATA_ANY b in
  let asize := u32 (VARSIZE_ANY_EXHDR a / 4) in
  let bsize := u32 (VARSIZE_ANY_EXHDR b / 4) in
  e <- numsEqual anums bnums asize ;;
  if e then Ok (palloc_varlena VARHDRSZ)
  else
    d_tree <- insert_selected (not_found fuel bnums bsize) anums asize NULL ;;
    d_tree <- insert_selected (not_found fuel anums asize) bnums bsize d_tree ;;
    tree_to_intSet d_tree.

Definition intset_diff (fuel : nat) (a b : intSet) : result intSet :=
  let anums := VARDATA_ANY a in
  let bnums := VARDATA_ANY b in
  let asize := u32 (VARSIZE_ANY_EXHDR a / 4) in
  let bsize := u32 (VARSIZE_ANY_EXHDR b / 4) in
  if asize =? 0 then Ok (palloc_varlena VARHDRSZ)
  else
    d_tree <- insert_selected (not_found fuel bnums bsize) anums asize NULL ;;
    tree_to_intSet d_tree.

(* ================================================================== *)
(** ** Characters and C strings

    A [char *] argument is the list of the characters before its
    terminating NUL. *)

Definition char_code (c : ascii) : Z := Z.of_N (N_of_ascii c).

(** A [char] read as the integer it is promoted to (signed on the
    platforms of the host: codes from 128 up are negative). *)
Definition char_val (c : ascii) : Z :=
  if char_code c <? 128 then char_code c else char_code c - 256.

Definition strlen (str : list ascii) : Z := Z.of_nat (length str).

(** The characters of a buffer up to its first NUL. *)
Fixpoint cstring (buf : list ascii) : list ascii :=
  match buf with
  | [] => []
  | c :: tl => if Ascii.eqb c zero then [] else c :: cstring tl
  end.

(** [memcpy(dst + off, src, len)] *)
Definition memcpy (dst : list ascii) (off : Z) (src : list ascii) (len : Z)
    : result (list ascii) :=
  if (0 <=? off) && (off + len <=? Z.of_nat (length dst))
     && (len <=? Z.of_nat (length src)) then
    Ok (firstn (Z.to_nat off) dst
        ++ firstn (Z.to_nat len) src
        ++ skipn (Z.to_nat (off + len)) dst)
  else Err OutOfBounds.

(* ================================================================== *)
(** ** POSIX extended regular expressions ([regex.h])

    [regcomp] and [regexec] belong to the C library.  The pattern of
    [intset_in] is anchored at both ends ([^] ... [$]) and is matched
    without [REG_NEWLINE], so [regexec] succeeds exactly when the whole
    string belongs to the language of the expression between the
    anchors.  The expression is kept as a syntax tree and matched by
    derivatives. *)

Inductive regex : Type :=
| Void
| Eps
| Chr (c : ascii)
| Range (lo hi : ascii)
| Cat (r1 r2 : regex)
| Alt (r1 r2 : regex)
| Star (r : regex).

(** [r+] and [r?] *)
Definition Plus (r : regex) : regex := Cat r (Star r).
Definition Opt (r : regex) : regex := Alt r Eps.

Definition in_range (lo hi c : ascii) : bool :=
  (char_code lo <=? char_code c) && (char_code c <=? char_code hi).

Fixpoint nullable (r : regex) : bool :=
  match r with
  | Void => false
  | Eps => true
  | Chr _ => false
  | Range _ _ => false
  | Cat r1 r2 => nullable r1 && nullable r2
  | Alt r1 r2 => nullable r1 || nullable r2
  | Star _ => true
  end.

Fixpoint deriv (c : ascii) (r : regex) : regex :=
  match r with
  | Void => Void
  | Eps => Void
  | Chr c' => if Ascii.eqb c c' then Eps else Void
  | Range lo hi => if in_range lo hi c then Eps else Void
  | Cat r1 r2 =>
      if nullable r1 then Alt (Cat (deriv c r1) r2) (deriv c r2)
      else Cat (deriv c r1) r2
  | Alt r1 r2 => Alt (deriv c r1) (deriv c r2)
  | Star r1 => Cat (deriv c r1) (Star r1)
  end.

Fixpoint matches (r : regex) (s : list ascii) : bool :=
  match s with
  | [] => nullable r
  | c :: s' => matches (deriv c r) s'
  end.

Definition REG_NOMATCH : Z := 1.

(** [regexec(&regex, str, 0, NULL, 0)]: 0 on a match. *)
Definition regexec (r : regex) (str : list ascii) : Z :=
  if matches r str then 0 else REG_NOMATCH.

Definition sp : regex := Chr " ".
Definition digit : regex := Range "0" "9".

(** The pattern compiled by [regcomp] in [intset_in], with [_] written
    for the space character and the groups spaced out:
    [^ _* \{ _* ( ( _* [0-9]+ _* , _* )* _* [0-9]+ _* )? _* \} _* $] *)

(** [( _* [0-9]+ _* , _* )] *)
Definition item_regex : regex :=
  Cat (Star sp) (Cat (Plus digit) (Cat (Star sp) (Cat (Chr ",") (Star sp)))).

(** [_* [0-9]+ _*] *)
Definition last_regex : regex :=
  Cat (Star sp) (Cat (Plus digit) (Star sp)).

Definition intset_regex : regex :=
  Cat (Star sp)
 (Cat (Chr "{")
 (Cat (Star sp)
 (Cat (Opt (Cat (Star item_regex) last_regex))
 (Cat (Star sp)
 (Cat (Chr "}") (Star sp)))))).

(* ================================================================== *)
(** ** Input/Output functions *)

(** [str[i] <= '9' && str[i] >= '0'] *)
Definition is_digit (c : ascii) : bool :=
  (char_val c <=? char_val "9") && (char_val c >=? char_val "0").

(** The state of the scan in [intset_in]. *)
Record scan_state : Type := mkScan {
  tempNums : TreeNode;
  curr_num : Z;
  flag : bool
}.

(** The two assignments of the scan to [curr_num] on a digit [c]:
    [curr_num *= 10; curr_num += c - '0';]. *)
Definition accumulate (curr : Z) (c : ascii) : Z :=
  let curr := u32 (curr * 10) in
  u32 (curr + (char_val c - char_val "0")).

(** One round of the scan, on the character [c = str[i]]. *)
Definition scan_char (c : ascii) (st : scan_state) : result scan_state :=
  if is_digit c then
    Ok (mkScan (tempNums st) (accumulate (curr_num st) c) true)
  else if flag st then
    t <- insertNode (curr_num st) (tempNums st) ;;
    Ok (mkScan t 0 false)
  else Ok st.

(** The body of the scan, which neither breaks nor returns. *)
Definition scan_step (c : ascii) (st : scan_state) : result (step scan_state) :=
  st' <- scan_char c st ;; Ok (Next st').

Definition intset_in (str : list ascii) : result intSet :=
  let match_fail := regexec intset_regex str in
  if negb (match_fail =? 0) then Err (InvalidSyntax str)
  else
    st <- for_upto (strlen str)
            (fun i st => c <- load str i ;; scan_step c st)
            (mkScan NULL 0 false) ;;
    tree_to_intSet (tempNums st).

(** [(uint32_t) log10(x)] for a [uint32] [x > 0]: the decimal logarithm
    is taken in double precision, where every [uint32] is exact and no
    logarithm of one is within rounding distance of an integer it does
    not reach; the truncation is the number of decimal digits less one. *)
Definition log10_trunc (x : Z) : Z :=
  if x <? 10 then 0
  else if x <? 100 then 1
  else if x <? 1000 then 2
  else if x <? 10000 then 3
  else if x <? 100000 then 4
  else if x <? 1000000 then 5
  else if x <? 10000000 then 6
  else if x <? 100000000 then 7
  else if x <? 1000000000 then 8
  else 9.

Definition digit_char (d : Z) : ascii :=
  ascii_of_N (Z.to_N (char_code "0" + d)).

Fixpoint utoa_aux (fuel : nat) (x : Z) (acc : list ascii) : list ascii :=
  match fuel with
  | O => acc
  | S fuel' =>
      let acc' := digit_char (x mod 10) :: acc in
      if x / 10 =? 0 then acc' else utoa_aux fuel' (x / 10) acc'
  end.

(** The conversion [%u]: decimal, most significant digit first, no
    leading zero. *)
Definition utoa (x : Z) : list ascii :=
  utoa_aux (S (Z.to_nat (Z.log2 x))) x [].

(** [psprintf] of the format [%u,] at [x], with its terminating NUL. *)
Definition psprintf_u_comma (x : Z) : list ascii :=
  utoa x ++ ["," ; zero]%char.

(** The body of the first loop of [intset_out], on [x = nums[i]]:
    the length of the string is calculated first. *)
Definition count_chars (x : Z) (res_len : Z) : result (step Z) :=
  if negb (x =? 0)
  then Ok (Next (u32 (res_len + u32 (log10_trunc x + 1))))
  else Ok (Next (u32 (res_len + 1))).

(** The body of its second loop: the number and its comma are copied
    to [result + sofar]. *)
Definition copy_number (x : Z) (st : list ascii * Z)
    : result (step (list ascii * Z)) :=
  let '(result, sofar) := st in
  let temp := psprintf_u_comma x in
  let curr_len := if negb (x =? 0) then u32 (log10_trunc x + 2) else 2 in
  result <- memcpy result sofar temp curr_len ;;
  Ok (Next (result, u32 (sofar + curr_len))).

Definition intset_out (intset : intSet) : result (list ascii) :=
  let nums := VARDATA_ANY intset in
  let intset_size := u32 (VARSIZE_ANY_EXHDR intset / 4) in
  if intset_size =? 0 then
    let result := palloc_chars 3 in
    result <- store result 0 "{"%char ;;
    result <- store result 1 "}"%char ;;
    result <- store result 2 zero ;;
    Ok (cstring result)
  else
    res_len <- for_upto intset_size
                 (fun i res_len => x <- load nums i ;; count_chars x res_len)
                 0 ;;
    let res_len := u32 (res_len + u32 (intset_size + 2)) in
    let result := palloc_chars res_len in
    result <- store result 0 "{"%char ;;
    '(result, sofar) <-
       for_upto intset_size
         (fun i st => x <- load nums i ;; copy_number x st)
         (result, 1) ;;
    result <- store result (u32 (res_len - 2)) "}"%char ;;
    result <- store result (u32 (res_len - 1)) zero ;;
    Ok (cstring result).

(* ================================================================== *)
(** * Specification side *)

(** ** Construction tree *)

(** In-order traversal: left, self, right. *)
Fixpoint inorder (t : TreeNode) : list Z :=
  match t with
  | NULL => []
  | Node d l r => inorder l ++ d :: inorder r
  end.

(** The height as a mathematical integer (no wrap-around). *)
Fixpoint height (t : TreeNode) : Z :=
  match t with
  | NULL => 0
  | Node _ l r => Z.max (height l) (height r) + 1
  end.

(** Binary-search-tree ordering: left < node < right, at every node. *)
Fixpoint bst (t : TreeNode) : Prop :=
  match t with
  | NULL => True
  | Node d l r =>
      Forall (fun x => x < d) (inorder l) /\
      Forall (fun x => d < x) (inorder r) /\
      bst l /\ bst r
  end.

(** Height balance: at every node the balance factor is -1, 0 or 1. *)
Fixpoint avl (t : TreeNode) : Prop :=
  match t with
  | NULL => True
  | Node _ l r =>
      avl l /\ avl r /\ -1 <= height l - height r <= 1
  end.

(** Search-tree ordering with all keys in [lo, hi). *)
Fixpoint bounded (lo hi : Z) (t : TreeNode) : Prop :=
  match t with
  | NULL => True
  | Node d l r => lo <= d < hi /\ bounded lo d l /\ bounded (d + 1) hi r
  end.

(** The invariant of a construction tree over [uint32] keys. *)
Definition tree_inv (t : TreeNode) : Prop :=
  bounded 0 (2 ^ 32) t /\ avl t.

(** The taller child of [t] is on the side of [n]. *)
Definition leans (n : Z) (t : TreeNode) : Prop :=
  match t with
  | NULL => False
  | Node d l r =>
      (n < d /\ height r < height l) \/ (d < n /\ height l < height r)
  end.

(** What [insertNode n] makes of a tree [t] within the key bounds
    [lo] and [hi]: the ordering and the balance are kept, [n] joins the
    keys, and the height grows by one at most, and then only towards
    the side of [n]. *)
Definition insert_post (n : Z) (lo hi : Z) (t t' : TreeNode) : Prop :=
  bounded lo hi t' /\ avl t' /\
  (forall x, In x (inorder t') <-> x = n \/ In x (inorder t)) /\
  (length (inorder t') <= S (length (inorder t)))%nat /\
  (height t' = height t \/
   (height t' = height t + 1 /\ (t = NULL \/ leans n t'))).

(** The trees that [insertNode] builds from the empty tree. *)
Inductive reachable : TreeNode -> Prop :=
| reach_empty : reachable NULL
| reach_insert (n : Z) (t t' : TreeNode) :
    reachable t -> is_u32 n -> insertNode n t = Ok t' -> reachable t'.

(** ** Values and texts *)

(** The canonical form of a value: strictly increasing elements (hence
    no duplicates), as many as its count. *)
Definition canonical (v : intSet) : Prop :=
  StronglySorted Z.lt v /\ NoDup v /\
  Z.of_nat (length v) = intset_cardinality v.

(** A well-formed value: canonical, of [uint32] elements, and of a size
    the host can hold. *)
Definition wf_intSet (v : intSet) : Prop :=
  StronglySorted Z.lt v /\ Forall is_u32 v /\
  VARHDRSZ + VARSIZE_ANY_EXHDR v <= MaxAllocSize.

(** A C string of the host: the characters before the terminating NUL
    (none of them is NUL), in an allocation of the host. *)
Definition wf_cstring (str : list ascii) : Prop :=
  Forall (fun c => c <> zero) str /\ strlen str < MaxAllocSize.

(** The values that the text codec and the set operators hand out, from
    well-formed arguments. *)
Inductive produced : intSet -> Prop :=
| produced_in (str : list ascii) (v : intSet) :
    wf_cstring str -> intset_in str = Ok v -> produced v
| produced_union (a b v : intSet) :
    wf_intSet a -> wf_intSet b -> intset_union a b = Ok v -> produced v
| produced_intersectn (fuel : nat) (a b v : intSet) :
    wf_intSet a -> wf_intSet b -> intset_intersectn fuel a b = Ok v ->
    produced v
| produced_diff (fuel : nat) (a b v : intSet) :
    wf_intSet a -> wf_intSet b -> intset_diff fuel a b = Ok v -> produced v
| produced_disjunctn (fuel : nat) (a b v : intSet) :
    wf_intSet a -> wf_intSet b -> intset_disjunctn fuel a b = Ok v ->
    produced v.

(** Pointwise equality of two element arrays. *)
Definition Z_list_eqb (a b : list Z) : bool :=
  if list_eq_dec Z.eq_dec a b then true else false.

(** An outcome other than the error that [intset_in] raises. *)
Definition quiet {A : Type} (r : result A) : Prop :=
  forall text, r <> Err (InvalidSyntax text).

(** ** Digit runs *)

(** The decimal digits, by their character codes. *)
Definition decimal_digit (c : ascii) : Prop := 48 <= char_code c <= 57.

(** The value of a decimal digit character. *)
Definition digit_value (c : ascii) : Z := char_code c - char_code "0".

(** The decimal value of a run of digits, most significant first. *)
Definition decimal_value (run : list ascii) : Z :=
  fold_left (fun acc c => acc * 10 + digit_value c) run 0.

(** The element that a digit run denotes: its value in 32 bits. *)
Definition run_value (run : list ascii) : Z := decimal_value run mod 2 ^ 32.

(** [run] is a maximal run of decimal digits of the text [s]: digits
    only, at least one, with no digit next to it on either side (the
    space stands for the missing neighbour at an end of the text). *)
Definition maximal_run (s run : list ascii) : Prop :=
  run <> [] /\ Forall decimal_digit run /\
  exists pre post,
    s = pre ++ run ++ post /\
    ~ decimal_digit (last pre " "%char) /\
    ~ decimal_digit (hd " "%char post).

(** The maximal runs of a text, listed in the order of the text;
    [cur] holds the digits of the run being read, last one first. *)
Fixpoint digit_runs_from (cur : list ascii) (s : list ascii)
    : list (list ascii) :=
  match s with
  | [] =>
      match cur with
      | [] => []
      | _ :: _ => [rev cur]
      end
  | c :: s' =>
      if is_digit c then digit_runs_from (c :: cur) s'
      else
        match cur with
        | [] => digit_runs_from [] s'
        | _ :: _ => rev cur :: digit_runs_from [] s'
        end
  end.

Definition digit_runs (s : list ascii) : list (list ascii) :=
  digit_runs_from [] s.

(** ** The language of a regular expression *)

Inductive Matches : regex -> list ascii -> Prop :=
| MEps : Matches Eps []
| MChr (c : ascii) : Matches (Chr c) [c]
| MRange (lo hi c : ascii) :
    in_range lo hi c = true -> Matches (Range lo hi) [c]
| MCat (r1 r2 : regex) (s1 s2 : list ascii) :
    Matches r1 s1 -> Matches r2 s2 -> Matches (Cat r1 r2) (s1 ++ s2)
| MAltL (r1 r2 : regex) (s : list ascii) :
    Matches r1 s -> Matches (Alt r1 r2) s
| MAltR (r1 r2 : regex) (s : list ascii) :
    Matches r2 s -> Matches (Alt r1 r2) s
| MStar0 (r : regex) : Matches (Star r) []
| MStarS (r : regex) (s1 s2 : list ascii) :
    Matches r s1 -> Matches (Star r) s2 -> Matches (Star r) (s1 ++ s2).

(** ** The grammar of the textual form, in the words of the
    specification

    optional spaces, an opening brace, optional spaces, optionally
    ( digits, optional spaces, a comma, optional spaces )* digits,
    optional spaces; then a closing brace and optional spaces. *)

Definition spaces (s : list ascii) : Prop :=
  Forall (fun c => c = " "%char) s.

Definition digits (s : list ascii) : Prop :=
  s <> [] /\ Forall decimal_digit s.

(** ( digits, optional spaces, a comma, optional spaces )* *)
Inductive items : list ascii -> Prop :=
| items_nil : items []
| items_cons (d s1 s2 rest : list ascii) :
    digits d -> spaces s1 -> spaces s2 -> items rest ->
    items (d ++ s1 ++ ","%char :: s2 ++ rest).

(** ( digits, optional spaces, a comma, optional spaces )* digits,
    optional spaces *)
Definition members (s : list ascii) : Prop :=
  exists its d s1, items its /\ digits d /\ spaces s1 /\ s = its ++ d ++ s1.

Definition grammar (text : list ascii) : Prop :=
  exists s1 s2 body s3,
    spaces s1 /\ spaces s2 /\ (body = [] \/ members body) /\ spaces s3 /\
    text = s1 ++ "{"%char :: s2 ++ body ++ "}"%char :: s3.

(** ** The textual form of a value *)

(** The elements in order, in decimal, one comma between neighbours,
    within braces. *)
Fixpoint render_members (v : list Z) : list ascii :=
  match v with
  | [] => []
  | x :: tl =>
      match tl with
      | [] => utoa x
      | _ :: _ => utoa x ++ ","%char :: render_members tl
      end
  end.

Definition render (v : intSet) : list ascii :=
  "{"%char :: render_members v ++ ["}"%char].

(** The digit count that [intset_out] takes from the logarithm. *)
Definition digit_count (x : Z) : Z :=
  if negb (x =? 0) then log10_trunc x + 1 else 1.

(** The digits of all the elements, and the elements each followed by
    its comma, as [intset_out] lays them out. *)
Definition all_digits (v : list Z) : list ascii := concat (map utoa v).

Definition with_commas (v : list Z) : list ascii :=
  concat (map (fun x => utoa x ++ [","%char]) v).

(** ** Loops and scans, for the proofs *)

(** A [for] loop that reads [arr[i]] at round [i], seen as a traversal
    of the list of the elements. *)
Fixpoint iterate {A S : Type} (f : A -> S -> result (step S))
    (l : list A) (s : S) : result S :=
  match l with
  | [] => Ok s
  | x :: l' =>
      r <- f x s ;;
      match r with
      | Next s' => iterate f l' s'
      | Break s' => Ok s'
      end
  end.

(** The state of the scan after the digits [cur] (last one first) of an
    unfinished run. *)
Definition scan_at (cur : list ascii) (st : scan_state) : Prop :=
  tree_inv (tempNums st) /\
  curr_num st = run_value (rev cur) /\
  flag st = negb (match cur with [] => true | _ :: _ => false end).

(** [maximal_run], on the test [is_digit] of the scan. *)
Definition scanned_run (s run : list ascii) : Prop :=
  run <> [] /\ Forall (fun c => is_digit c = true) run /\
  exists pre post,
    s = pre ++ run ++ post /\
    is_digit (last pre " "%char) = false /\
    is_digit (hd " "%char post) = false.

(** ** Sets of elements, for the operators *)

(** Membership in an element array, decided. *)
Definition mem (x : Z) (l : list Z) : bool :=
  if in_dec Z.eq_dec x l then true else false.
(* ================================================================== *)
(** * Proofs *)

(** ** Machine integers *)

Lemma u32_small (x : Z) : 0 <= x < 2 ^ 32 -> u32 x = x.
Proof. intros H. unfold u32. apply Z.mod_small. exact H. Qed.

Lemma u32_range (x : Z) : 0 <= u32 x < 2 ^ 32.
Proof. unfold u32. apply Z.mod_pos_bound. reflexivity. Qed.

Lemma s32_small (x : Z) : - 2 ^ 31 <= x < 2 ^ 31 -> s32 (u32 x) = x.
Proof.
  intros H. unfold s32, u32. rewrite Z.mod_mod by discriminate.
  change (2 ^ 32) with 4294967296 in *. change (2 ^ 31) with 2147483648 in *.
  destruct (x mod 4294967296 <? 2147483648) eqn:E;
    [apply Z.ltb_lt in E | apply Z.ltb_ge in E];
    Z.to_euclidean_division_equations; lia.
Qed.

(** ** Outcomes *)

Lemma load_Ok (A : Type) (arr : list A) (i : nat) (x : A) :
  nth_error arr i = Some x -> load arr (Z.of_nat i) = Ok x.
Proof.
  intros H. unfold load.
  assert (Hi : (i < length arr)%nat) by (apply nth_error_Some; congruence).
  replace (0 <=? Z.of_nat i) with true by (symmetry; apply Z.leb_le; lia).
  replace (Z.of_nat i <? Z.of_nat (length arr)) with true
    by (symmetry; apply Z.ltb_lt; lia).
  simpl. rewrite Nat2Z.id, H. reflexivity.
Qed.

Lemma load_app (A : Type) (pre post : list A) (x : A) :
  load (pre ++ x :: post) (Z.of_nat (length pre)) = Ok x.
Proof.
  apply load_Ok. rewrite nth_error_app2 by lia.
  rewrite Nat.sub_diag. reflexivity.
Qed.

Lemma load_out (A : Type) (arr : list A) (i : Z) :
  Z.of_nat (length arr) <= i -> load arr i = Err OutOfBounds.
Proof.
  intros H. unfold load.
  replace (i <? Z.of_nat (length arr)) with false
    by (symmetry; apply Z.ltb_ge; lia).
  rewrite andb_false_r. reflexivity.
Qed.

Lemma list_set_app (A : Type) (pre post : list A) (y x : A) :
  list_set (pre ++ y :: post) (length pre) x = pre ++ x :: post.
Proof. induction pre as [|p pre IH]; simpl; [reflexivity | now rewrite IH]. Qed.

Lemma store_app (A : Type) (pre post : list A) (y x : A) :
  store (pre ++ y :: post) (Z.of_nat (length pre)) x = Ok (pre ++ x :: post).
Proof.
  unfold store.
  replace (0 <=? Z.of_nat (length pre)) with true by (symmetry; apply Z.leb_le; lia).
  replace (Z.of_nat (length pre) <? Z.of_nat (length (pre ++ y :: post))) with true
    by (symmetry; apply Z.ltb_lt; rewrite length_app; simpl; lia).
  simpl. rewrite Nat2Z.id, list_set_app. reflexivity.
Qed.

(** ** Heights and sizes of the construction tree *)

Lemma height_nonneg (t : TreeNode) : 0 <= height t.
Proof. induction t; simpl; lia. Qed.

Lemma treeHeight_height (t : TreeNode) :
  height t < 2 ^ 32 -> treeHeight t = height t.
Proof.
  induction t as [|d l IHl r IHr]; simpl; intros H; [reflexivity|].
  pose proof (height_nonneg l). pose proof (height_nonneg r).
  rewrite IHl, IHr by lia.
  destruct (height l >? height r) eqn:E;
    [apply Z.gtb_lt in E | rewrite Z.gtb_ltb in E; apply Z.ltb_ge in E];
    rewrite u32_small; lia.
Qed.

Lemma bounded_size (t : TreeNode) (lo hi : Z) :
  bounded lo hi t -> Z.of_nat (length (inorder t)) <= Z.max 0 (hi - lo).
Proof.
  revert lo hi. induction t as [|d l IHl r IHr]; simpl; intros lo hi H; [lia|].
  destruct H as (Hd & Hl & Hr).
  specialize (IHl _ _ Hl). specialize (IHr _ _ Hr).
  rewrite length_app. simpl. lia.
Qed.

Lemma avl_size (n : nat) (t : TreeNode) :
  avl t -> 2 * Z.of_nat n <= height t ->
  2 ^ Z.of_nat n <= Z.of_nat (length (inorder t)) + 1.
Proof.
  revert t. induction n as [|n IH]; intros t Ha Hh.
  - simpl. lia.
  - rewrite Nat2Z.inj_succ in *.
    destruct t as [|d l r]; cbn [avl height inorder] in *; [lia|].
    destruct Ha as (Hl & Hr & Hb).
    assert (H1 : 2 ^ Z.of_nat n <= Z.of_nat (length (inorder l)) + 1)
      by (apply IH; [assumption | lia]).
    assert (H2 : 2 ^ Z.of_nat n <= Z.of_nat (length (inorder r)) + 1)
      by (apply IH; [assumption | lia]).
    rewrite Z.pow_succ_r by lia.
    rewrite length_app. cbn [length]. lia.
Qed.

Lemma avl_height_bound (t : TreeNode) (lo hi : Z) :
  avl t -> bounded lo hi t -> 0 <= lo -> hi <= 2 ^ 32 -> height t <= 65.
Proof.
  intros Ha Hb Hlo Hhi.
  destruct (Z_le_gt_dec (height t) 65) as [H|H]; [exact H|exfalso].
  pose proof (avl_size 33 t Ha ltac:(lia)) as Hs.
  pose proof (bounded_size t lo hi Hb) as Hn.
  change (2 ^ Z.of_nat 33) with 8589934592 in Hs.
  change (2 ^ 32) with 4294967296 in Hhi. lia.
Qed.

(** ** Rebalancing *)

Lemma balance_factor (l r : TreeNode) :
  height l <= 65 -> height r <= 65 ->
  s32 (u32 (treeHeight l - treeHeight r)) = height l - height r.
Proof.
  intros Hl Hr.
  pose proof (height_nonneg l). pose proof (height_nonneg r).
  rewrite !treeHeight_height by (change (2 ^ 32) with 4294967296; lia).
  apply s32_small. change (2 ^ 31) with 2147483648. lia.
Qed.

Lemma rebalance_balanced (n d : Z) (l r : TreeNode) :
  height l <= 65 -> height r <= 65 -> -1 <= height l - height r <= 1 ->
  rebalance n (Node d l r) = Ok (Node d l r).
Proof.
  intros Hl Hr Hb. unfold rebalance. rewrite balance_factor by assumption.
  replace (height l - height r >? 1) with false
    by (symmetry; rewrite Z.gtb_ltb; apply Z.ltb_ge; lia).
  replace (height l - height r <? -1) with false
    by (symmetry; apply Z.ltb_ge; lia).
  reflexivity.
Qed.

Ltac tree_facts :=
  repeat match goal with
         | t : TreeNode |- _ =>
             lazymatch goal with
             | _ : 0 <= height t |- _ => fail
             | _ => pose proof (height_nonneg t)
             end
         end.

Lemma rebalance_left (n d : Z) (l r : TreeNode) (lo hi : Z) :
  bounded lo hi (Node d l r) -> avl l -> avl r ->
  height l <= 65 -> height r <= 65 ->
  height l - height r = 2 -> leans n l ->
  exists t', rebalance n (Node d l r) = Ok t' /\ bounded lo hi t' /\ avl t' /\
             inorder t' = inorder (Node d l r) /\ height t' = height l.
Proof.
  intros Hb Hl Hr Hhl Hhr Hd Hn. unfold rebalance.
  rewrite balance_factor by assumption. rewrite Hd. cbn [Z.gtb Z.compare].
  destruct l as [|ld ll lr]; [contradiction|].
  cbn [leans] in Hn. cbn [bounded avl height] in *.
  destruct Hn as [(Hlt & Hh) | (Hlt & Hh)].
  - replace (n <? ld) with true by (symmetry; apply Z.ltb_lt; lia).
    cbn [right_rotate]. eexists. split; [reflexivity|].
    cbn [bounded avl height inorder]. tree_facts.
    repeat split; try tauto; try lia.
    rewrite <- app_assoc. reflexivity.
  - replace (n <? ld) with false by (symmetry; apply Z.ltb_ge; lia).
    destruct lr as [|y a b]; [cbn [height] in *; tree_facts; lia|].
    cbn [left_rotate bind right_rotate]. eexists. split; [reflexivity|].
    cbn [bounded avl height inorder] in *. tree_facts.
    repeat split; try tauto; try lia.
    rewrite <- !app_assoc. cbn [app]. rewrite <- app_assoc. reflexivity.
Qed.

Lemma rebalance_right (n d : Z) (l r : TreeNode) (lo hi : Z) :
  bounded lo hi (Node d l r) -> avl l -> avl r ->
  height l <= 65 -> height r <= 65 ->
  height l - height r = -2 -> leans n r ->
  exists t', rebalance n (Node d l r) = Ok t' /\ bounded lo hi t' /\ avl t' /\
             inorder t' = inorder (Node d l r) /\ height t' = height r.
Proof.
  intros Hb Hl Hr Hhl Hhr Hd Hn. unfold rebalance.
  rewrite balance_factor by assumption. rewrite Hd. cbn [Z.gtb Z.ltb Z.compare].
  destruct r as [|rd rl rr]; [contradiction|].
  cbn [leans] in Hn. cbn [bounded avl height] in *.
  destruct Hn as [(Hlt & Hh) | (Hlt & Hh)].
  - replace (n >? rd) with false
      by (symmetry; rewrite Z.gtb_ltb; apply Z.ltb_ge; lia).
    destruct rl as [|y a b]; [cbn [height] in *; tree_facts; lia|].
    cbn [left_rotate bind right_rotate]. eexists. split; [reflexivity|].
    cbn [bounded avl height inorder] in *. tree_facts.
    repeat split; try tauto; try lia.
    rewrite <- !app_assoc. cbn [app]. reflexivity.
  - replace (n >? rd) with true
      by (symmetry; rewrite Z.gtb_ltb; apply Z.ltb_lt; lia).
    cbn [left_rotate]. eexists. split; [reflexivity|].
    cbn [bounded avl height inorder]. tree_facts.
    repeat split; try tauto; try lia.
    rewrite <- app_assoc. reflexivity.
Qed.

(** ** Insertion *)

Lemma insertNode_spec (n : Z) (t : TreeNode) : forall lo hi,
  bounded lo hi t -> avl t -> lo <= n < hi -> 0 <= lo -> hi <= 2 ^ 32 ->
  exists t', insertNode n t = Ok t' /\ insert_post n lo hi t t'.
Proof.
  induction t as [|d l IHl r IHr]; intros lo hi Hb Ha Hn Hlo Hhi.
  - exists (newNode n). split; [reflexivity|].
    unfold insert_post, newNode. cbn. repeat split; try lia; try tauto.
  - cbn [bounded avl] in Hb, Ha.
    destruct Hb as (Hd & Hbl & Hbr). destruct Ha as (Hal & Har & Hbal).
    pose proof (avl_height_bound l _ _ Hal Hbl ltac:(lia) ltac:(lia)) as Hhl.
    pose proof (avl_height_bound r _ _ Har Hbr ltac:(lia) ltac:(lia)) as Hhr.
    cbn [insertNode]. rewrite Z.gtb_ltb.
    destruct (Z.ltb_spec d n) as [Hdn|Hdn].
    + (* n goes right *)
      destruct (IHr (d + 1) hi Hbr Har ltac:(lia) ltac:(lia) Hhi)
        as (r' & Hins & Hbr' & Har' & Hin & Hlen & Hh).
      rewrite Hins. cbn [bind].
      pose proof (avl_height_bound r' _ _ Har' Hbr' ltac:(lia) ltac:(lia)) as Hhr'.
      assert (Hmem : forall x, In x (inorder (Node d l r')) <->
                               x = n \/ In x (inorder (Node d l r))).
      { intros x. cbn [inorder]. rewrite !in_app_iff. cbn [In].
        rewrite Hin. tauto. }
      assert (Hsz : (length (inorder (Node d l r')) <=
                     S (length (inorder (Node d l r))))%nat).
      { cbn [inorder]. rewrite !length_app. cbn [length]. lia. }
      destruct (Z.eq_dec (height l - height r') (-2)) as [H2|H2].
      * destruct Hh as [Hh|(Hh & Hl)]; [lia|].
        destruct Hl as [Hl|Hl]; [subst r; cbn [height] in *; tree_facts; lia|].
        destruct (rebalance_right n d l r' lo hi)
          as (t' & Hre & Hbt & Hat & Hio & Hht); try assumption.
        { cbn [bounded]. auto. }
        exists t'. split; [exact Hre|]. unfold insert_post.
        rewrite Hio. repeat split; try assumption; try apply Hmem.
        left. cbn [height]. lia.
      * rewrite rebalance_balanced by (try assumption; lia).
        eexists. split; [reflexivity|]. unfold insert_post.
        repeat split; try assumption; try apply Hmem;
          cbn [bounded avl height leans]; auto; lia.
    + destruct (Z.ltb_spec n d) as [Hnd|Hnd].
      * (* n goes left *)
        destruct (IHl lo d Hbl Hal ltac:(lia) Hlo ltac:(lia))
          as (l' & Hins & Hbl' & Hal' & Hin & Hlen & Hh).
        rewrite Hins. cbn [bind].
        pose proof (avl_height_bound l' _ _ Hal' Hbl' ltac:(lia) ltac:(lia)) as Hhl'.
        assert (Hmem : forall x, In x (inorder (Node d l' r)) <->
                                 x = n \/ In x (inorder (Node d l r))).
        { intros x. cbn [inorder]. rewrite !in_app_iff. cbn [In].
          rewrite Hin. tauto. }
        assert (Hsz : (length (inorder (Node d l' r)) <=
                       S (length (inorder (Node d l r))))%nat).
        { cbn [inorder]. rewrite !length_app. cbn [length]. lia. }
        destruct (Z.eq_dec (height l' - height r) 2) as [H2|H2].
        -- destruct Hh as [Hh|(Hh & Hl)]; [lia|].
           destruct Hl as [Hl|Hl]; [subst l; cbn [height] in *; tree_facts; lia|].
           destruct (rebalance_left n d l' r lo hi)
             as (t' & Hre & Hbt & Hat & Hio & Hht); try assumption.
           { cbn [bounded]. auto. }
           exists t'. split; [exact Hre|]. unfold insert_post.
           rewrite Hio. repeat split; try assumption; try apply Hmem.
           left. cbn [height]. lia.
        -- rewrite rebalance_balanced by (try assumption; lia).
           eexists. split; [reflexivity|]. unfold insert_post.
           repeat split; try assumption; try apply Hmem;
             cbn [bounded avl height leans]; auto; lia.
      * (* n is already the key of the root *)
        cbn [bind]. rewrite rebalance_balanced by assumption.
        eexists. split; [reflexivity|]. unfold insert_post.
        assert (n = d) by lia. subst n.
        repeat split; cbn [bounded avl]; auto; try lia.
        intros [H|H]; [|exact H]. subst x. cbn [inorder].
        apply in_elt.
Qed.

(** ** Loops *)

Section Loops.

Variables (A S : Type) (f : A -> S -> result (step S)).

Lemma for_loop_iterate (pre l : list A) (s : S) :
  for_loop (length l) (Z.of_nat (length pre))
    (fun i s => x <- load (pre ++ l) i ;; f x s) s
  = iterate f l s.
Proof.
  revert pre s. induction l as [|x l IH]; intros pre s; [reflexivity|].
  cbn [length for_loop iterate]. rewrite load_app. cbn [bind].
  destruct (f x s) as [[s'|s']|e]; cbn [bind]; try reflexivity.
  specialize (IH (pre ++ [x]) s').
  rewrite length_app, <- app_assoc in IH. cbn [length app] in IH.
  rewrite <- IH. f_equal. lia.
Qed.

Lemma for_upto_iterate (l : list A) (s : S) :
  for_upto (Z.of_nat (length l)) (fun i s => x <- load l i ;; f x s) s
  = iterate f l s.
Proof.
  unfold for_upto. rewrite Nat2Z.id. apply (for_loop_iterate [] l s).
Qed.

End Loops.

(** ** Flattening *)

Lemma treeSize_length (t : TreeNode) :
  Z.of_nat (length (inorder t)) < 2 ^ 32 ->
  treeSize t = Z.of_nat (length (inorder t)).
Proof.
  induction t as [|d l IHl r IHr]; cbn [inorder treeSize]; intros H;
    [reflexivity|].
  rewrite length_app in *. cbn [length] in *.
  change (2 ^ 32) with 4294967296 in *.
  rewrite IHl, IHr by lia.
  rewrite (u32_small (Z.of_nat _ + Z.of_nat _)) by (change (2 ^ 32) with 4294967296; lia).
  rewrite u32_small by (change (2 ^ 32) with 4294967296; lia). lia.
Qed.

Lemma treeToArr_guard (t : TreeNode) (arr : list Z) (i : Z) :
  match t with
  | NULL => Ok (arr, i)
  | Node _ _ _ => treeToArr t arr i
  end = treeToArr t arr i.
Proof. destruct t; reflexivity. Qed.

Lemma treeToArr_spec (t : TreeNode) : forall (pre mid post : list Z),
  length mid = length (inorder t) ->
  Z.of_nat (length pre) + Z.of_nat (length mid) <= INT_MAX ->
  treeToArr t (pre ++ mid ++ post) (Z.of_nat (length pre))
  = Ok (pre ++ inorder t ++ post, Z.of_nat (length pre + length mid)).
Proof.
  induction t as [|d l IHl r IHr]; intros pre mid post Hlen Hmax.
  - destruct mid; [|discriminate]. cbn. rewrite Nat.add_0_r. reflexivity.
  - cbn [inorder] in Hlen. rewrite length_app in Hlen. cbn [length] in Hlen.
    assert (Hmid : mid = firstn (length (inorder l)) mid
                         ++ skipn (length (inorder l)) mid)
      by (symmetry; apply firstn_skipn).
    remember (firstn (length (inorder l)) mid) as ml eqn:Eml.
    assert (Hml : length ml = length (inorder l))
      by (subst ml; rewrite length_firstn; lia).
    destruct (skipn (length (inorder l)) mid) as [|x mr] eqn:Emr.
    { exfalso. apply (f_equal (@length Z)) in Hmid.
      rewrite length_app in Hmid. cbn [length] in Hmid. lia. }
    assert (Hmr : length mr = length (inorder r)).
    { apply (f_equal (@length Z)) in Hmid.
      rewrite length_app in Hmid. cbn [length] in Hmid. lia. }
    rewrite Hmid. clear Eml Emr.
    assert (Hm : length mid = (length ml + S (length mr))%nat)
      by (rewrite Hmid, length_app; reflexivity).
    cbn [treeToArr]. rewrite treeToArr_guard.
    rewrite <- app_assoc.
    rewrite (IHl pre ml ((x :: mr) ++ post) Hml) by lia.
    cbn [bind].
    replace (pre ++ inorder l ++ (x :: mr) ++ post)
      with ((pre ++ inorder l) ++ x :: mr ++ post)
      by (rewrite <- app_assoc; reflexivity).
    replace (Z.of_nat (length pre + length ml))
      with (Z.of_nat (length (pre ++ inorder l)))
      by (rewrite length_app; lia).
    rewrite store_app. cbn [bind].
    unfold int_incr.
    replace (Z.of_nat (length (pre ++ inorder l)) <? INT_MAX) with true
      by (symmetry; apply Z.ltb_lt; rewrite length_app; lia).
    cbn [bind]. rewrite treeToArr_guard.
    replace ((pre ++ inorder l) ++ d :: mr ++ post)
      with ((pre ++ inorder l ++ [d]) ++ mr ++ post)
      by (rewrite <- !app_assoc; reflexivity).
    replace (Z.of_nat (length (pre ++ inorder l)) + 1)
      with (Z.of_nat (length (pre ++ inorder l ++ [d])))
      by (rewrite !length_app; cbn [length]; lia).
    rewrite (IHr (pre ++ inorder l ++ [d]) mr post Hmr)
      by (rewrite !length_app; cbn [length]; lia).
    f_equal. f_equal.
    + cbn [inorder]. rewrite <- !app_assoc. reflexivity.
    + rewrite !length_app. cbn [length]. lia.
Qed.

(** The closing lines of the operators deliver the in-order traversal,
    for every tree of fewer than 2^30 - 1 nodes. *)
Lemma tree_to_intSet_inorder (t : TreeNode) :
  Z.of_nat (length (inorder t)) < 2 ^ 30 - 1 ->
  tree_to_intSet t = Ok (inorder t).
Proof.
  intros H. change (2 ^ 30 - 1) with 1073741823 in H.
  unfold tree_to_intSet.
  rewrite treeSize_length by (change (2 ^ 32) with 4294967296; lia).
  set (n := length (inorder t)) in *.
  assert (Hbuf : palloc_varlena (u32 (VARHDRSZ + u32 (Z.of_nat n * 4)))
                 = repeat 0 n).
  { unfold palloc_varlena, VARHDRSZ.
    rewrite (u32_small (Z.of_nat n * 4))
      by (change (2 ^ 32) with 4294967296; lia).
    rewrite u32_small by (change (2 ^ 32) with 4294967296; lia).
    replace ((4 + Z.of_nat n * 4 - 4) / 4) with (Z.of_nat n)
      by (apply Z.div_unique_exact; lia).
    rewrite Nat2Z.id. reflexivity. }
  rewrite Hbuf. unfold VARDATA_ANY.
  pose proof (treeToArr_spec t [] (repeat 0 n) []) as Hs.
  rewrite app_nil_r in Hs. cbn [app length Z.of_nat] in Hs.
  rewrite Hs.
  - cbn [bind]. rewrite app_nil_r. reflexivity.
  - apply repeat_length.
  - rewrite repeat_length. unfold INT_MAX. fold n. lia.
Qed.

(** ** Ordering of the traversal *)

Lemma bounded_Forall (t : TreeNode) (lo hi : Z) :
  bounded lo hi t -> Forall (fun x => lo <= x < hi) (inorder t).
Proof.
  revert lo hi. induction t as [|d l IHl r IHr]; intros lo hi H; cbn in *.
  - constructor.
  - destruct H as (Hd & Hl & Hr).
    apply Forall_app. split.
    + eapply Forall_impl; [|apply (IHl _ _ Hl)]. cbn. intros; lia.
    + constructor; [lia|].
      eapply Forall_impl; [|apply (IHr _ _ Hr)]. cbn. intros; lia.
Qed.

Lemma bounded_bst (t : TreeNode) (lo hi : Z) : bounded lo hi t -> bst t.
Proof.
  revert lo hi. induction t as [|d l IHl r IHr]; intros lo hi H; cbn in *.
  - exact I.
  - destruct H as (Hd & Hl & Hr). repeat split.
    + eapply Forall_impl; [|apply (bounded_Forall _ _ _ Hl)]. cbn. intros; lia.
    + eapply Forall_impl; [|apply (bounded_Forall _ _ _ Hr)]. cbn. intros; lia.
    + eapply IHl; eassumption.
    + eapply IHr; eassumption.
Qed.

Lemma sorted_app (l1 l2 : list Z) (d : Z) :
  StronglySorted Z.lt l1 -> StronglySorted Z.lt l2 ->
  Forall (fun x => x < d) l1 -> Forall (fun x => d < x) l2 ->
  StronglySorted Z.lt (l1 ++ d :: l2).
Proof.
  intros H1 H2 F1 F2. induction H1 as [|a l1 Hs IH Ha]; cbn.
  - constructor; assumption.
  - inversion F1 as [|? ? Had F1']; subst.
    constructor; [apply IH; assumption|].
    apply Forall_app. split; [assumption|].
    constructor; [assumption|].
    eapply Forall_impl; [|exact F2]. cbn. intros; lia.
Qed.

Lemma bst_sorted (t : TreeNode) : bst t -> StronglySorted Z.lt (inorder t).
Proof.
  induction t as [|d l IHl r IHr]; cbn; intros H.
  - constructor.
  - destruct H as (Fl & Fr & Hl & Hr). apply sorted_app; auto.
Qed.

Lemma sorted_NoDup (l : list Z) : StronglySorted Z.lt l -> NoDup l.
Proof.
  induction 1 as [|a l Hs IH Ha]; constructor; [|assumption].
  intros Hin. rewrite Forall_forall in Ha. specialize (Ha _ Hin). lia.
Qed.

(** ** The invariant of the construction tree *)

Lemma tree_inv_NULL : tree_inv NULL.
Proof. split; exact I. Qed.

Lemma insertNode_inv (n : Z) (t : TreeNode) :
  tree_inv t -> is_u32 n ->
  exists t', insertNode n t = Ok t' /\ tree_inv t' /\
             (forall x, In x (inorder t') <-> x = n \/ In x (inorder t)) /\
             (length (inorder t') <= S (length (inorder t)))%nat.
Proof.
  intros (Hb & Ha) Hn.
  destruct (insertNode_spec n t 0 (2 ^ 32) Hb Ha Hn ltac:(lia) ltac:(lia))
    as (t' & Hins & Hb' & Ha' & Hin & Hlen & _).
  exists t'. split; [assumption|]. split; [split; assumption|].
  split; assumption.
Qed.

Lemma reachable_inv (t : TreeNode) : reachable t -> tree_inv t.
Proof.
  induction 1 as [|n t t' Hr IH Hn Hins]; [apply tree_inv_NULL|].
  destruct (insertNode_inv n t IH Hn) as (t'' & Hins' & Hinv & _).
  congruence.
Qed.

Lemma tree_inv_height (t : TreeNode) :
  tree_inv t -> treeHeight t = height t.
Proof.
  intros (Hb & Ha). apply treeHeight_height.
  pose proof (avl_height_bound t 0 (2 ^ 32) Ha Hb ltac:(lia) ltac:(lia)).
  change (2 ^ 32) with 4294967296. lia.
Qed.

(** ** Filling a tree from an array *)

Lemma insert_selected_iterate (keep : Z -> result bool) (nums : list Z)
    (tree : TreeNode) :
  insert_selected keep nums (Z.of_nat (length nums)) tree
  = iterate (insert_if keep) nums tree.
Proof.
  unfold insert_selected.
  apply (for_upto_iterate Z TreeNode (insert_if keep) nums tree).
Qed.

Lemma iterate_insert_inv (keep : Z -> result bool) (nums : list Z) :
  forall (tree tree' : TreeNode),
  Forall is_u32 nums -> tree_inv tree ->
  iterate (insert_if keep) nums tree = Ok tree' ->
  tree_inv tree' /\
  (length (inorder tree') <= length (inorder tree) + length nums)%nat /\
  (forall x, In x (inorder tree') <->
             In x (inorder tree) \/ (In x nums /\ keep x = Ok true)).
Proof.
  induction nums as [|y nums IH]; intros tree tree' Hu Hinv Hit.
  - cbn in Hit. injection Hit as <-.
    split; [assumption|]. split; [lia|]. intros x. split.
    + intros H. left. exact H.
    + intros [H|(H & _)]; [exact H | destruct H].
  - inversion Hu as [|? ? Hy Hu']; subst.
    cbn [iterate] in Hit. unfold insert_if at 1 in Hit.
    destruct (keep y) as [[|]|e] eqn:Ek; cbn [bind] in Hit; try discriminate.
    + destruct (insertNode_inv y tree Hinv Hy)
        as (t1 & Hins & Hinv1 & Hin1 & Hlen1).
      rewrite Hins in Hit. cbn [bind] in Hit.
      destruct (IH _ _ Hu' Hinv1 Hit) as (Hinv' & Hlen' & Hin').
      split; [assumption|]. split; [cbn [length]; lia|].
      intros x. rewrite Hin', Hin1. cbn [In]. split.
      * intros [[H|H]|(H & Hk)]; auto. subst x. auto.
      * intros [H|([H|H] & Hk)]; auto.
    + destruct (IH _ _ Hu' Hinv Hit) as (Hinv' & Hlen' & Hin').
      split; [assumption|]. split; [cbn [length]; lia|].
      intros x. rewrite Hin'. cbn [In]. split.
      * intros [H|(H & Hk)]; auto.
      * intros [H|([H|H] & Hk)]; auto. subst x. congruence.
Qed.

Lemma iterate_insert_total (keep : Z -> result bool) (nums : list Z) :
  forall (tree : TreeNode),
  Forall is_u32 nums -> tree_inv tree ->
  (forall x, In x nums -> exists b, keep x = Ok b) ->
  exists tree', iterate (insert_if keep) nums tree = Ok tree'.
Proof.
  induction nums as [|y nums IH]; intros tree Hu Hinv Hk.
  - eexists. reflexivity.
  - inversion Hu as [|? ? Hy Hu']; subst.
    cbn [iterate]. unfold insert_if at 1.
    destruct (Hk y (or_introl eq_refl)) as (b & Eb). rewrite Eb. cbn [bind].
    assert (Hk' : forall x, In x nums -> exists b, keep x = Ok b)
      by (intros x Hx; apply Hk; right; exact Hx).
    destruct b.
    + destruct (insertNode_inv y tree Hinv Hy) as (t1 & Hins & Hinv1 & _).
      rewrite Hins. cbn [bind]. apply IH; assumption.
    + cbn [bind]. apply IH; assumption.
Qed.

(** ** Values *)

Lemma wf_size (a : intSet) :
  wf_intSet a ->
  u32 (VARSIZE_ANY_EXHDR a / 4) = Z.of_nat (length a) /\
  Z.of_nat (length a) < 2 ^ 28.
Proof.
  intros (_ & _ & H). unfold VARSIZE_ANY_EXHDR, VARHDRSZ, MaxAllocSize in *.
  replace (4 * Z.of_nat (length a) / 4) with (Z.of_nat (length a))
    by (apply Z.div_unique_exact; lia).
  change (2 ^ 28) with 268435456.
  split; [apply u32_small; change (2 ^ 32) with 4294967296|]; lia.
Qed.

Lemma canonical_nil : canonical [].
Proof. repeat split; constructor. Qed.

Lemma palloc_varlena_empty : palloc_varlena VARHDRSZ = [].
Proof. reflexivity. Qed.

Lemma cardinality_length (v : intSet) :
  Z.of_nat (length v) < 2 ^ 64 ->
  intset_cardinality v = Z.of_nat (length v).
Proof.
  intros H. unfold intset_cardinality, VARSIZE_ANY_EXHDR.
  replace (4 * Z.of_nat (length v) / 4) with (Z.of_nat (length v))
    by (apply Z.div_unique_exact; lia).
  apply Z.mod_small. lia.
Qed.

Lemma tree_inv_sorted (t : TreeNode) :
  tree_inv t -> StronglySorted Z.lt (inorder t) /\ Forall is_u32 (inorder t).
Proof.
  intros (Hb & _). split.
  - apply bst_sorted. eapply bounded_bst. exact Hb.
  - apply (bounded_Forall _ _ _ Hb).
Qed.

Lemma tree_to_intSet_canonical (t : TreeNode) (v : intSet) :
  tree_inv t -> Z.of_nat (length (inorder t)) < 2 ^ 30 - 1 ->
  tree_to_intSet t = Ok v ->
  v = inorder t /\ canonical v.
Proof.
  intros Hinv Hlen Hv.
  rewrite tree_to_intSet_inorder in Hv by assumption. injection Hv as <-.
  destruct (tree_inv_sorted t Hinv) as (Hs & _).
  split; [reflexivity|]. split; [assumption|].
  split; [apply sorted_NoDup; assumption|].
  symmetry. apply cardinality_length.
  change (2 ^ 30 - 1) with 1073741823 in Hlen.
  change (2 ^ 64) with 18446744073709551616. lia.
Qed.

(** A tree filled from a well-formed value keeps its invariant and
    grows by no more than the value's count. *)
Lemma fill_inv (keep : Z -> result bool) (a : intSet) (t t' : TreeNode) :
  wf_intSet a -> tree_inv t ->
  insert_selected keep (VARDATA_ANY a) (u32 (VARSIZE_ANY_EXHDR a / 4)) t
    = Ok t' ->
  tree_inv t' /\
  Z.of_nat (length (inorder t')) < Z.of_nat (length (inorder t)) + 2 ^ 28 /\
  (forall x, In x (inorder t') <->
             In x (inorder t) \/ (In x a /\ keep x = Ok true)).
Proof.
  intros Ha Hinv Hfill.
  destruct (wf_size a Ha) as (Hsz & Hbound). rewrite Hsz in Hfill.
  unfold VARDATA_ANY in Hfill. rewrite insert_selected_iterate in Hfill.
  destruct Ha as (_ & Hu & _).
  destruct (iterate_insert_inv keep a t t' Hu Hinv Hfill) as (Hi & Hl & Hin).
  split; [assumption|]. split; [|assumption].
  change (2 ^ 28) with 268435456 in *. lia.
Qed.

Ltac run_fill Hv a t :=
  match type of Hv with
  | context [insert_selected ?k (VARDATA_ANY a) ?n t] =>
      let t' := fresh "t" in
      let E := fresh "E" in
      let I := fresh "I" in
      let L := fresh "L" in
      destruct (insert_selected k (VARDATA_ANY a) n t) as [t'|] eqn:E;
      [cbn [bind] in Hv | discriminate];
      match goal with
      | Ha : wf_intSet a, Ht : tree_inv t |- _ =>
          destruct (fill_inv k a t t' Ha Ht E) as (I & L & _)
      end
  end.

Ltac finish_flat Hv :=
  match type of Hv with
  | tree_to_intSet ?t = Ok ?v =>
      match goal with
      | I : tree_inv t |- _ =>
          apply (tree_to_intSet_canonical t v I); [|exact Hv];
          cbn [inorder length Z.of_nat] in *;
          change (2 ^ 28) with 268435456 in *;
          change (2 ^ 30 - 1) with 1073741823; lia
      end
  end.

Lemma produced_canonical (v : intSet) : produced v ->
  (forall str, intset_in str = Ok v -> wf_cstring str -> canonical v) ->
  canonical v.
Proof.
  intros Hp Hin. pose proof tree_inv_NULL as I0.
  destruct Hp as
    [str v Hs Hv | a b v Ha Hb Hv | fuel a b v Ha Hb Hv
    | fuel a b v Ha Hb Hv | fuel a b v Ha Hb Hv].
  - eapply Hin; eassumption.
  - unfold intset_union in Hv.
    destruct (_ && _); [injection Hv as <-; apply canonical_nil|].
    run_fill Hv a NULL. run_fill Hv b t. finish_flat Hv.
  - unfold intset_intersectn in Hv.
    destruct (_ || _); [injection Hv as <-; apply canonical_nil|].
    destruct (_ <? _).
    + run_fill Hv a NULL. finish_flat Hv.
    + run_fill Hv b NULL. finish_flat Hv.
  - unfold intset_diff in Hv.
    destruct (_ =? _); [injection Hv as <-; apply canonical_nil|].
    run_fill Hv a NULL. finish_flat Hv.
  - unfold intset_disjunctn in Hv.
    destruct (numsEqual _ _ _) as [[|]|]; cbn [bind] in Hv;
      [injection Hv as <-; apply canonical_nil | | discriminate].
    run_fill Hv a NULL. run_fill Hv b t. finish_flat Hv.
Qed.

(** ** Characters *)

Lemma char_code_range (c : ascii) : 0 <= char_code c < 256.
Proof.
  unfold char_code. pose proof (N_ascii_bounded c) as H. lia.
Qed.

Lemma is_digit_code (c : ascii) :
  is_digit c = true <-> 48 <= char_code c <= 57.
Proof.
  unfold is_digit, char_val. pose proof (char_code_range c) as Hc.
  change (char_code "9") with 57. change (char_code "0") with 48.
  cbn [Z.ltb Z.compare Pos.compare Pos.compare_cont].
  rewrite andb_true_iff, Z.leb_le, Z.geb_le.
  destruct (char_code c <? 128) eqn:E;
    [apply Z.ltb_lt in E | apply Z.ltb_ge in E]; lia.
Qed.

Lemma digit_value_range (c : ascii) :
  is_digit c = true -> 0 <= digit_value c <= 9.
Proof.
  intros H. apply is_digit_code in H. unfold digit_value.
  change (char_code "0") with 48. lia.
Qed.

Lemma digit_char_val (c : ascii) :
  is_digit c = true -> char_val c - char_val "0" = digit_value c.
Proof.
  intros H. apply is_digit_code in H. unfold digit_value, char_val.
  change (char_code "0") with 48. cbn [Z.ltb Z.compare Pos.compare Pos.compare_cont].
  replace (char_code c <? 128) with true by (symmetry; apply Z.ltb_lt; lia).
  reflexivity.
Qed.

(** ** The accumulator of the scan *)

Lemma decimal_value_snoc (run : list ascii) (c : ascii) :
  decimal_value (run ++ [c]) = decimal_value run * 10 + digit_value c.
Proof. unfold decimal_value. rewrite fold_left_app. reflexivity. Qed.

Lemma accumulate_u32 (D d : Z) :
  u32 (u32 (u32 D * 10) + d) = u32 (D * 10 + d).
Proof.
  unfold u32.
  rewrite Z.add_mod_idemp_l by discriminate.
  rewrite <- (Z.add_mod_idemp_l (D * 10)) by discriminate.
  rewrite <- (Z.add_mod_idemp_l (D mod 2 ^ 32 * 10)) by discriminate.
  rewrite Z.mul_mod_idemp_l by discriminate. reflexivity.
Qed.

(** ** The scan of [intset_in] *)

Lemma scan_runs (s : list ascii) : forall (cur : list ascii) (st : scan_state),
  scan_at cur st ->
  exists st', iterate scan_step s st = Ok st' /\
    tree_inv (tempNums st') /\
    (length (inorder (tempNums st')) <=
       length (inorder (tempNums st)) + length (digit_runs_from cur s))%nat /\
    (forall x,
       In x (inorder (tempNums st')) \/ (flag st' = true /\ x = curr_num st')
       <-> In x (inorder (tempNums st)) \/
           In x (map run_value (digit_runs_from cur s))).
Proof.
  induction s as [|c s IH]; intros cur st (Hinv & Hcur & Hflag).
  - exists st. split; [reflexivity|]. split; [assumption|]. split; [lia|].
    intros x. cbn [digit_runs_from]. destruct cur as [|c0 cur]; cbn in Hflag.
    + cbn. rewrite Hflag. intuition congruence.
    + cbn [map In]. rewrite Hflag, Hcur. intuition congruence.
  - cbn [iterate digit_runs_from]. unfold scan_step at 1, scan_char.
    destruct (is_digit c) eqn:Ec.
    + cbn [bind curr_num tempNums]. unfold accumulate.
      rewrite (digit_char_val c Ec).
      set (st1 := mkScan _ _ true).
      destruct (IH (c :: cur) st1) as (st' & Hit & Hinv' & Hlen & Hin).
      { split; [exact Hinv|]. split; [|reflexivity].
        cbn [curr_num st1 rev]. rewrite Hcur. unfold run_value.
        rewrite decimal_value_snoc. apply accumulate_u32. }
      exists st'. split; [exact Hit|]. split; [exact Hinv'|].
      split; [exact Hlen|]. exact Hin.
    + destruct (flag st) eqn:Ef.
      * destruct cur as [|c0 cur]; [cbn in Hflag; congruence|].
        assert (Hu : is_u32 (curr_num st))
          by (rewrite Hcur; apply Z.mod_pos_bound; reflexivity).
        destruct (insertNode_inv (curr_num st) (tempNums st) Hinv Hu)
          as (t1 & Hins & Hinv1 & Hin1 & Hlen1).
        rewrite Hins. cbn [bind].
        destruct (IH [] (mkScan t1 0 false)) as (st' & Hit & Hinv' & Hlen & Hin).
        { split; [exact Hinv1|]. split; reflexivity. }
        exists st'. split; [exact Hit|]. split; [exact Hinv'|].
        split; [cbn [length tempNums] in *; lia|].
        intros x. rewrite Hin. cbn [tempNums map In]. rewrite Hin1, Hcur.
        intuition congruence.
      * destruct cur as [|c0 cur]; [|cbn in Hflag; congruence].
        cbn [bind].
        destruct (IH [] st) as (st' & Hit & Hinv' & Hlen & Hin).
        { split; [exact Hinv|]. split; assumption. }
        exists st'. split; [exact Hit|]. split; [exact Hinv'|].
        split; [exact Hlen|]. exact Hin.
Qed.

Lemma digit_runs_from_length (s : list ascii) : forall (cur : list ascii),
  (length (digit_runs_from cur s) <=
     length s + match cur with [] => 0 | _ :: _ => 1 end)%nat.
Proof.
  induction s as [|c s IH]; intros cur; cbn [digit_runs_from length].
  - destruct cur; cbn; lia.
  - destruct (is_digit c).
    + specialize (IH (c :: cur)). cbn beta iota in IH. destruct cur; lia.
    + specialize (IH []). cbn beta iota in IH. destruct cur; cbn [length]; lia.
Qed.

Lemma scan_flag (s : list ascii) : forall (st st' : scan_state),
  iterate scan_step s st = Ok st' ->
  match s with
  | [] => flag st' = flag st
  | _ :: _ => is_digit (last s " "%char) = false -> flag st' = false
  end.
Proof.
  induction s as [|c s IH]; intros st st' Hit.
  - cbn in Hit. congruence.
  - cbn [iterate] in Hit. unfold scan_step at 1 in Hit.
    destruct (scan_char c st) as [st1|] eqn:E1; [|discriminate].
    cbn [bind] in Hit. specialize (IH st1 st' Hit).
    destruct s as [|c' s].
    + cbn [last]. intros Ec. rewrite IH. unfold scan_char in E1.
      rewrite Ec in E1. destruct (flag st) eqn:Ef.
      * destruct (insertNode _ _); [|discriminate].
        cbn [bind] in E1. injection E1 as <-. reflexivity.
      * injection E1 as <-. exact Ef.
    + exact IH.
Qed.

(** ** Matching by derivatives *)

Lemma Matches_Cat_inv (r1 r2 : regex) (s : list ascii) :
  Matches (Cat r1 r2) s ->
  exists s1 s2, s = s1 ++ s2 /\ Matches r1 s1 /\ Matches r2 s2.
Proof. intros H. inversion H; subst. eauto. Qed.

Lemma Matches_Alt_inv (r1 r2 : regex) (s : list ascii) :
  Matches (Alt r1 r2) s -> Matches r1 s \/ Matches r2 s.
Proof. intros H. inversion H; subst; auto. Qed.

Lemma Matches_Chr_inv (c : ascii) (s : list ascii) :
  Matches (Chr c) s -> s = [c].
Proof. intros H. inversion H; subst. reflexivity. Qed.

Lemma nullable_Matches (r : regex) : nullable r = true <-> Matches r [].
Proof.
  induction r as [| |c|lo hi|r1 IH1 r2 IH2|r1 IH1 r2 IH2|r IH]; cbn.
  - split; [discriminate | intros H; inversion H].
  - split; [constructor | reflexivity].
  - split; [discriminate | intros H; inversion H].
  - split; [discriminate | intros H; inversion H].
  - rewrite andb_true_iff, IH1, IH2. split.
    + intros (H1 & H2). apply (MCat _ _ [] [] H1 H2).
    + intros H. apply Matches_Cat_inv in H.
      destruct H as (s1 & s2 & E & H1 & H2). symmetry in E.
      apply app_eq_nil in E. destruct E; subst. split; assumption.
  - rewrite orb_true_iff, IH1, IH2. split.
    + intros [H|H]; [apply MAltL | apply MAltR]; assumption.
    + intros H. inversion H; subst; [left | right]; assumption.
  - split; [constructor | reflexivity].
Qed.

Lemma Matches_Star_cons (r : regex) (c : ascii) (s : list ascii) :
  Matches (Star r) (c :: s) ->
  exists s1 s2, s = s1 ++ s2 /\ Matches r (c :: s1) /\ Matches (Star r) s2.
Proof.
  intros H. remember (Star r) as r' eqn:Er. remember (c :: s) as s' eqn:Es.
  revert s Es.
  induction H as [| | | | | | |r0 s1 s2 H1 _ H2 IH2]; intros t Es;
    try discriminate.
  injection Er as ->. destruct s1 as [|c1 s1].
  - cbn in Es. apply IH2; [reflexivity | exact Es].
  - cbn in Es. injection Es as -> <-. exists s1, s2. auto.
Qed.

Lemma deriv_Matches (r : regex) : forall (c : ascii) (s : list ascii),
  Matches (deriv c r) s <-> Matches r (c :: s).
Proof.
  induction r as [| |c0|lo hi|r1 IH1 r2 IH2|r1 IH1 r2 IH2|r IH];
    intros c s; cbn [deriv].
  - split; intros H; inversion H.
  - split; intros H; inversion H.
  - destruct (Ascii.eqb_spec c c0) as [->|Hne]; split; intros H.
    + inversion H; subst. constructor.
    + inversion H; subst. constructor.
    + inversion H.
    + inversion H; subst. congruence.
  - destruct (in_range lo hi c) eqn:E; split; intros H.
    + inversion H; subst. constructor. exact E.
    + inversion H; subst. constructor.
    + inversion H.
    + inversion H; subst. congruence.
  - assert (Hcat : Matches (Cat (deriv c r1) r2) s ->
                   Matches (Cat r1 r2) (c :: s)).
    { intros H. apply Matches_Cat_inv in H.
      destruct H as (s1 & s2 & -> & H1 & H2).
      apply IH1 in H1. apply (MCat _ _ (c :: s1) s2 H1 H2). }
    assert (Hinv : Matches (Cat r1 r2) (c :: s) ->
                   (exists s1 s2, s = s1 ++ s2 /\ Matches r1 (c :: s1) /\
                                  Matches r2 s2) \/
                   (Matches r1 [] /\ Matches r2 (c :: s))).
    { intros H. apply Matches_Cat_inv in H.
      destruct H as (s1 & s2 & E & H1 & H2).
      destruct s1 as [|c1 s1].
      - right. cbn in E. subst. auto.
      - left. cbn in E. injection E as -> ->. exists s1, s2. auto. }
    destruct (nullable r1) eqn:En; split; intros H.
    + inversion H; subst; [apply Hcat; assumption|].
      apply nullable_Matches in En.
      apply (MCat _ _ [] (c :: s) En). apply IH2. assumption.
    + destruct (Hinv H) as [(s1 & s2 & -> & H1 & H2)|(H1 & H2)].
      * apply MAltL. apply MCat; [apply IH1|]; assumption.
      * apply MAltR. apply IH2. assumption.
    + apply Hcat. assumption.
    + destruct (Hinv H) as [(s1 & s2 & -> & H1 & H2)|(H1 & H2)].
      * apply MCat; [apply IH1|]; assumption.
      * apply nullable_Matches in H1. congruence.
  - split; intros H.
    + inversion H; subst; [apply MAltL; apply IH1 | apply MAltR; apply IH2];
        assumption.
    + inversion H; subst; [apply MAltL; apply IH1 | apply MAltR; apply IH2];
        assumption.
  - split; intros H.
    + apply Matches_Cat_inv in H.
      destruct H as (s1 & s2 & -> & H1 & H2).
      apply IH in H1. apply (MStarS _ (c :: s1) s2 H1 H2).
    + destruct (Matches_Star_cons _ _ _ H) as (s1 & s2 & -> & H1 & H2).
      apply MCat; [apply IH|]; assumption.
Qed.

(** The matcher decides the language. *)
Lemma matches_Matches (s : list ascii) : forall (r : regex),
  matches r s = true <-> Matches r s.
Proof.
  induction s as [|c s IH]; intros r; cbn [matches].
  - apply nullable_Matches.
  - rewrite IH. apply deriv_Matches.
Qed.

Lemma regexec_Matches (r : regex) (s : list ascii) :
  regexec r s = 0 <-> Matches r s.
Proof.
  unfold regexec. rewrite <- matches_Matches.
  destruct (matches r s); unfold REG_NOMATCH; split; intros H;
    try reflexivity; discriminate.
Qed.

(** ** The pattern of [intset_in] and the grammar *)

Ltac splits := repeat match goal with |- _ /\ _ => split end.

Ltac list_norm :=
  repeat (rewrite <- ?app_assoc, <- ?app_comm_cons; cbn [app]).

Lemma Matches_Star_ind (r : regex) (P : list ascii -> Prop) :
  P [] ->
  (forall s1 s2, Matches r s1 -> Matches (Star r) s2 -> P s2 -> P (s1 ++ s2)) ->
  forall s, Matches (Star r) s -> P s.
Proof.
  intros H0 HS s H. remember (Star r) as r' eqn:Er.
  induction H as [| | | | | | |r0 s1 s2 H1 _ H2 IH2]; try discriminate.
  - exact H0.
  - injection Er as ->. apply HS; auto.
Qed.

Lemma spaces_Star (s : list ascii) : spaces s <-> Matches (Star sp) s.
Proof.
  split.
  - induction 1 as [|c s Hc _ IH]; [constructor|]. subst c.
    apply (MStarS sp [" "%char] s); [constructor | exact IH].
  - apply Matches_Star_ind.
    + constructor.
    + intros s1 s2 H1 _ IH. apply Matches_Chr_inv in H1. subst s1.
      constructor; [reflexivity | exact IH].
Qed.

Lemma in_range_digit (c : ascii) :
  in_range "0" "9" c = true <-> 48 <= char_code c <= 57.
Proof.
  unfold in_range. rewrite andb_true_iff, !Z.leb_le.
  change (char_code "0") with 48. change (char_code "9") with 57. tauto.
Qed.

Lemma Matches_digit (s : list ascii) :
  Matches digit s <-> exists c, s = [c] /\ 48 <= char_code c <= 57.
Proof.
  unfold digit. split.
  - intros H. inversion H; subst. eexists. split; [reflexivity|].
    apply in_range_digit. assumption.
  - intros (c & -> & Hc). constructor. apply in_range_digit. exact Hc.
Qed.

Lemma all_digits_Star (s : list ascii) :
  Forall (fun c => 48 <= char_code c <= 57) s <-> Matches (Star digit) s.
Proof.
  split.
  - induction 1 as [|c s Hc _ IH]; [constructor|].
    apply (MStarS digit [c] s); [|exact IH].
    apply Matches_digit. eauto.
  - apply Matches_Star_ind.
    + constructor.
    + intros s1 s2 H1 _ IH. apply Matches_digit in H1.
      destruct H1 as (c & -> & Hc). constructor; assumption.
Qed.

Lemma digits_Plus (s : list ascii) : digits s <-> Matches (Plus digit) s.
Proof.
  unfold digits, Plus. split.
  - intros (Hne & Hall). destruct s as [|c s]; [congruence|].
    inversion Hall as [|? ? Hc Hs]; subst.
    apply (MCat digit (Star digit) [c] s).
    + apply Matches_digit. eauto.
    + apply all_digits_Star. exact Hs.
  - intros H. apply Matches_Cat_inv in H.
    destruct H as (s1 & s2 & -> & H1 & H2).
    apply Matches_digit in H1. destruct H1 as (c & -> & Hc).
    split; [discriminate|]. constructor; [exact Hc|].
    apply all_digits_Star. exact H2.
Qed.

Lemma spaces_app (s1 s2 : list ascii) :
  spaces s1 -> spaces s2 -> spaces (s1 ++ s2).
Proof. intros H1 H2. apply Forall_app. split; assumption. Qed.

Lemma Matches_item (x : list ascii) :
  Matches item_regex x <->
  exists p d s1 s2, spaces p /\ digits d /\ spaces s1 /\ spaces s2 /\
                    x = p ++ d ++ s1 ++ ","%char :: s2.
Proof.
  unfold item_regex. split.
  - intros H.
    apply Matches_Cat_inv in H. destruct H as (p & x1 & -> & Hp & H).
    apply Matches_Cat_inv in H. destruct H as (d & x2 & -> & Hd & H).
    apply Matches_Cat_inv in H. destruct H as (s1 & x3 & -> & Hs1 & H).
    apply Matches_Cat_inv in H. destruct H as (cm & s2 & -> & Hc & Hs2).
    apply Matches_Chr_inv in Hc. subst cm.
    exists p, d, s1, s2.
    rewrite <- !spaces_Star in *. rewrite <- digits_Plus in Hd.
    splits; try assumption; reflexivity.
  - intros (p & d & s1 & s2 & Hp & Hd & Hs1 & Hs2 & ->).
    rewrite spaces_Star in Hp, Hs1, Hs2. rewrite digits_Plus in Hd.
    repeat apply MCat; try assumption.
    apply (MCat (Chr ",") (Star sp) [","%char] s2); [constructor | assumption].
Qed.

Lemma Matches_last (x : list ascii) :
  Matches last_regex x <->
  exists p d s1, spaces p /\ digits d /\ spaces s1 /\ x = p ++ d ++ s1.
Proof.
  unfold last_regex. split.
  - intros H.
    apply Matches_Cat_inv in H. destruct H as (p & x1 & -> & Hp & H).
    apply Matches_Cat_inv in H. destruct H as (d & s1 & -> & Hd & Hs1).
    exists p, d, s1.
    rewrite <- !spaces_Star in *. rewrite <- digits_Plus in Hd.
    splits; try assumption; reflexivity.
  - intros (p & d & s1 & Hp & Hd & Hs1 & ->).
    rewrite spaces_Star in Hp, Hs1. rewrite digits_Plus in Hd.
    repeat apply MCat; assumption.
Qed.

Lemma items_Star (its : list ascii) :
  items its -> Matches (Star item_regex) its.
Proof.
  induction 1 as [|d s1 s2 rest Hd Hs1 Hs2 _ IH]; [constructor|].
  replace (d ++ s1 ++ ","%char :: s2 ++ rest)
    with (([] ++ d ++ s1 ++ ","%char :: s2) ++ rest) by (list_norm; reflexivity).
  apply MStarS; [|exact IH].
  apply Matches_item. exists [], d, s1, s2.
  splits; try assumption; try reflexivity. constructor.
Qed.

Lemma items_app_spaces (its q : list ascii) :
  items its -> its <> [] -> spaces q -> items (its ++ q).
Proof.
  intros H. induction H as [|d s1 s2 rest Hd Hs1 Hs2 Hrest IH];
    intros Hne Hq; [congruence|].
  destruct rest as [|c rest].
  - replace ((d ++ s1 ++ ","%char :: s2 ++ []) ++ q)
      with (d ++ s1 ++ ","%char :: (s2 ++ q) ++ [])
      by (list_norm; rewrite ?app_nil_r; reflexivity).
    apply items_cons; try assumption. apply spaces_app; assumption.
  - replace ((d ++ s1 ++ ","%char :: s2 ++ c :: rest) ++ q)
      with (d ++ s1 ++ ","%char :: s2 ++ ((c :: rest) ++ q))
      by (list_norm; reflexivity).
    apply items_cons; try assumption. apply IH; [discriminate | assumption].
Qed.

(** What the starred group of the pattern matches: items of the
    grammar after leading spaces. *)
Lemma Star_items (s : list ascii) :
  Matches (Star item_regex) s ->
  exists p its, spaces p /\ items its /\ s = p ++ its.
Proof.
  revert s.
  apply (Matches_Star_ind item_regex
           (fun s => exists p its, spaces p /\ items its /\ s = p ++ its)).
  - exists [], []. splits; constructor.
  - intros x s2 Hx _ (p2 & its2 & Hp2 & Hits2 & ->).
    apply Matches_item in Hx.
    destruct Hx as (p & d & s1 & sb & Hp & Hd & Hs1 & Hsb & ->).
    exists p, (d ++ s1 ++ ","%char :: (sb ++ p2) ++ its2).
    split; [assumption|]. split.
    + apply items_cons; try assumption. apply spaces_app; assumption.
    + list_norm. reflexivity.
Qed.

Lemma grammar_Matches (text : list ascii) :
  grammar text <-> Matches intset_regex text.
Proof.
  unfold grammar, intset_regex. split.
  - intros (s1 & s2 & body & s3 & Hs1 & Hs2 & Hbody & Hs3 & ->).
    rewrite spaces_Star in Hs1, Hs2, Hs3.
    apply MCat; [assumption|].
    apply (MCat (Chr "{") _ ["{"%char]); [constructor|].
    apply MCat; [assumption|].
    apply MCat.
    + destruct Hbody as [->|(its & d & s4 & Hits & Hd & Hs4 & ->)].
      * apply MAltR. constructor.
      * apply MAltL. apply MCat; [apply items_Star; assumption|].
        apply Matches_last. exists [], d, s4.
        splits; try assumption; try reflexivity. constructor.
    + apply (MCat (Star sp) _ []); [constructor|].
      apply (MCat (Chr "}") _ ["}"%char]); [constructor | assumption].
  - intros H.
    apply Matches_Cat_inv in H. destruct H as (s1 & x1 & -> & Hs1 & H).
    apply Matches_Cat_inv in H. destruct H as (ob & x2 & -> & Hob & H).
    apply Matches_Chr_inv in Hob. subst ob.
    apply Matches_Cat_inv in H. destruct H as (s2 & x3 & -> & Hs2 & H).
    apply Matches_Cat_inv in H. destruct H as (body & x4 & -> & Hbody & H).
    apply Matches_Cat_inv in H. destruct H as (s5 & x5 & -> & Hs5 & H).
    apply Matches_Cat_inv in H. destruct H as (cb & s3 & -> & Hcb & Hs3).
    apply Matches_Chr_inv in Hcb. subst cb.
    rewrite <- spaces_Star in Hs1, Hs2, Hs3, Hs5.
    apply Matches_Alt_inv in Hbody. destruct Hbody as [Hbody|Hbody].
    + apply Matches_Cat_inv in Hbody.
      destruct Hbody as (y1 & y2 & -> & Hy1 & Hy2).
      apply Star_items in Hy1. destruct Hy1 as (p & its & Hp & Hits & ->).
      apply Matches_last in Hy2.
      destruct Hy2 as (p' & d & s4 & Hp' & Hd & Hs4 & ->).
      destruct its as [|c its].
      * exists s1, (s2 ++ p ++ p'), (d ++ s4 ++ s5), s3.
        split; [assumption|].
        split; [repeat apply spaces_app; assumption|].
        split; [|split; [assumption | list_norm; reflexivity]].
        right. exists [], d, (s4 ++ s5).
        splits; try assumption; try reflexivity;
          try apply spaces_app; try assumption.
      * exists s1, (s2 ++ p), (((c :: its) ++ p') ++ d ++ s4 ++ s5), s3.
        split; [assumption|].
        split; [apply spaces_app; assumption|].
        split; [|split; [assumption | list_norm; reflexivity]].
        right. exists ((c :: its) ++ p'), d, (s4 ++ s5).
        split; [apply items_app_spaces; [assumption | discriminate | assumption]|].
        split; [assumption|]. split; [apply spaces_app; assumption|].
        reflexivity.
    + inversion Hbody; subst.
      exists s1, (s2 ++ s5), [], s3.
      split; [assumption|]. split; [apply spaces_app; assumption|].
      split; [left; reflexivity|]. split; [assumption|].
      list_norm. reflexivity.
Qed.

(** ** Parsing *)

Lemma last_app_cons (A : Type) (l1 l2 : list A) (c d : A) :
  last (l1 ++ c :: l2) d = last (c :: l2) d.
Proof.
  induction l1 as [|a l1 IH]; [reflexivity|].
  cbn [app]. rewrite <- IH. cbn [last].
  destruct (l1 ++ c :: l2) eqn:E; [|reflexivity].
  destruct l1; discriminate.
Qed.

Lemma last_spaces (c : ascii) (s : list ascii) :
  spaces s -> last (c :: s) " "%char = c \/ last (c :: s) " "%char = " "%char.
Proof.
  revert c. induction s as [|c' s IH]; intros c Hs; [left; reflexivity|].
  inversion Hs as [|? ? Hc Hs']; subst. right.
  change (last (" "%char :: " "%char :: s) " "%char)
    with (last (" "%char :: s) " "%char).
  destruct (IH " "%char Hs'); assumption.
Qed.

(** A text of the grammar ends outside a digit run. *)
Lemma grammar_last (text : list ascii) :
  grammar text -> text <> [] /\ is_digit (last text " "%char) = false.
Proof.
  intros (s1 & s2 & body & s3 & Hs1 & Hs2 & Hbody & Hs3 & ->). split.
  - destruct s1; discriminate.
  - replace (s1 ++ "{"%char :: s2 ++ body ++ "}"%char :: s3)
      with ((s1 ++ "{"%char :: s2 ++ body) ++ "}"%char :: s3)
      by (list_norm; reflexivity).
    rewrite last_app_cons.
    destruct (last_spaces "}"%char s3 Hs3) as [-> | ->]; reflexivity.
Qed.

Lemma scan_char_digit (c : ascii) (st : scan_state) :
  is_digit c = true ->
  scan_char c st = Ok (mkScan (tempNums st) (accumulate (curr_num st) c) true).
Proof. intros H. unfold scan_char. rewrite H. reflexivity. Qed.

Lemma accumulate_run (run : list ascii) :
  Forall (fun c => is_digit c = true) run ->
  fold_left accumulate run 0 = run_value run.
Proof.
  intros H. unfold run_value, decimal_value.
  assert (G : forall D, fold_left accumulate run (u32 D)
              = u32 (fold_left (fun acc c => acc * 10 + digit_value c) run D)).
  { induction H as [|c run Hc _ IH]; intros D; [reflexivity|].
    cbn [fold_left]. rewrite <- IH. f_equal. unfold accumulate.
    rewrite (digit_char_val c Hc). apply accumulate_u32. }
  apply (G 0).
Qed.

Lemma digit_runs_from_digits (s : list ascii) : forall (cur run : list ascii),
  Forall (fun c => is_digit c = true) cur ->
  In run (digit_runs_from cur s) ->
  Forall (fun c => is_digit c = true) run.
Proof.
  induction s as [|c s IH]; intros cur run Hcur Hin; cbn [digit_runs_from] in Hin.
  - destruct cur as [|c0 cur]; [destruct Hin|].
    destruct Hin as [<-|[]]. apply Forall_rev. exact Hcur.
  - destruct (is_digit c) eqn:Ec.
    + apply (IH (c :: cur)); [constructor|]; assumption.
    + destruct cur as [|c0 cur].
      * apply (IH []); [constructor | assumption].
      * destruct Hin as [<-|Hin]; [apply Forall_rev; exact Hcur|].
        apply (IH []); [constructor | assumption].
Qed.

(** On a text of the grammar, [intset_in] returns the in-order traversal
    of a construction tree that holds the values of the digit runs. *)
Lemma intset_in_runs (text : list ascii) :
  grammar text -> Z.of_nat (length (digit_runs text)) < 2 ^ 30 - 1 ->
  exists t, intset_in text = Ok (inorder t) /\ tree_inv t /\
    (length (inorder t) <= length (digit_runs text))%nat /\
    (forall x, In x (inorder t) <-> In x (map run_value (digit_runs text))).
Proof.
  intros Hg Hlen. unfold intset_in.
  assert (Hm : regexec intset_regex text = 0)
    by (apply regexec_Matches, grammar_Matches; exact Hg).
  rewrite Hm. cbn [Z.eqb negb].
  change (for_upto (strlen text) _ (mkScan NULL 0 false))
    with (for_upto (Z.of_nat (length text))
            (fun i st => c <- load text i ;; scan_step c st)
            (mkScan NULL 0 false)).
  rewrite for_upto_iterate.
  destruct (scan_runs text [] (mkScan NULL 0 false))
    as (st' & Hit & Hinv & Hsz & Hin).
  { split; [apply tree_inv_NULL|]. split; reflexivity. }
  rewrite Hit. cbn [bind].
  pose proof (scan_flag text _ _ Hit) as Hf.
  destruct (grammar_last text Hg) as (Hne & Hlast).
  assert (Hf' : flag st' = false)
    by (destruct text; [congruence | exact (Hf Hlast)]).
  cbn [tempNums inorder length Nat.add] in Hsz. fold (digit_runs text) in Hsz.
  exists (tempNums st'). split; [|split; [exact Hinv|split; [exact Hsz|]]].
  - apply tree_to_intSet_inorder. lia.
  - intros x. unfold digit_runs. specialize (Hin x).
    cbn [tempNums inorder In] in Hin. rewrite Hf' in Hin.
    intuition congruence.
Qed.

Lemma intset_in_spec (text : list ascii) :
  grammar text -> strlen text < 2 ^ 30 - 1 ->
  exists t, intset_in text = Ok (inorder t) /\ tree_inv t /\
    Z.of_nat (length (inorder t)) <= strlen text /\
    (forall x, In x (inorder t) <-> In x (map run_value (digit_runs text))).
Proof.
  intros Hg Hlen.
  pose proof (digit_runs_from_length text []) as Hr.
  fold (digit_runs text) in Hr. unfold strlen in *.
  destruct (intset_in_runs text Hg) as (t & Ht & Hinv & Hsz & Hin); [lia|].
  exists t. split; [exact Ht|]. split; [exact Hinv|]. split; [lia | exact Hin].
Qed.

Lemma intset_in_invalid (text : list ascii) :
  ~ grammar text -> intset_in text = Err (InvalidSyntax text).
Proof.
  intros Hg. unfold intset_in.
  destruct (Z.eqb_spec (regexec intset_regex text) 0) as [E|E]; [|reflexivity].
  exfalso. apply Hg. apply grammar_Matches, regexec_Matches. exact E.
Qed.

Lemma wf_cstring_bound (text : list ascii) :
  wf_cstring text -> strlen text < 2 ^ 30 - 1.
Proof.
  unfold wf_cstring, MaxAllocSize. change (2 ^ 30 - 1) with 1073741823.
  intros (_ & H). exact H.
Qed.

Lemma grammar_dec (text : list ascii) : {grammar text} + {~ grammar text}.
Proof.
  destruct (matches intset_regex text) eqn:E.
  - left. apply grammar_Matches, matches_Matches. exact E.
  - right. intros H. apply grammar_Matches, matches_Matches in H. congruence.
Qed.

Lemma tree_inv_canonical (t : TreeNode) :
  tree_inv t -> Z.of_nat (length (inorder t)) < 2 ^ 30 - 1 ->
  canonical (inorder t).
Proof.
  intros Hinv Hlen.
  apply (tree_to_intSet_canonical t (inorder t) Hinv Hlen).
  apply tree_to_intSet_inorder. exact Hlen.
Qed.

Lemma intset_in_canonical (text : list ascii) (v : intSet) :
  wf_cstring text -> intset_in text = Ok v -> canonical v.
Proof.
  intros Hwf Hv. pose proof (wf_cstring_bound text Hwf) as Hlen.
  destruct (grammar_dec text) as [Hg|Hg].
  - destruct (intset_in_spec text Hg Hlen) as (t & Ht & Hinv & Hsz & _).
    rewrite Ht in Hv. injection Hv as <-.
    apply tree_inv_canonical; [exact Hinv | lia].
  - rewrite (intset_in_invalid text Hg) in Hv. discriminate.
Qed.

(** ** Decimal conversion *)

Lemma utoa_aux_app (fuel : nat) : forall (x : Z) (acc : list ascii),
  utoa_aux fuel x acc = utoa_aux fuel x [] ++ acc.
Proof.
  induction fuel as [|fuel IH]; intros x acc; cbn [utoa_aux]; [reflexivity|].
  destruct (x / 10 =? 0); [reflexivity|].
  rewrite (IH _ (_ :: acc)), (IH _ [_]), <- app_assoc. reflexivity.
Qed.

Lemma log2_div10 (x : Z) : 10 <= x -> Z.log2 (x / 10) < Z.log2 x.
Proof.
  intros H.
  assert (H1 : 0 < x / 10) by (Z.to_euclidean_division_equations; lia).
  assert (H2 : 2 * (x / 10) <= x) by (Z.to_euclidean_division_equations; lia).
  apply Z.log2_le_mono in H2. rewrite Z.log2_double in H2 by exact H1. lia.
Qed.

Lemma utoa_aux_fuel (f1 : nat) : forall (f2 : nat) (x : Z),
  0 <= x -> Z.log2 x < Z.of_nat f1 -> Z.log2 x < Z.of_nat f2 ->
  utoa_aux f1 x [] = utoa_aux f2 x [].
Proof.
  induction f1 as [|f1 IH]; intros f2 x H0 H1 H2.
  - pose proof (Z.log2_nonneg x). lia.
  - destruct f2 as [|f2]; [pose proof (Z.log2_nonneg x); lia|].
    cbn [utoa_aux]. destruct (Z.eqb_spec (x / 10) 0) as [E|E]; [reflexivity|].
    rewrite (utoa_aux_app f1), (utoa_aux_app f2). f_equal.
    assert (Hx : 10 <= x) by (Z.to_euclidean_division_equations; lia).
    pose proof (log2_div10 x Hx).
    apply IH; [Z.to_euclidean_division_equations|..]; lia.
Qed.

Lemma utoa_small (x : Z) : 0 <= x < 10 -> utoa x = [digit_char x].
Proof.
  intros H. unfold utoa. cbn [utoa_aux].
  replace (x / 10) with 0 by (Z.to_euclidean_division_equations; lia).
  replace (x mod 10) with x by (Z.to_euclidean_division_equations; lia).
  reflexivity.
Qed.

Lemma utoa_step (x : Z) :
  10 <= x -> utoa x = utoa (x / 10) ++ [digit_char (x mod 10)].
Proof.
  intros H. unfold utoa.
  set (f := S (Z.to_nat (Z.log2 (x / 10)))). cbn [utoa_aux].
  destruct (Z.eqb_spec (x / 10) 0) as [E|E];
    [exfalso; Z.to_euclidean_division_equations; lia|].
  rewrite utoa_aux_app. f_equal.
  pose proof (log2_div10 x H). pose proof (Z.log2_nonneg (x / 10)).
  subst f.
  apply utoa_aux_fuel; [Z.to_euclidean_division_equations; lia|..];
    rewrite ?Nat2Z.inj_succ, ?Z2Nat.id; lia.
Qed.

(** Induction along the decimal digits of a number. *)
Lemma div10_ind (P : Z -> Prop) :
  (forall x, 0 <= x < 10 -> P x) ->
  (forall x, 10 <= x -> P (x / 10) -> P x) ->
  forall x, 0 <= x -> P x.
Proof.
  intros Hs Hd x Hx.
  assert (G : 0 <= x -> P x); [|exact (G Hx)].
  pattern x. apply Z_lt_induction; [|exact Hx].
  clear x Hx. intros x IH Hx.
  destruct (Z_lt_le_dec x 10) as [H|H]; [apply Hs; lia|].
  apply Hd; [exact H|].
  apply IH; Z.to_euclidean_division_equations; lia.
Qed.

Lemma digit_char_code (d : Z) :
  0 <= d <= 9 -> char_code (digit_char d) = 48 + d.
Proof.
  intros H.
  assert (E : d = 0 \/ d = 1 \/ d = 2 \/ d = 3 \/ d = 4 \/
              d = 5 \/ d = 6 \/ d = 7 \/ d = 8 \/ d = 9) by lia.
  repeat (destruct E as [->|E]; [reflexivity|]). subst d. reflexivity.
Qed.

Lemma digit_char_is_digit (d : Z) :
  0 <= d <= 9 -> is_digit (digit_char d) = true.
Proof.
  intros H. apply is_digit_code. rewrite digit_char_code by exact H. lia.
Qed.

Lemma digit_char_value (d : Z) :
  0 <= d <= 9 -> digit_value (digit_char d) = d.
Proof.
  intros H. unfold digit_value. rewrite digit_char_code by exact H.
  change (char_code "0") with 48. lia.
Qed.

Lemma utoa_digits (x : Z) :
  0 <= x -> Forall (fun c => is_digit c = true) (utoa x).
Proof.
  revert x. apply div10_ind.
  - intros x H. rewrite utoa_small by exact H.
    constructor; [apply digit_char_is_digit; lia | constructor].
  - intros x H IH. rewrite utoa_step by exact H.
    apply Forall_app. split; [exact IH|].
    constructor; [|constructor].
    apply digit_char_is_digit. Z.to_euclidean_division_equations; lia.
Qed.

Lemma utoa_nonempty (x : Z) : 0 <= x -> utoa x <> [].
Proof.
  intros H. destruct (Z_lt_le_dec x 10) as [Hx|Hx].
  - rewrite utoa_small by lia. discriminate.
  - rewrite utoa_step by exact Hx. intros E.
    apply app_eq_nil in E. destruct E; discriminate.
Qed.

(** Reading back what [%u] prints. *)
Lemma decimal_value_utoa (x : Z) : 0 <= x -> decimal_value (utoa x) = x.
Proof.
  revert x. apply div10_ind.
  - intros x H. rewrite utoa_small by exact H. unfold decimal_value.
    cbn [fold_left]. rewrite digit_char_value by lia. lia.
  - intros x H IH. rewrite utoa_step by exact H.
    rewrite decimal_value_snoc, IH.
    rewrite digit_char_value by (Z.to_euclidean_division_equations; lia).
    Z.to_euclidean_division_equations; lia.
Qed.

Lemma utoa_length (k : nat) : forall (x : Z),
  10 ^ Z.of_nat k <= x < 10 ^ Z.of_nat (S k) ->
  length (utoa x) = S k.
Proof.
  induction k as [|k IH]; intros x H.
  - change (10 ^ Z.of_nat 0) with 1 in H. change (10 ^ Z.of_nat 1) with 10 in H.
    rewrite utoa_small by lia. reflexivity.
  - rewrite !Nat2Z.inj_succ in H. rewrite !Z.pow_succ_r in H by lia.
    assert (Hp : 0 < 10 ^ Z.of_nat k) by (apply Z.pow_pos_nonneg; lia).
    rewrite utoa_step by lia. rewrite length_app. cbn [length].
    rewrite IH; [lia|].
    rewrite Nat2Z.inj_succ, Z.pow_succ_r by lia.
    split.
    + apply Z.div_le_lower_bound; lia.
    + apply Z.div_lt_upper_bound; lia.
Qed.

Lemma digit_count_length (x : Z) :
  is_u32 x -> Z.of_nat (length (utoa x)) = digit_count x /\
              1 <= digit_count x <= 10.
Proof.
  unfold is_u32, digit_count. change (2 ^ 32) with 4294967296. intros H.
  destruct (Z.eqb_spec x 0) as [->|Hx]; cbn [negb]; [split; [reflexivity|lia]|].
  unfold log10_trunc.
  repeat match goal with
         | |- context [?a <? ?b] =>
             destruct (Z.ltb_spec a b);
             [ first
                 [ rewrite (utoa_length 0) by (cbn; lia)
                 | rewrite (utoa_length 1) by (cbn; lia)
                 | rewrite (utoa_length 2) by (cbn; lia)
                 | rewrite (utoa_length 3) by (cbn; lia)
                 | rewrite (utoa_length 4) by (cbn; lia)
                 | rewrite (utoa_length 5) by (cbn; lia)
                 | rewrite (utoa_length 6) by (cbn; lia)
                 | rewrite (utoa_length 7) by (cbn; lia)
                 | rewrite (utoa_length 8) by (cbn; lia) ];
               split; [reflexivity | lia]
             | ]
         end.
  rewrite (utoa_length 9) by (cbn; lia). split; [reflexivity | lia].
Qed.

(** ** Rendering *)

Lemma all_digits_length (v : list Z) :
  Forall is_u32 v ->
  Z.of_nat (length v) <= Z.of_nat (length (all_digits v))
    <= 10 * Z.of_nat (length v).
Proof.
  unfold all_digits.
  induction 1 as [|x v Hx _ IH]; cbn [map concat length]; [lia|].
  rewrite length_app. destruct (digit_count_length x Hx) as (E & Hr). lia.
Qed.

Lemma with_commas_length (v : list Z) :
  length (with_commas v) = (length (all_digits v) + length v)%nat.
Proof.
  unfold with_commas, all_digits.
  induction v as [|x v IH]; cbn [map concat length]; [reflexivity|].
  rewrite !length_app, IH. cbn [length]. lia.
Qed.

Lemma with_commas_members (v : list Z) :
  v <> [] -> with_commas v = render_members v ++ [","%char].
Proof.
  unfold with_commas.
  induction v as [|x v IH]; intros Hne; [congruence|].
  cbn [map concat render_members]. destruct v as [|y v].
  - cbn [map concat]. rewrite app_nil_r. reflexivity.
  - rewrite IH by discriminate. list_norm. reflexivity.
Qed.

(** The first loop: the digits are counted. *)
Lemma count_chars_total (v : list Z) : forall (res_len : Z),
  Forall is_u32 v -> 0 <= res_len ->
  res_len + 10 * Z.of_nat (length v) < 2 ^ 32 ->
  iterate count_chars v res_len
  = Ok (res_len + Z.of_nat (length (all_digits v))).
Proof.
  unfold all_digits. change (2 ^ 32) with 4294967296.
  induction v as [|x v IH]; intros res_len Hu H0 Hmax.
  - cbn. f_equal. lia.
  - inversion Hu as [|? ? Hx Hu']; subst.
    cbn [length] in Hmax. rewrite Nat2Z.inj_succ in Hmax.
    destruct (digit_count_length x Hx) as (E & Hr).
    cbn [iterate map concat]. rewrite length_app.
    assert (Hstep : count_chars x res_len = Ok (Next (res_len + digit_count x))).
    { unfold count_chars, digit_count in *.
      destruct (negb (x =? 0)).
      - rewrite (u32_small (log10_trunc x + 1))
          by (change (2 ^ 32) with 4294967296; lia).
        rewrite u32_small by (change (2 ^ 32) with 4294967296; lia).
        reflexivity.
      - rewrite u32_small by (change (2 ^ 32) with 4294967296; lia).
        reflexivity. }
    rewrite Hstep. cbn [bind]. rewrite IH by (try assumption; lia).
    f_equal. lia.
Qed.

Lemma firstn_exact (A : Type) (l1 l2 : list A) :
  firstn (length l1) (l1 ++ l2) = l1.
Proof.
  rewrite firstn_app, Nat.sub_diag, firstn_all. cbn. apply app_nil_r.
Qed.

Lemma skipn_exact (A : Type) (l1 l2 : list A) :
  skipn (length l1) (l1 ++ l2) = l2.
Proof.
  rewrite skipn_app, Nat.sub_diag, skipn_all. reflexivity.
Qed.

(** [memcpy] into the unwritten tail of a buffer. *)
Lemma memcpy_tail (pre body rest : list ascii) (k : nat) :
  (length body <= k)%nat ->
  memcpy (pre ++ repeat zero k) (Z.of_nat (length pre)) (body ++ rest)
    (Z.of_nat (length body))
  = Ok (pre ++ body ++ repeat zero (k - length body)).
Proof.
  intros Hk. unfold memcpy.
  replace (0 <=? Z.of_nat (length pre)) with true
    by (symmetry; apply Z.leb_le; lia).
  replace (Z.of_nat (length pre) + Z.of_nat (length body)
             <=? Z.of_nat (length (pre ++ repeat zero k))) with true
    by (symmetry; apply Z.leb_le; rewrite length_app, repeat_length; lia).
  replace (Z.of_nat (length body) <=? Z.of_nat (length (body ++ rest))) with true
    by (symmetry; apply Z.leb_le; rewrite length_app; lia).
  cbn [andb]. rewrite !Nat2Z.id. rewrite firstn_exact, firstn_exact.
  replace (Z.to_nat (Z.of_nat (length pre) + Z.of_nat (length body)))
    with (length pre + length body)%nat by lia.
  rewrite skipn_app, skipn_all2 by lia.
  replace (length pre + length body - length pre)%nat with (length body) by lia.
  cbn [app].
  replace k with (length body + (k - length body))%nat at 1 by lia.
  rewrite repeat_app.
  rewrite <- (repeat_length zero (length body)) at 1.
  rewrite skipn_exact. reflexivity.
Qed.

(** The second loop: each number is copied with its comma. *)
Lemma copy_number_all (v : list Z) : forall (pre : list ascii) (k : nat),
  Forall is_u32 v ->
  (length (with_commas v) <= k)%nat ->
  Z.of_nat (length pre) + Z.of_nat k < 2 ^ 32 ->
  iterate copy_number v (pre ++ repeat zero k, Z.of_nat (length pre))
  = Ok (pre ++ with_commas v ++ repeat zero (k - length (with_commas v)),
        Z.of_nat (length pre + length (with_commas v))).
Proof.
  unfold with_commas. change (2 ^ 32) with 4294967296.
  induction v as [|x v IH]; intros pre k Hu Hk Hmax.
  - cbn. rewrite Nat.sub_0_r, Nat.add_0_r. reflexivity.
  - inversion Hu as [|? ? Hx Hu']; subst.
    cbn [map concat] in *. rewrite length_app in Hk.
    destruct (digit_count_length x Hx) as (E & Hr).
    set (body := utoa x ++ [","%char]) in *.
    assert (Hb : Z.of_nat (length body) = digit_count x + 1)
      by (subst body; rewrite length_app; cbn [length]; lia).
    cbn [iterate]. unfold copy_number at 1.
    assert (Hcl : (if negb (x =? 0) then u32 (log10_trunc x + 2) else 2)
                  = Z.of_nat (length body)).
    { rewrite Hb. unfold digit_count in *. destruct (negb (x =? 0)); [|lia].
      rewrite u32_small by (change (2 ^ 32) with 4294967296; lia). lia. }
    rewrite Hcl.
    replace (psprintf_u_comma x) with (body ++ [zero])
      by (unfold psprintf_u_comma; subst body; list_norm; reflexivity).
    rewrite memcpy_tail by lia. cbn [bind].
    rewrite u32_small by (change (2 ^ 32) with 4294967296; lia).
    replace (pre ++ body ++ repeat zero (k - length body))
      with ((pre ++ body) ++ repeat zero (k - length body))
      by (list_norm; reflexivity).
    replace (Z.of_nat (length pre) + Z.of_nat (length body))
      with (Z.of_nat (length (pre ++ body)))
      by (rewrite length_app; lia).
    rewrite IH; [|assumption|lia|rewrite length_app; lia].
    f_equal. f_equal.
    + list_norm. f_equal. f_equal. f_equal. rewrite length_app. f_equal. lia.
    + rewrite !length_app. f_equal. lia.
Qed.

Lemma cstring_app (s rest : list ascii) :
  Forall (fun c => c <> zero) s -> cstring (s ++ zero :: rest) = s.
Proof.
  induction 1 as [|c s Hc _ IH]; cbn [app cstring].
  - reflexivity.
  - destruct (Ascii.eqb_spec c zero) as [E|E]; [contradiction|].
    rewrite IH. reflexivity.
Qed.

Lemma is_digit_not_nul (c : ascii) : is_digit c = true -> c <> zero.
Proof. intros H E. subst c. discriminate. Qed.

Lemma render_members_no_nul (v : list Z) :
  Forall is_u32 v -> Forall (fun c => c <> zero) (render_members v).
Proof.
  induction 1 as [|x v Hx Hv IH]; cbn [render_members]; [constructor|].
  assert (Hd : Forall (fun c => c <> zero) (utoa x)).
  { eapply Forall_impl; [|apply utoa_digits; apply Hx].
    intros c. apply is_digit_not_nul. }
  destruct v as [|y v]; [exact Hd|].
  apply Forall_app. split; [exact Hd|].
  constructor; [discriminate | exact IH].
Qed.

Lemma render_no_nul (v : list Z) :
  Forall is_u32 v -> Forall (fun c => c <> zero) (render v).
Proof.
  intros H. unfold render. constructor; [discriminate|].
  apply Forall_app. split; [apply render_members_no_nul; exact H|].
  constructor; [discriminate | constructor].
Qed.

(** [intset_out] returns the textual form, for every well-formed value. *)
Lemma intset_out_render (v : intSet) :
  wf_intSet v -> intset_out v = Ok (render v).
Proof.
  intros Hwf. destruct (wf_size v Hwf) as (Hsz & Hbound).
  destruct Hwf as (_ & Hu & _).
  change (2 ^ 28) with 268435456 in Hbound.
  unfold intset_out, VARDATA_ANY. rewrite Hsz.
  destruct v as [|x0 v0]; [reflexivity|].
  set (v := x0 :: v0) in *.
  assert (Hne : v <> []) by discriminate.
  replace (Z.of_nat (length v) =? 0) with false
    by (symmetry; apply Z.eqb_neq; subst v; cbn [length]; lia).
  rewrite for_upto_iterate.
  pose proof (all_digits_length v Hu) as Hd.
  rewrite count_chars_total
    by (try assumption; change (2 ^ 32) with 4294967296; lia).
  cbn [bind]. rewrite Z.add_0_l.
  rewrite (u32_small (Z.of_nat (length v) + 2))
    by (change (2 ^ 32) with 4294967296; lia).
  rewrite u32_small by (change (2 ^ 32) with 4294967296; lia).
  set (n := length (with_commas v)).
  assert (Hn : n = (length (all_digits v) + length v)%nat)
    by apply with_commas_length.
  replace (palloc_chars (Z.of_nat (length (all_digits v))
                         + (Z.of_nat (length v) + 2)))
    with ([] ++ zero :: repeat zero (S n)).
  2:{ unfold palloc_chars.
      replace (Z.to_nat (Z.of_nat (length (all_digits v))
                         + (Z.of_nat (length v) + 2)))
        with (S (S n)) by lia.
      reflexivity. }
  assert (Hst : store ([] ++ zero :: repeat zero (S n)) 0 "{"%char
                = Ok ("{"%char :: repeat zero (S n))) by reflexivity.
  rewrite Hst. cbn [bind].
  rewrite for_upto_iterate.
  pose proof (copy_number_all v ["{"%char] (S n) Hu) as Hcopy.
  cbn [app length] in Hcopy. change (Z.of_nat 1) with 1 in Hcopy.
  rewrite Hcopy
    by (fold n; change (2 ^ 32) with 4294967296; lia).
  cbn [bind]. fold n.
  replace (S n - n)%nat with 1%nat by lia.
  rewrite (with_commas_members v Hne).
  assert (Hlen : length (render_members v) = (n - 1)%nat).
  { subst n. rewrite (with_commas_members v Hne), length_app. cbn [length]. lia. }
  assert (Hn1 : (1 <= n)%nat) by (subst v; cbn [length] in *; lia).
  replace (u32 (Z.of_nat (length (all_digits v)) + (Z.of_nat (length v) + 2) - 2))
    with (Z.of_nat (length ("{"%char :: render_members v))).
  2:{ cbn [length]. rewrite Hlen.
      rewrite u32_small by (change (2 ^ 32) with 4294967296; lia). lia. }
  replace ("{"%char :: (render_members v ++ [","%char]) ++ repeat zero 1)
    with (("{"%char :: render_members v) ++ ","%char :: [zero])
    by (list_norm; reflexivity).
  rewrite store_app. cbn [bind].
  replace (u32 (Z.of_nat (length (all_digits v)) + (Z.of_nat (length v) + 2) - 1))
    with (Z.of_nat (length (("{"%char :: render_members v) ++ ["}"%char]))).
  2:{ rewrite length_app. cbn [length]. rewrite Hlen.
      rewrite u32_small by (change (2 ^ 32) with 4294967296; lia). lia. }
  replace (("{"%char :: render_members v) ++ ["}"%char; zero])
    with ((("{"%char :: render_members v) ++ ["}"%char]) ++ zero :: [])
    by (list_norm; reflexivity).
  rewrite store_app. cbn [bind]. f_equal.
  apply (cstring_app (render v) []). apply render_no_nul. exact Hu.
Qed.

(** ** The textual form belongs to the grammar *)

Lemma utoa_grammar_digits (x : Z) : 0 <= x -> digits (utoa x).
Proof.
  intros H. split; [apply utoa_nonempty; exact H|].
  eapply Forall_impl; [|apply utoa_digits; exact H].
  intros c. apply is_digit_code.
Qed.

Lemma render_members_grammar (v : list Z) :
  Forall is_u32 v -> v <> [] -> members (render_members v).
Proof.
  induction 1 as [|x v Hx Hv IH]; intros Hne; [congruence|].
  cbn [render_members]. destruct v as [|y v].
  - exists [], (utoa x), [].
    split; [constructor|]. split; [apply utoa_grammar_digits, Hx|].
    split; [constructor|]. cbn [app]. rewrite app_nil_r. reflexivity.
  - destruct (IH ltac:(discriminate)) as (its & d & s1 & Hits & Hd & Hs1 & E).
    rewrite E.
    exists (utoa x ++ [] ++ ","%char :: [] ++ its), d, s1.
    split; [|split; [assumption|split; [assumption|list_norm; reflexivity]]].
    apply items_cons; [apply utoa_grammar_digits, Hx|constructor|constructor|].
    assumption.
Qed.

Lemma render_grammar (v : list Z) : Forall is_u32 v -> grammar (render v).
Proof.
  intros Hu. unfold render. exists [], [], (render_members v), [].
  split; [constructor|]. split; [constructor|].
  split; [|split; [constructor | reflexivity]].
  destruct v as [|x v]; [left; reflexivity | right].
  apply render_members_grammar; [exact Hu | discriminate].
Qed.

(** ** The digit runs of the textual form *)

Lemma digit_runs_from_app (run : list ascii) : forall (cur s : list ascii),
  Forall (fun c => is_digit c = true) run ->
  digit_runs_from cur (run ++ s) = digit_runs_from (rev run ++ cur) s.
Proof.
  induction run as [|c run IH]; intros cur s H; [reflexivity|].
  inversion H as [|? ? Hc Hr]; subst.
  cbn [app digit_runs_from rev]. rewrite Hc, IH by exact Hr.
  rewrite <- app_assoc. reflexivity.
Qed.

Lemma digit_runs_from_run (run s : list ascii) (c : ascii) :
  Forall (fun c => is_digit c = true) run -> run <> [] ->
  is_digit c = false ->
  digit_runs_from [] (run ++ c :: s) = run :: digit_runs_from [] s.
Proof.
  intros Hr Hne Hc. rewrite digit_runs_from_app by exact Hr.
  rewrite app_nil_r. cbn [digit_runs_from]. rewrite Hc.
  destruct (rev run) as [|c0 r] eqn:E.
  - exfalso. apply Hne. apply (f_equal (@rev ascii)) in E.
    rewrite rev_involutive in E. exact E.
  - rewrite <- E, rev_involutive. reflexivity.
Qed.

Lemma render_members_runs (v : list Z) :
  Forall is_u32 v -> v <> [] ->
  digit_runs_from [] (render_members v ++ ["}"%char]) = map utoa v.
Proof.
  induction 1 as [|x v Hx Hv IH]; intros Hne; [congruence|].
  cbn [render_members map]. destruct v as [|y v].
  - apply digit_runs_from_run;
      [apply utoa_digits, Hx | apply utoa_nonempty, Hx | reflexivity].
  - rewrite <- IH by discriminate. list_norm.
    apply digit_runs_from_run;
      [apply utoa_digits, Hx | apply utoa_nonempty, Hx | reflexivity].
Qed.

Lemma render_runs (v : list Z) :
  Forall is_u32 v -> digit_runs (render v) = map utoa v.
Proof.
  intros Hu. destruct v as [|x v]; [reflexivity|].
  unfold digit_runs, render.
  change (digit_runs_from [] ("{"%char :: render_members (x :: v) ++ ["}"%char]))
    with (digit_runs_from [] (render_members (x :: v) ++ ["}"%char])).
  apply render_members_runs; [exact Hu | discriminate].
Qed.

Lemma run_value_utoa (x : Z) : is_u32 x -> run_value (utoa x) = x.
Proof.
  intros H. unfold run_value. rewrite decimal_value_utoa by apply H.
  apply Z.mod_small. exact H.
Qed.

(** ** Canonical forms are unique *)

Lemma sorted_unique (l1 : list Z) : forall (l2 : list Z),
  StronglySorted Z.lt l1 -> StronglySorted Z.lt l2 ->
  (forall x, In x l1 <-> In x l2) -> l1 = l2.
Proof.
  induction l1 as [|a l1 IH]; intros l2 H1 H2 Hin.
  - destruct l2 as [|b l2]; [reflexivity|].
    destruct (proj2 (Hin b) (or_introl eq_refl)).
  - destruct l2 as [|b l2]; [destruct (proj1 (Hin a) (or_introl eq_refl))|].
    apply StronglySorted_inv in H1. destruct H1 as (H1 & Ha).
    apply StronglySorted_inv in H2. destruct H2 as (H2 & Hb).
    rewrite Forall_forall in Ha, Hb.
    assert (E : a = b).
    { destruct (proj1 (Hin a) (or_introl eq_refl)) as [E|E]; [congruence|].
      destruct (proj2 (Hin b) (or_introl eq_refl)) as [E'|E']; [congruence|].
      specialize (Ha _ E'). specialize (Hb _ E). lia. }
    subst b. f_equal. apply IH; try assumption.
    intros x. split; intros Hx.
    + destruct (proj1 (Hin x) (or_intror Hx)) as [E|E]; [|exact E].
      specialize (Ha _ Hx). lia.
    + destruct (proj2 (Hin x) (or_intror Hx)) as [E|E]; [|exact E].
      specialize (Hb _ Hx). lia.
Qed.

(** ** Parsing the textual form *)

Lemma intset_in_render (v : intSet) :
  wf_intSet v -> intset_in (render v) = Ok v.
Proof.
  intros Hwf. destruct (wf_size v Hwf) as (_ & Hbound).
  destruct Hwf as (Hs & Hu & _).
  change (2 ^ 28) with 268435456 in Hbound.
  destruct (intset_in_runs (render v) (render_grammar v Hu))
    as (t & Ht & Hinv & _ & Hin).
  { rewrite render_runs, length_map by exact Hu.
    change (2 ^ 30 - 1) with 1073741823. lia. }
  rewrite Ht.
  destruct (tree_inv_sorted t Hinv) as (Hst & _).
  assert (E : inorder t = v); [|rewrite E; reflexivity].
  apply sorted_unique; try assumption.
  intros x. rewrite Hin, render_runs, map_map by exact Hu.
  rewrite in_map_iff. split.
  - intros (y & E & Hy). rewrite Forall_forall in Hu.
    rewrite run_value_utoa in E by (apply Hu; exact Hy). congruence.
  - intros Hx. exists x. split; [|exact Hx].
    rewrite Forall_forall in Hu. apply run_value_utoa, Hu, Hx.
Qed.

(** ** The raised error comes from [intset_in] alone *)

Lemma quiet_Ok (A : Type) (a : A) : quiet (Ok a).
Proof. intros text. discriminate. Qed.

Lemma quiet_bind (A B : Type) (c : result A) (k : A -> result B) :
  quiet c -> (forall a, quiet (k a)) -> quiet (bind c k).
Proof.
  intros Hc Hk text. destruct c as [a|e]; cbn [bind]; [apply Hk|].
  intros E. injection E as ->. exact (Hc text eq_refl).
Qed.

Lemma quiet_load (A : Type) (arr : list A) (i : Z) : quiet (load arr i).
Proof.
  intros text. unfold load.
  destruct (_ && _); [destruct (nth_error _ _)|]; discriminate.
Qed.

Lemma quiet_store (A : Type) (arr : list A) (i : Z) (x : A) :
  quiet (store arr i x).
Proof. intros text. unfold store. destruct (_ && _); discriminate. Qed.

Lemma quiet_int_incr (i : Z) : quiet (int_incr i).
Proof. intros text. unfold int_incr. destruct (_ <? _); discriminate. Qed.

Lemma quiet_memcpy (dst : list ascii) (off : Z) (src : list ascii) (len : Z) :
  quiet (memcpy dst off src len).
Proof. intros text. unfold memcpy. destruct (_ && _); discriminate. Qed.

Lemma quiet_for_loop (S : Type) (body : Z -> S -> result (step S)) (n : nat) :
  (forall i s, quiet (body i s)) ->
  forall i s, quiet (for_loop n i body s).
Proof.
  intros Hb. induction n as [|n IH]; intros i s; cbn [for_loop].
  - apply quiet_Ok.
  - apply quiet_bind; [apply Hb|]. intros [s'|s']; [apply IH | apply quiet_Ok].
Qed.

Lemma quiet_rotate (root : TreeNode) :
  quiet (left_rotate root) /\ quiet (right_rotate root).
Proof.
  split; intros text; destruct root as [|d [|? ? ?] [|? ? ?]]; discriminate.
Qed.

Ltac quiet_step :=
  first
    [ apply quiet_Ok
    | apply quiet_load
    | apply quiet_store
    | apply quiet_int_incr
    | apply quiet_memcpy
    | apply (proj1 (quiet_rotate _))
    | apply (proj2 (quiet_rotate _))
    | assumption
    | apply quiet_bind; [|intros ?]
    | apply quiet_for_loop; intros ? ?
    | match goal with
      | |- quiet (if ?b then _ else _) => destruct b
      | |- quiet (match ?x with _ => _ end) => destruct x
      | |- quiet (Err ?e) => intros ?; discriminate
      end ].

Lemma quiet_rebalance (n : Z) (root : TreeNode) : quiet (rebalance n root).
Proof. unfold rebalance. repeat quiet_step. Qed.

Lemma quiet_insertNode (n : Z) (root : TreeNode) : quiet (insertNode n root).
Proof.
  induction root as [|d l IHl r IHr]; cbn [insertNode]; [apply quiet_Ok|].
  apply quiet_bind; [|intros; apply quiet_rebalance].
  repeat quiet_step.
Qed.

Lemma quiet_treeToArr (root : TreeNode) : forall arr i,
  quiet (treeToArr root arr i).
Proof.
  induction root as [|d l IHl r IHr]; intros arr i; cbn [treeToArr];
    [apply quiet_Ok|].
  apply quiet_bind; [destruct l; [apply quiet_Ok | apply IHl]|].
  intros [arr' i']. cbn beta iota.
  apply quiet_bind; [apply quiet_store|]. intros arr''.
  apply quiet_bind; [apply quiet_int_incr|]. intros i''.
  destruct r; [apply quiet_Ok | apply IHr].
Qed.

Lemma quiet_binarySearch (fuel : nat) : forall n low high target,
  quiet (binarySearch fuel n low high target).
Proof.
  induction fuel as [|fuel IH]; intros n low high target; cbn [binarySearch].
  - intros text. discriminate.
  - destruct (high >=? low); [|apply quiet_Ok].
    apply quiet_bind; [apply quiet_load|]. intros x.
    destruct (x =? target); [apply quiet_Ok|].
    destruct (x >? target); apply IH.
Qed.

Lemma quiet_numsEqual (a b : list Z) (size : Z) : quiet (numsEqual a b size).
Proof. unfold numsEqual, for_upto. repeat quiet_step. Qed.

Lemma quiet_tree_to_intSet (t : TreeNode) : quiet (tree_to_intSet t).
Proof.
  unfold tree_to_intSet. apply quiet_bind; [apply quiet_treeToArr|].
  intros [arr i]. apply quiet_Ok.
Qed.

Lemma quiet_insert_selected (keep : Z -> result bool) (nums : list Z)
    (size : Z) (t : TreeNode) :
  (forall x, quiet (keep x)) -> quiet (insert_selected keep nums size t).
Proof.
  intros Hk. unfold insert_selected, for_upto.
  apply quiet_for_loop. intros i s.
  apply quiet_bind; [apply quiet_load|]. intros x.
  apply quiet_bind; [apply Hk|]. intros [|]; [|apply quiet_Ok].
  apply quiet_bind; [apply quiet_insertNode|]. intros; apply quiet_Ok.
Qed.

Lemma quiet_not_found (fuel : nat) (nums : list Z) (size x : Z) :
  quiet (not_found fuel nums size x).
Proof.
  unfold not_found. apply quiet_bind; [apply quiet_binarySearch|].
  intros; apply quiet_Ok.
Qed.

Lemma quiet_all_found (fuel : nat) (nums : list Z) (size : Z)
    (in_nums : list Z) (in_size : Z) :
  quiet (all_found fuel nums size in_nums in_size).
Proof.
  unfold all_found, for_upto. apply quiet_for_loop. intros i s.
  apply quiet_bind; [apply quiet_load|]. intros x.
  apply quiet_bind; [apply quiet_binarySearch|]. intros [|]; apply quiet_Ok.
Qed.

Ltac quiet_op :=
  repeat first
    [ apply quiet_tree_to_intSet
    | apply quiet_insert_selected; intros ?
    | apply quiet_not_found
    | apply quiet_all_found
    | apply quiet_numsEqual
    | apply quiet_binarySearch
    | quiet_step ].

(** No operator raises the error of the text codec. *)
Lemma operators_quiet (fuel : nat) (i : Z) (a b : intSet) :
  quiet (intset_out a) /\
  quiet (intset_union a b) /\
  quiet (intset_intersectn fuel a b) /\
  quiet (intset_contain_all fuel a b) /\
  quiet (intset_contain_only fuel a b) /\
  quiet (intset_equal a b) /\
  quiet (intset_not_equal a b) /\
  quiet (intset_contains fuel i a) /\
  quiet (intset_disjunctn fuel a b) /\
  quiet (intset_diff fuel a b).
Proof.
  splits.
  - unfold intset_out, for_upto.
    destruct (_ =? 0); [repeat quiet_step|].
    apply quiet_bind.
    { apply quiet_for_loop. intros j s.
      apply quiet_bind; [apply quiet_load|]. intros x.
      unfold count_chars. repeat quiet_step. }
    intros res_len. apply quiet_bind; [apply quiet_store|]. intros buf.
    apply quiet_bind.
    { apply quiet_for_loop. intros j [buf' sofar].
      apply quiet_bind; [apply quiet_load|]. intros x.
      unfold copy_number. repeat quiet_step. }
    intros [buf' sofar]. repeat quiet_step.
  - unfold intset_union. quiet_op.
  - unfold intset_intersectn. quiet_op.
  - unfold intset_contain_all. quiet_op.
  - unfold intset_contain_only. quiet_op.
  - unfold intset_equal. quiet_op.
  - unfold intset_not_equal. quiet_op.
  - unfold intset_contains. quiet_op.
  - unfold intset_disjunctn. quiet_op.
  - unfold intset_diff. quiet_op.
Qed.


(** ** Binary search *)

Lemma binarySearch_fuel_mono (fuel : nat) : forall n low high target r,
  binarySearch fuel n low high target = r -> r <> Err OutOfFuel ->
  forall fuel', (fuel <= fuel')%nat -> binarySearch fuel' n low high target = r.
Proof.
  induction fuel as [|fuel IH]; intros n low high target r Hr Hne fuel' Hle.
  - cbn in Hr. congruence.
  - destruct fuel' as [|fuel']; [lia|]. cbn [binarySearch] in *.
    destruct (high >=? low); [|exact Hr].
    destruct (load n _) as [x|e]; cbn [bind] in *; [|exact Hr].
    destruct (x =? target); [exact Hr|].
    destruct (x >? target); apply (IH _ _ _ _ _ Hr Hne); lia.
Qed.

Lemma load_nth (n : list Z) (i : Z) :
  0 <= i < Z.of_nat (length n) -> load n i = Ok (nth (Z.to_nat i) n 0).
Proof.
  intros H. rewrite <- (Z2Nat.id i) at 1 by lia. apply load_Ok.
  apply nth_error_nth'. lia.
Qed.

Lemma sorted_nth_lt (n : list Z) :
  StronglySorted Z.lt n ->
  forall i j, (i < j < length n)%nat -> nth i n 0 < nth j n 0.
Proof.
  induction 1 as [|a n Hs IH Ha]; intros i j Hij; cbn [length] in Hij; [lia|].
  destruct j as [|j]; [lia|]. destruct i as [|i]; cbn [nth].
  - rewrite Forall_forall in Ha. apply Ha. apply nth_In. lia.
  - apply IH. lia.
Qed.

Lemma sorted_nth_le (n : list Z) :
  StronglySorted Z.lt n ->
  forall i j, (i <= j < length n)%nat -> nth i n 0 <= nth j n 0.
Proof.
  intros Hs i j Hij. destruct (Nat.eq_dec i j) as [->|Hne]; [lia|].
  pose proof (sorted_nth_lt n Hs i j). lia.
Qed.

(** The search is an ordinary binary search as long as the target is
    not below the first element: the lower bound [mid - 1] then never
    passes 0. *)
Lemma binarySearch_range (f : nat) : forall (n : list Z) (low hh target : Z),
  StronglySorted Z.lt n -> Z.of_nat (length n) < 2 ^ 31 ->
  nth 0 n 0 <= target ->
  0 <= low -> 0 <= hh < Z.of_nat (length n) -> low - 1 <= hh ->
  hh - low + 1 < 2 ^ Z.of_nat f ->
  exists b, binarySearch (S f) n low hh target = Ok b /\
            (b = true <->
             exists i, low <= i <= hh /\ nth (Z.to_nat i) n 0 = target).
Proof.
  change (2 ^ 31) with 2147483648.
  induction f as [|f IH]; intros n low hh target Hs HL H0 Hlow Hhh Hle Hsz.
  - change (2 ^ Z.of_nat 0) with 1 in Hsz. assert (hh = low - 1) by lia.
    cbn [binarySearch].
    replace (hh >=? low) with false
      by (symmetry; rewrite Z.geb_leb; apply Z.leb_gt; lia).
    exists false. split; [reflexivity|]. split; [discriminate|].
    intros (i & Hi & _). lia.
  - rewrite Nat2Z.inj_succ, Z.pow_succ_r in Hsz by lia.
    cbn [binarySearch]. rewrite Z.geb_leb.
    destruct (Z.leb_spec low hh) as [Hlh|Hlh].
    2:{ exists false. split; [reflexivity|]. split; [discriminate|].
        intros (i & Hi & _). lia. }
    set (m := low + (hh - low) / 2).
    assert (Hm : low <= m <= hh)
      by (subst m; Z.to_euclidean_division_equations; lia).
    assert (Hmid : u32 (low + u32 (hh - low) / 2) = m).
    { subst m. rewrite (u32_small (hh - low))
        by (change (2 ^ 32) with 4294967296; lia).
      apply u32_small. change (2 ^ 32) with 4294967296. lia. }
    rewrite Hmid. rewrite load_nth by lia. cbn [bind].
    destruct (Z.eqb_spec (nth (Z.to_nat m) n 0) target) as [E|E].
    { exists true. split; [reflexivity|]. split; [|reflexivity].
      intros _. exists m. split; [lia | exact E]. }
    rewrite Z.gtb_ltb.
    destruct (Z.ltb_spec target (nth (Z.to_nat m) n 0)) as [Hgt|Hlt].
    + (* left half *)
      assert (Hm1 : 1 <= m).
      { destruct (Z.eq_dec m 0) as [Em|Em]; [|lia].
        rewrite Em in Hgt. cbn [Z.to_nat] in Hgt. lia. }
      rewrite (u32_small (m - 1)) by (change (2 ^ 32) with 4294967296; lia).
      destruct (IH n low (m - 1) target Hs HL H0 Hlow) as (b & Hb & Hiff);
        try lia;
        try (subst m; Z.to_euclidean_division_equations; lia).
      exists b. split; [exact Hb|]. rewrite Hiff. split.
      * intros (i & Hi & Ei). exists i. split; [lia | exact Ei].
      * intros (i & Hi & Ei). exists i. split; [|exact Ei].
        destruct (Z_lt_le_dec i m) as [Him|Him]; [lia|exfalso].
        pose proof (sorted_nth_le n Hs (Z.to_nat m) (Z.to_nat i)). lia.
    + (* right half *)
      rewrite (u32_small (m + 1)) by (change (2 ^ 32) with 4294967296; lia).
      destruct (IH n (m + 1) hh target Hs HL H0) as (b & Hb & Hiff);
        try lia;
        try (subst m; Z.to_euclidean_division_equations; lia).
      exists b. split; [exact Hb|]. rewrite Hiff. split.
      * intros (i & Hi & Ei). exists i. split; [lia | exact Ei].
      * intros (i & Hi & Ei). exists i. split; [|exact Ei].
        destruct (Z_lt_le_dec m i) as [Him|Him]; [lia|exfalso].
        pose proof (sorted_nth_le n Hs (Z.to_nat i) (Z.to_nat m)). lia.
Qed.

(** Below the first element the search leaves the array: from
    [mid = 0] the bound [mid - 1] wraps to 4294967295. *)
Lemma binarySearch_below (f : nat) : forall (n : list Z) (hh target : Z),
  StronglySorted Z.lt n -> Z.of_nat (length n) < 2 ^ 31 ->
  target < nth 0 n 0 ->
  0 <= hh < Z.of_nat (length n) -> hh + 1 < 2 ^ Z.of_nat f ->
  binarySearch (S (S f)) n 0 hh target = Err OutOfBounds.
Proof.
  change (2 ^ 31) with 2147483648.
  induction f as [|f IH]; intros n hh target Hs HL H0 Hhh Hsz.
  - change (2 ^ Z.of_nat 0) with 1 in Hsz. lia.
  - rewrite Nat2Z.inj_succ, Z.pow_succ_r in Hsz by lia.
    cbn [binarySearch].
    replace (hh >=? 0) with true by (symmetry; rewrite Z.geb_leb; apply Z.leb_le; lia).
    set (m := hh / 2).
    assert (Hm : 0 <= m <= hh) by (subst m; Z.to_euclidean_division_equations; lia).
    assert (Hmid : u32 (0 + u32 (hh - 0) / 2) = m).
    { subst m. rewrite Z.sub_0_r, Z.add_0_l.
      rewrite (u32_small hh) by (change (2 ^ 32) with 4294967296; lia).
      apply u32_small. change (2 ^ 32) with 4294967296.
      Z.to_euclidean_division_equations; lia. }
    rewrite Hmid. rewrite load_nth by lia. cbn [bind].
    pose proof (sorted_nth_le n Hs 0 (Z.to_nat m) ltac:(lia)) as Hge.
    replace (nth (Z.to_nat m) n 0 =? target) with false
      by (symmetry; apply Z.eqb_neq; lia).
    replace (nth (Z.to_nat m) n 0 >? target) with true
      by (symmetry; rewrite Z.gtb_ltb; apply Z.ltb_lt; lia).
    destruct (Z.eq_dec m 0) as [Em|Em].
    + rewrite Em. change (u32 (0 - 1)) with 4294967295.
      cbn [binarySearch]. change (4294967295 >=? 0) with true. cbv iota.
      change (u32 (0 + u32 (4294967295 - 0) / 2)) with 2147483647.
      rewrite load_out by lia. reflexivity.
    + rewrite (u32_small (m - 1)) by (change (2 ^ 32) with 4294967296; lia).
      apply IH; try assumption; try lia;
        subst m; Z.to_euclidean_division_equations; lia.
Qed.

(** What [binarySearch] makes of a call on a whole well-formed array,
    as every operator places it. *)
Lemma binarySearch_whole (fuel : nat) (a : intSet) (target : Z) :
  wf_intSet a -> (33 <= fuel)%nat ->
  binarySearch fuel a 0 (u32 (Z.of_nat (length a) - 1)) target =
  match a with
  | [] => Err OutOfBounds
  | first :: _ =>
      if target <? first then Err OutOfBounds
      else Ok (if in_dec Z.eq_dec target a then true else false)
  end.
Proof.
  intros Hwf Hfuel. destruct (wf_size a Hwf) as (_ & HL).
  destruct Hwf as (Hs & _ & _).
  change (2 ^ 28) with 268435456 in HL.
  assert (HL' : Z.of_nat (length a) < 2 ^ 31)
    by (change (2 ^ 31) with 2147483648; lia).
  destruct a as [|first rest] eqn:Ea.
  - destruct fuel as [|fuel]; [lia|]. reflexivity.
  - rewrite <- Ea in *. 
    assert (Hlen : 1 <= Z.of_nat (length a)) by (rewrite Ea; cbn [length]; lia).
    assert (Hfirst : nth 0 a 0 = first) by (rewrite Ea; reflexivity).
    rewrite u32_small by (change (2 ^ 32) with 4294967296; lia).
    destruct (Z.ltb_spec target first) as [Hlt|Hge].
    + apply (binarySearch_fuel_mono 33); [|discriminate|exact Hfuel].
      apply (binarySearch_below 31); try assumption; lia.
    + destruct (binarySearch_range 31 a 0 (Z.of_nat (length a) - 1) target)
        as (b & Hb & Hiff); try assumption; try lia.
      rewrite (binarySearch_fuel_mono 32 _ _ _ _ _ Hb) by (discriminate || lia).
      f_equal. destruct (in_dec Z.eq_dec target a) as [Hin|Hin].
      * apply Hiff. destruct (In_nth a target 0 Hin) as (i & Hi & Ei).
        exists (Z.of_nat i). rewrite Nat2Z.id. split; [lia | exact Ei].
      * destruct b; [|reflexivity]. exfalso. apply Hin.
        destruct (proj1 Hiff eq_refl) as (i & Hi & Ei).
        rewrite <- Ei. apply nth_In. lia.
Qed.

(** ** The operators on well-formed values *)

Lemma numsEqual_loop (a2 : list Z) : forall (a1 b1 b2 : list Z),
  length a1 = length b1 -> (length a2 <= length b2)%nat ->
  for_loop (length a2) (Z.of_nat (length a1))
    (fun i _ =>
       x <- load (a1 ++ a2) i ;;
       y <- load (b1 ++ b2) i ;;
       if negb (x =? y) then Ok (Break false) else Ok (Next true))
    true
  = Ok (Z_list_eqb a2 (firstn (length a2) b2)).
Proof.
  induction a2 as [|x a2 IH]; intros a1 b1 b2 H1 H2; [reflexivity|].
  destruct b2 as [|y b2]; [cbn [length] in H2; lia|].
  cbn [length for_loop firstn]. rewrite load_app. cbn [bind].
  rewrite H1, load_app. cbn [bind].
  destruct (Z.eqb_spec x y) as [->|Hne]; cbn [negb].
  - specialize (IH (a1 ++ [y]) (b1 ++ [y]) b2).
    rewrite !length_app, <- !app_assoc in IH. cbn [length app] in IH.
    replace (Z.of_nat (length b1) + 1) with (Z.of_nat (length a1 + 1)) by lia.
    cbn [bind length] in *. rewrite IH by lia.
    f_equal. unfold Z_list_eqb.
    destruct (list_eq_dec Z.eq_dec a2 (firstn (length a2) b2)) as [E|E];
      destruct (list_eq_dec Z.eq_dec (y :: a2) (y :: firstn (length a2) b2))
        as [E'|E']; try reflexivity; congruence.
  - cbn [bind]. f_equal. unfold Z_list_eqb.
    destruct (list_eq_dec Z.eq_dec (x :: a2) (y :: firstn (length a2) b2));
      [congruence | reflexivity].
Qed.

(** [numsEqual] compares [a] with the prefix of [b] of its length. *)
Lemma numsEqual_prefix (a b : list Z) :
  (length a <= length b)%nat ->
  numsEqual a b (Z.of_nat (length a))
  = Ok (Z_list_eqb a (firstn (length a) b)).
Proof.
  intros H. unfold numsEqual, for_upto. rewrite Nat2Z.id.
  apply (numsEqual_loop a [] [] b eq_refl H).
Qed.

(** Equal and NotEqual are total and decide the pointwise equality. *)
Lemma intset_equal_spec (a b : intSet) :
  wf_intSet a -> wf_intSet b ->
  intset_equal a b = Ok (Z_list_eqb a b) /\
  intset_not_equal a b = Ok (negb (Z_list_eqb a b)).
Proof.
  intros Ha Hb. destruct (wf_size a Ha) as (Ea & _).
  destruct (wf_size b Hb) as (Eb & _).
  unfold intset_equal, intset_not_equal, VARDATA_ANY. rewrite Ea, Eb.
  destruct (Z.eqb_spec (Z.of_nat (length a)) (Z.of_nat (length b))) as [E|E];
    cbn [negb].
  - rewrite numsEqual_prefix by lia. cbn [bind].
    replace (length a) with (length b) by lia. rewrite firstn_all.
    split; reflexivity.
  - assert (Hne : a <> b) by (intros ->; lia).
    unfold Z_list_eqb. destruct (list_eq_dec Z.eq_dec a b); [contradiction|].
    split; reflexivity.
Qed.

(** Union is total and returns the canonical form of the union. *)
Lemma intset_union_spec (a b : intSet) :
  wf_intSet a -> wf_intSet b ->
  exists v, intset_union a b = Ok v /\ canonical v /\
            (forall x, In x v <-> In x a \/ In x b).
Proof.
  intros Ha Hb. pose proof tree_inv_NULL as I0.
  destruct (wf_size a Ha) as (Ea & La). destruct (wf_size b Hb) as (Eb & Lb).
  pose proof Ha as (_ & Ua & _). pose proof Hb as (_ & Ub & _).
  unfold intset_union, VARDATA_ANY. rewrite Ea, Eb.
  destruct ((Z.of_nat (length a) =? 0) && (Z.of_nat (length b) =? 0)) eqn:E0.
  - apply andb_true_iff in E0. destruct E0 as (E1 & E2).
    apply Z.eqb_eq in E1, E2.
    destruct a; [|cbn [length] in E1; lia]. destruct b; [|cbn [length] in E2; lia].
    exists []. split; [reflexivity|]. split; [apply canonical_nil|].
    intros x. cbn. tauto.
  - rewrite insert_selected_iterate.
    destruct (iterate_insert_total (fun _ => Ok true) a NULL Ua I0) as (t1 & E1).
    { intros x _. exists true. reflexivity. }
    rewrite E1. cbn [bind]. rewrite insert_selected_iterate.
    destruct (iterate_insert_inv _ a NULL t1 Ua I0 E1) as (I1 & L1 & M1).
    destruct (iterate_insert_total (fun _ => Ok true) b t1 Ub I1) as (t2 & E2).
    { intros x _. exists true. reflexivity. }
    rewrite E2. cbn [bind].
    destruct (iterate_insert_inv _ b t1 t2 Ub I1 E2) as (I2 & L2 & M2).
    cbn [inorder length] in L1.
    assert (Hsz : Z.of_nat (length (inorder t2)) < 2 ^ 30 - 1).
    { change (2 ^ 28) with 268435456 in *.
      change (2 ^ 30 - 1) with 1073741823. lia. }
    exists (inorder t2). split; [apply tree_to_intSet_inorder; exact Hsz|].
    split; [apply tree_inv_canonical; assumption|].
    intros x. rewrite M2, M1. cbn [inorder In]. intuition.
Qed.

(** Contains is right from the first element of the array up, and reads
    outside the array below it. *)
Lemma intset_contains_spec (fuel : nat) (i : Z) (a : intSet) :
  wf_intSet a -> (33 <= fuel)%nat ->
  intset_contains fuel i a =
  match a with
  | [] => Ok false
  | first :: _ =>
      if i <? first then Err OutOfBounds
      else Ok (if in_dec Z.eq_dec i a then true else false)
  end.
Proof.
  intros Ha Hfuel. destruct (wf_size a Ha) as (Ea & _).
  unfold intset_contains, VARDATA_ANY. rewrite Ea.
  destruct a as [|first rest]; [reflexivity|].
  replace (Z.of_nat (length (first :: rest)) =? 0) with false
    by (symmetry; apply Z.eqb_neq; cbn [length]; lia).
  apply (binarySearch_whole fuel (first :: rest) i Ha Hfuel).
Qed.

(** ContainsAll answers false as soon as [a] has fewer elements than
    [b] has bytes. *)
Lemma intset_contain_all_bytes (fuel : nat) (a b : intSet) :
  wf_intSet a -> wf_intSet b ->
  Z.of_nat (length a) < 4 * Z.of_nat (length b) ->
  intset_contain_all fuel a b = Ok false.
Proof.
  intros Ha Hb Hlt. destruct (wf_size a Ha) as (Ea & _).
  destruct (wf_size b Hb) as (_ & Lb). change (2 ^ 28) with 268435456 in Lb.
  unfold intset_contain_all. rewrite Ea. unfold VARSIZE_ANY_EXHDR at 1.
  rewrite u32_small by (change (2 ^ 32) with 4294967296; lia).
  replace (Z.of_nat (length a) <? 4 * Z.of_nat (length b)) with true
    by (symmetry; apply Z.ltb_lt; exact Hlt).
  reflexivity.
Qed.

(** SymmetricDifference is empty whenever [a] is a prefix of [b]. *)
Lemma intset_disjunctn_prefix (fuel : nat) (a c : intSet) :
  wf_intSet a -> intset_disjunctn fuel a (a ++ c) = Ok [].
Proof.
  intros Ha. destruct (wf_size a Ha) as (Ea & _).
  unfold intset_disjunctn, VARDATA_ANY. rewrite Ea.
  rewrite numsEqual_prefix by (rewrite length_app; lia).
  rewrite firstn_app, Nat.sub_diag, firstn_all. cbn [firstn].
  rewrite app_nil_r. unfold Z_list_eqb.
  destruct (list_eq_dec Z.eq_dec a a); [reflexivity | congruence].
Qed.

(** ** The digit runs of a text *)

Lemma last_cons_nondigit (c : ascii) (pre : list ascii) :
  is_digit c = false -> is_digit (last pre " "%char) = false ->
  is_digit (last (c :: pre) " "%char) = false.
Proof.
  intros Hc Hp. destruct pre as [|p pre]; [exact Hc|].
  change (last (c :: p :: pre) " "%char) with (last (p :: pre) " "%char).
  exact Hp.
Qed.

Lemma last_in (A : Type) (l : list A) (d : A) : l <> [] -> In (last l d) l.
Proof.
  induction l as [|a l IH]; intros Hne; [congruence|].
  destruct l as [|b l]; [left; reflexivity|].
  right. apply IH. discriminate.
Qed.

Lemma digits_no_boundary_before (pre rest : list ascii) :
  Forall (fun c => is_digit c = true) (pre ++ rest) ->
  is_digit (last pre " "%char) = false -> pre = [].
Proof.
  intros Hall Hl. destruct pre as [|p pre]; [reflexivity|exfalso].
  apply Forall_app in Hall. destruct Hall as (Hpre & _).
  rewrite Forall_forall in Hpre.
  specialize (Hpre _ (last_in _ (p :: pre) " "%char ltac:(discriminate))).
  congruence.
Qed.

Lemma digits_no_boundary_after (post : list ascii) :
  Forall (fun c => is_digit c = true) post ->
  is_digit (hd " "%char post) = false -> post = [].
Proof.
  intros Hall Hh. destruct post as [|p post]; [reflexivity|exfalso].
  inversion Hall; subst. cbn [hd] in Hh. congruence.
Qed.

(** A text of digits only has itself as its one run. *)
Lemma scanned_run_digits (s run : list ascii) :
  Forall (fun c => is_digit c = true) s -> s <> [] ->
  (scanned_run s run <-> run = s).
Proof.
  intros Hs Hne. split.
  - intros (_ & _ & pre & post & E & Hpre & Hpost). subst s.
    assert (pre = []) by (eapply digits_no_boundary_before; eassumption).
    subst pre. cbn [app] in *.
    apply Forall_app in Hs. destruct Hs as (_ & Hp).
    rewrite (digits_no_boundary_after post Hp Hpost). symmetry. apply app_nil_r.
  - intros ->. split; [exact Hne|]. split; [exact Hs|].
    exists [], []. rewrite app_nil_r. repeat split; reflexivity.
Qed.

(** A character that is no digit, in front of a text, adds no run. *)
Lemma scanned_run_skip (c : ascii) (s run : list ascii) :
  is_digit c = false -> (scanned_run (c :: s) run <-> scanned_run s run).
Proof.
  intros Hc. split.
  - intros (Hne & Hd & pre & post & E & Hpre & Hpost).
    split; [exact Hne|]. split; [exact Hd|].
    destruct pre as [|p pre].
    + exfalso. destruct run as [|r run]; [congruence|].
      cbn [app] in E. injection E as <- _. inversion Hd; subst. congruence.
    + cbn [app] in E. injection E as <- E. exists pre, post.
      split; [exact E|]. split; [|exact Hpost].
      destruct pre as [|q pre]; [reflexivity | exact Hpre].
  - intros (Hne & Hd & pre & post & E & Hpre & Hpost).
    split; [exact Hne|]. split; [exact Hd|].
    exists (c :: pre), post. split; [rewrite E; reflexivity|].
    split; [apply last_cons_nondigit; assumption | exact Hpost].
Qed.

(** A run of digits closed by another character is the first run. *)
Lemma scanned_run_first (d s run : list ascii) (c : ascii) :
  Forall (fun c => is_digit c = true) d -> d <> [] -> is_digit c = false ->
  (scanned_run (d ++ c :: s) run <-> run = d \/ scanned_run s run).
Proof.
  intros Hd Hne Hc. split.
  - intros (Hrne & Hrd & pre & post & E & Hpre & Hpost).
    apply app_eq_app in E. destruct E as (l & [(E1 & E2)|(E1 & E2)]).
    + (* [pre] lies within [d] *)
      subst d. assert (pre = [])
        by (eapply digits_no_boundary_before; eassumption).
      subst pre. cbn [app] in *. left.
      symmetry in E2. apply app_eq_app in E2.
      destruct E2 as (l' & [(E3 & E4)|(E3 & E4)]).
      * (* [l] is [run] and more *)
        subst l. apply Forall_app in Hd. destruct Hd as (_ & Hl').
        destruct l' as [|q l']; [symmetry; apply app_nil_r|exfalso].
        subst post. inversion Hl'; subst. cbn [app hd] in Hpost. congruence.
      * (* [run] is [l] and more *)
        subst run. destruct l' as [|q l']; [apply app_nil_r|exfalso].
        cbn [app] in E4. injection E4 as <- _.
        apply Forall_app in Hrd. destruct Hrd as (_ & Hq).
        inversion Hq; subst. congruence.
    + (* [pre] reaches beyond [d] *)
      right. destruct l as [|q l].
      * exfalso. cbn [app] in E2. destruct run as [|r run]; [congruence|].
        cbn [app] in E2. injection E2 as <- _. inversion Hrd; subst. congruence.
      * cbn [app] in E2. injection E2 as <- E2.
        split; [exact Hrne|]. split; [exact Hrd|].
        exists l, post. split; [exact E2|]. split; [|exact Hpost].
        destruct l as [|q l]; [reflexivity|].
        subst pre. rewrite last_app_cons in Hpre. exact Hpre.
  - intros [->|(Hrne & Hrd & pre & post & E & Hpre & Hpost)].
    + split; [exact Hne|]. split; [exact Hd|].
      exists [], (c :: s). repeat split. exact Hc.
    + split; [exact Hrne|]. split; [exact Hrd|].
      exists (d ++ c :: pre), post.
      split; [rewrite E, <- app_assoc; reflexivity|].
      split; [|exact Hpost]. rewrite last_app_cons.
      apply last_cons_nondigit; assumption.
Qed.

(** [digit_runs_from] lists the maximal runs. *)
Lemma digit_runs_from_scanned (s : list ascii) : forall (cur run : list ascii),
  Forall (fun c => is_digit c = true) cur ->
  (In run (digit_runs_from cur s) <-> scanned_run (rev cur ++ s) run).
Proof.
  induction s as [|c s IH]; intros cur run Hcur; cbn [digit_runs_from].
  - rewrite app_nil_r. destruct cur as [|c0 cur].
    + cbn. split; [intros []|].
      intros (Hne & _ & pre & post & E & _). symmetry in E.
      apply app_eq_nil in E. destruct E as (_ & E).
      apply app_eq_nil in E. destruct E. congruence.
    + rewrite scanned_run_digits.
      * cbn [In]. split; [intros [H|[]]; congruence | intros ->; left; reflexivity].
      * apply Forall_rev. exact Hcur.
      * cbn [rev]. intros E. apply app_eq_nil in E. destruct E; discriminate.
  - destruct (is_digit c) eqn:Ec.
    + rewrite IH by (constructor; assumption).
      cbn [rev]. rewrite <- app_assoc. reflexivity.
    + destruct cur as [|c0 cur].
      * rewrite IH by constructor. cbn [rev app].
        symmetry. apply scanned_run_skip. exact Ec.
      * cbn [In]. rewrite IH by constructor. cbn [rev app].
        rewrite scanned_run_first; [|apply (Forall_rev Hcur)| |exact Ec].
        -- cbn [rev]. split; intros [H|H]; auto.
        -- cbn [rev]. intros E. apply app_eq_nil in E. destruct E; discriminate.
Qed.

Lemma is_digit_false (c : ascii) :
  is_digit c = false <-> ~ decimal_digit c.
Proof.
  unfold decimal_digit. rewrite <- is_digit_code.
  destruct (is_digit c); split; intros H; congruence.
Qed.

Lemma scanned_run_maximal (s run : list ascii) :
  scanned_run s run <-> maximal_run s run.
Proof.
  unfold scanned_run, maximal_run.
  assert (F : Forall (fun c => is_digit c = true) run <->
              Forall decimal_digit run).
  { split; apply Forall_impl; intros c; apply is_digit_code. }
  rewrite F. split.
  - intros (Hne & Hd & pre & post & E & H1 & H2).
    split; [exact Hne|]. split; [exact Hd|]. exists pre, post.
    rewrite <- !is_digit_false. auto.
  - intros (Hne & Hd & pre & post & E & H1 & H2).
    split; [exact Hne|]. split; [exact Hd|]. exists pre, post.
    rewrite !is_digit_false. auto.
Qed.

(** [digit_runs] lists the maximal runs of a text. *)
Lemma digit_runs_maximal (s run : list ascii) :
  In run (digit_runs s) <-> maximal_run s run.
Proof.
  rewrite <- scanned_run_maximal.
  apply (digit_runs_from_scanned s [] run). constructor.
Qed.

(* ================================================================== *)
(** * The scenarios of the specification, evaluated *)

Example scenario_empty :
  intset_in (list_ascii_of_string "{}") = Ok [] /\
  intset_out [] = Ok (list_ascii_of_string "{}").
Proof. split; reflexivity. Qed.

Example scenario_parse_render :
  intset_in (list_ascii_of_string "{3, 1, 2, 1}") = Ok [1; 2; 3] /\
  intset_out [1; 2; 3] = Ok (list_ascii_of_string "{1,2,3}").
Proof. split; reflexivity. Qed.

Example scenario_union : intset_union [1; 2] [2; 3] = Ok [1; 2; 3].
Proof. reflexivity. Qed.

Example scenario_intersection :
  intset_intersectn 33 [1; 2; 3] [2; 3; 4] = Ok [2; 3].
Proof. reflexivity. Qed.

Example scenario_contains :
  intset_contains 33 10 [5; 10; 15] = Ok true /\
  intset_contains 33 11 [5; 10; 15] = Ok false.
Proof. split; reflexivity. Qed.

Example digit_runs_example :
  digit_runs (list_ascii_of_string "{30, 1,2 }")
  = map list_ascii_of_string ["30"; "1"; "2"]%string.
Proof. reflexivity. Qed.

Example rejected_texts :
  matches intset_regex (list_ascii_of_string "{1,}") = false /\
  matches intset_regex (list_ascii_of_string "{1 2}") = false /\
  matches intset_regex (list_ascii_of_string "1,2") = false /\
  matches intset_regex (list_ascii_of_string "{-1}") = false /\
  matches intset_regex (list_ascii_of_string "  { 1 , 02 }  ") = true.
Proof. repeat split; reflexivity. Qed.

(** Seven ascending insertions end in the perfect tree: each of the
    four single rotations to the left has taken place. *)
Example insert_ascending :
  insert_selected (fun _ => Ok true) [1; 2; 3; 4; 5; 6; 7] 7 NULL
  = Ok (Node 4 (Node 2 (Node 1 NULL NULL) (Node 3 NULL NULL))
               (Node 6 (Node 5 NULL NULL) (Node 7 NULL NULL))).
Proof. reflexivity. Qed.

(** The two double rotations. *)
Example insert_double_rotations :
  insert_selected (fun _ => Ok true) [3; 1; 2] 3 NULL
  = Ok (Node 2 (Node 1 NULL NULL) (Node 3 NULL NULL)) /\
  insert_selected (fun _ => Ok true) [1; 3; 2] 3 NULL
  = Ok (Node 2 (Node 1 NULL NULL) (Node 3 NULL NULL)).
Proof. split; reflexivity. Qed.

(* ================================================================== *)
(** * Further lemmas on the tree and on the operators *)

(** ** Insertion of a key that is present *)

Lemma insertNode_present (n : Z) (t : TreeNode) : forall lo hi,
  bounded lo hi t -> avl t -> 0 <= lo -> hi <= 2 ^ 32 ->
  In n (inorder t) -> insertNode n t = Ok t.
Proof.
  induction t as [|d l IHl r IHr]; intros lo hi Hb Ha Hlo Hhi Hin;
    [destruct Hin|].
  cbn [bounded avl] in Hb, Ha.
  destruct Hb as (Hd & Hbl & Hbr). destruct Ha as (Hal & Har & Hbal).
  pose proof (avl_height_bound l _ _ Hal Hbl ltac:(lia) ltac:(lia)) as Hhl.
  pose proof (avl_height_bound r _ _ Har Hbr ltac:(lia) ltac:(lia)) as Hhr.
  pose proof (bounded_Forall _ _ _ Hbl) as Fl.
  pose proof (bounded_Forall _ _ _ Hbr) as Fr.
  rewrite Forall_forall in Fl, Fr.
  cbn [inorder] in Hin. apply in_app_or in Hin. cbn [insertNode].
  rewrite Z.gtb_ltb.
  destruct Hin as [Hin|[->|Hin]].
  - specialize (Fl _ Hin).
    replace (d <? n) with false by (symmetry; apply Z.ltb_ge; lia).
    replace (n <? d) with true by (symmetry; apply Z.ltb_lt; lia).
    rewrite (IHl lo d) by (try assumption; lia). cbn [bind].
    apply rebalance_balanced; assumption.
  - rewrite Z.ltb_irrefl. cbn [bind]. apply rebalance_balanced; assumption.
  - specialize (Fr _ Hin).
    replace (d <? n) with true by (symmetry; apply Z.ltb_lt; lia).
    rewrite (IHr (d + 1) hi) by (try assumption; lia). cbn [bind].
    apply rebalance_balanced; assumption.
Qed.

Lemma insertNode_height (n : Z) (t : TreeNode) :
  tree_inv t -> is_u32 n ->
  exists t', insertNode n t = Ok t' /\ height t <= height t' <= height t + 1.
Proof.
  intros (Hb & Ha) Hn.
  destruct (insertNode_spec n t 0 (2 ^ 32) Hb Ha Hn ltac:(lia) ltac:(lia))
    as (t' & Hins & _ & _ & _ & _ & Hh).
  exists t'. split; [exact Hins|]. lia.
Qed.

(** ** Filters of ascending arrays *)

Lemma sorted_filter (p : Z -> bool) (l : list Z) :
  StronglySorted Z.lt l -> StronglySorted Z.lt (filter p l).
Proof.
  induction 1 as [|a l Hs IH Ha]; cbn [filter]; [constructor|].
  destruct (p a); [|exact IH]. constructor; [exact IH|].
  rewrite Forall_forall in *. intros x Hx. apply Ha.
  apply filter_In in Hx. apply Hx.
Qed.

Lemma sorted_first_le (a0 : Z) (rest : list Z) :
  StronglySorted Z.lt (a0 :: rest) -> forall x, In x (a0 :: rest) -> a0 <= x.
Proof.
  intros Hs x [->|Hx]; [lia|].
  apply StronglySorted_inv in Hs. destruct Hs as (_ & Ha).
  rewrite Forall_forall in Ha. specialize (Ha _ Hx). lia.
Qed.

Lemma mem_In (x : Z) (l : list Z) : mem x l = true <-> In x l.
Proof.
  unfold mem. destruct (in_dec Z.eq_dec x l); split; intros H;
    try assumption; try reflexivity; try discriminate; contradiction.
Qed.

(** ** Filling a tree under a test that returns *)

Lemma iterate_insert_filter (keep : Z -> result bool) (p : Z -> bool)
    (nums : list Z) (t0 : TreeNode) :
  Forall is_u32 nums -> tree_inv t0 ->
  (forall x, In x nums -> keep x = Ok (p x)) ->
  exists t, iterate (insert_if keep) nums t0 = Ok t /\ tree_inv t /\
    (length (inorder t) <= length (inorder t0) + length nums)%nat /\
    (forall x, In x (inorder t) <->
               In x (inorder t0) \/ (In x nums /\ p x = true)).
Proof.
  intros Hu Hinv Hk.
  destruct (iterate_insert_total keep nums t0 Hu Hinv) as (t & Ht).
  { intros x Hx. exists (p x). apply Hk. exact Hx. }
  destruct (iterate_insert_inv keep nums t0 t Hu Hinv Ht) as (Hi & Hl & Hin).
  exists t. split; [exact Ht|]. split; [exact Hi|]. split; [exact Hl|].
  intros x. rewrite Hin. split.
  - intros [H|(H & E)]; [left; exact H|right]. split; [exact H|].
    rewrite (Hk x H) in E. congruence.
  - intros [H|(H & E)]; [left; exact H|right]. split; [exact H|].
    rewrite (Hk x H), E. reflexivity.
Qed.

(** A tree filled from the empty tree under a test [p], then flattened,
    is the array filtered by [p]. *)
Lemma fill_filter (keep : Z -> result bool) (p : Z -> bool) (a : intSet) :
  wf_intSet a -> (forall x, In x a -> keep x = Ok (p x)) ->
  (t <- insert_selected keep a (Z.of_nat (length a)) NULL ;;
   tree_to_intSet t) = Ok (filter p a).
Proof.
  intros Ha Hk. destruct (wf_size a Ha) as (Ea & La).
  destruct Ha as (Hs & Hu & _).
  rewrite insert_selected_iterate.
  destruct (iterate_insert_filter keep p a NULL Hu tree_inv_NULL Hk)
    as (t & Ht & Hinv & Hl & Hin).
  rewrite Ht. cbn [bind]. cbn [inorder length] in Hl.
  rewrite tree_to_intSet_inorder
    by (change (2 ^ 28) with 268435456 in La;
        change (2 ^ 30 - 1) with 1073741823; lia).
  assert (E : inorder t = filter p a); [|rewrite E; reflexivity].
  apply sorted_unique.
  - apply (tree_inv_sorted t Hinv).
  - apply sorted_filter. exact Hs.
  - intros x. rewrite Hin, filter_In. cbn [inorder In]. tauto.
Qed.

Lemma fill_first_fails (keep : Z -> result bool) (e : error)
    (a0 : Z) (rest : list Z) :
  wf_intSet (a0 :: rest) -> keep a0 = Err e ->
  (t <- insert_selected keep (a0 :: rest)
          (Z.of_nat (length (a0 :: rest))) NULL ;;
   tree_to_intSet t) = Err e.
Proof.
  intros Ha Hk.
  rewrite insert_selected_iterate.
  cbn [iterate]. unfold insert_if at 1. rewrite Hk. reflexivity.
Qed.

(** ** The search, as the operators call it *)

Lemma search_from_first (fuel : nat) (b0 : Z) (rest : list Z) (x : Z) :
  wf_intSet (b0 :: rest) -> (33 <= fuel)%nat -> b0 <= x ->
  binarySearch fuel (b0 :: rest) 0
    (u32 (Z.of_nat (length (b0 :: rest)) - 1)) x
  = Ok (mem x (b0 :: rest)).
Proof.
  intros Hb Hf Hx. rewrite (binarySearch_whole fuel _ x Hb Hf).
  replace (x <? b0) with false by (symmetry; apply Z.ltb_ge; lia).
  reflexivity.
Qed.

Lemma search_below_first (fuel : nat) (b0 : Z) (rest : list Z) (x : Z) :
  wf_intSet (b0 :: rest) -> (33 <= fuel)%nat -> x < b0 ->
  binarySearch fuel (b0 :: rest) 0
    (u32 (Z.of_nat (length (b0 :: rest)) - 1)) x
  = Err OutOfBounds.
Proof.
  intros Hb Hf Hx. rewrite (binarySearch_whole fuel _ x Hb Hf).
  replace (x <? b0) with true by (symmetry; apply Z.ltb_lt; lia).
  reflexivity.
Qed.

Lemma iterate_insert_first_fails (keep : Z -> result bool) (e : error)
    (x : Z) (rest : list Z) (t : TreeNode) :
  keep x = Err e -> iterate (insert_if keep) (x :: rest) t = Err e.
Proof.
  intros Hk. cbn [iterate]. unfold insert_if at 1. rewrite Hk. reflexivity.
Qed.

Lemma length_cons_pos (A : Type) (x : A) (l : list A) :
  0 < Z.of_nat (length (x :: l)).
Proof. cbn [length]. lia. Qed.

(** ** The loop of ContainsAll and ContainsOnly *)

(** The loop over [length l + k] indices of an array of [length l]
    elements, each of which the search answers by [p]: it breaks with
    false at the first element that is not found, and reads past the
    array when all are found and [k] is not zero. *)
Lemma all_found_loop (search : Z -> result bool) (p : Z -> bool) (k : nat)
    (l : list Z) : forall (pre : list Z),
  (forall x, In x l -> search x = Ok (p x)) ->
  for_loop (length l + k) (Z.of_nat (length pre))
    (fun i res =>
       x <- load (pre ++ l) i ;;
       found <- search x ;;
       if negb found then Ok (Break false) else Ok (Next res))
    true
  = if forallb p l then
      match k with O => Ok true | S _ => Err OutOfBounds end
    else Ok false.
Proof.
  induction l as [|x l IH]; intros pre Hs.
  - cbn [length Nat.add forallb]. destruct k as [|k]; [reflexivity|].
    cbn [for_loop]. rewrite load_out by (rewrite app_nil_r; lia). reflexivity.
  - cbn [length Nat.add for_loop forallb]. rewrite load_app. cbn [bind].
    rewrite (Hs x (or_introl eq_refl)). cbn [bind].
    destruct (p x); cbn [negb andb]; [|reflexivity].
    specialize (IH (pre ++ [x])).
    rewrite length_app, <- app_assoc in IH. cbn [length app] in IH.
    replace (Z.of_nat (length pre) + 1) with (Z.of_nat (length pre + 1)) by lia.
    apply IH. intros y Hy. apply Hs. right. exact Hy.
Qed.

Lemma all_found_first_fails (search : Z -> result bool) (e : error) (n : nat)
    (x : Z) (l : list Z) :
  search x = Err e ->
  for_loop (S n) 0
    (fun i res =>
       y <- load (x :: l) i ;;
       found <- search y ;;
       if negb found then Ok (Break false) else Ok (Next res))
    true
  = Err e.
Proof.
  intros Hs. cbn [for_loop]. change (load (x :: l) 0) with (Ok x).
  cbn [bind]. rewrite Hs. reflexivity.
Qed.

(** ** The comparison loop, on arrays of any two lengths *)

Lemma Z_list_eqb_cons (x y : Z) (a b : list Z) :
  Z_list_eqb (x :: a) (y :: b) = (x =? y) && Z_list_eqb a b.
Proof.
  unfold Z_list_eqb.
  destruct (Z.eqb_spec x y) as [->|Hne]; cbn [andb].
  - destruct (list_eq_dec Z.eq_dec a b) as [E|E];
      destruct (list_eq_dec Z.eq_dec (y :: a) (y :: b)) as [E'|E'];
      try reflexivity; congruence.
  - destruct (list_eq_dec Z.eq_dec (x :: a) (y :: b));
      [congruence | reflexivity].
Qed.

Lemma Z_list_eqb_eq (a b : list Z) : Z_list_eqb a b = true <-> a = b.
Proof.
  unfold Z_list_eqb. destruct (list_eq_dec Z.eq_dec a b); split; intros H;
    try assumption; try reflexivity; try discriminate; contradiction.
Qed.

Lemma prefix_firstn (a b : list Z) :
  Z_list_eqb a (firstn (length a) b) = true <-> exists c, b = a ++ c.
Proof.
  rewrite Z_list_eqb_eq. split.
  - intros E. exists (skipn (length a) b).
    rewrite E at 1. symmetry. apply firstn_skipn.
  - intros (c & ->). rewrite firstn_app, Nat.sub_diag, firstn_all.
    cbn [firstn]. rewrite app_nil_r. reflexivity.
Qed.

(** Rounds [length a1 .. length a1 + length a2 - 1] of the loop of
    [numsEqual], on the arrays [a1 ++ a2 ++ a3] and [b1 ++ b2]. *)
Lemma numsEqual_rounds (a2 : list Z) : forall (a1 a3 b1 b2 : list Z),
  length a1 = length b1 ->
  for_loop (length a2) (Z.of_nat (length a1))
    (fun i _ =>
       x <- load (a1 ++ a2 ++ a3) i ;;
       y <- load (b1 ++ b2) i ;;
       if negb (x =? y) then Ok (Break false) else Ok (Next true))
    true
  = if (length a2 <=? length b2)%nat
    then Ok (Z_list_eqb a2 (firstn (length a2) b2))
    else if Z_list_eqb (firstn (length b2) a2) b2 then Err OutOfBounds
    else Ok false.
Proof.
  induction a2 as [|x a2 IH]; intros a1 a3 b1 b2 H1; [reflexivity|].
  cbn [length for_loop]. change ((x :: a2) ++ a3) with (x :: (a2 ++ a3)).
  rewrite load_app. cbn [bind]. rewrite H1.
  destruct b2 as [|y b2].
  - rewrite load_out by (rewrite app_nil_r; lia). reflexivity.
  - rewrite load_app. cbn [bind length firstn].
    change (S (length a2) <=? S (length b2))%nat
      with (length a2 <=? length b2)%nat.
    rewrite !Z_list_eqb_cons.
    destruct (Z.eqb_spec x y) as [->|Hne]; cbn [negb andb].
    + specialize (IH (a1 ++ [y]) a3 (b1 ++ [y]) b2).
      rewrite !length_app, <- !app_assoc in IH. cbn [length app] in IH.
      replace (Z.of_nat (length b1) + 1) with (Z.of_nat (length a1 + 1))
        by lia.
      apply IH. lia.
    + destruct (length a2 <=? length b2)%nat; reflexivity.
Qed.

Lemma numsEqual_any (n : nat) (a b : list Z) :
  (n <= length a)%nat ->
  numsEqual a b (Z.of_nat n)
  = if (n <=? length b)%nat
    then Ok (Z_list_eqb (firstn n a) (firstn n b))
    else if Z_list_eqb (firstn (length b) a) b then Err OutOfBounds
    else Ok false.
Proof.
  intros Hn. unfold numsEqual, for_upto. rewrite Nat2Z.id.
  pose proof (numsEqual_rounds (firstn n a) [] (skipn n a) [] b eq_refl) as H.
  cbn [app length] in H. change (Z.of_nat 0) with 0 in H.
  rewrite firstn_skipn in H.
  rewrite length_firstn, Nat.min_l in H by exact Hn. rewrite H.
  destruct (Nat.leb_spec n (length b)) as [Hb|Hb]; [reflexivity|].
  rewrite firstn_firstn, Nat.min_l by lia. reflexivity.
Qed.

(** [numsEqual] over the length of [a] answers false when neither
    array is a prefix of the other. *)
Lemma numsEqual_no_prefix (a b : list Z) :
  (forall c, b <> a ++ c) -> (forall c, a <> b ++ c) ->
  numsEqual a b (Z.of_nat (length a)) = Ok false.
Proof.
  intros Hab Hba. rewrite (numsEqual_any (length a) a b (le_n _)).
  rewrite firstn_all.
  destruct (length a <=? length b)%nat.
  - destruct (Z_list_eqb a (firstn (length a) b)) eqn:E; [|reflexivity].
    apply prefix_firstn in E. destruct E as (c & E).
    exfalso. exact (Hab c E).
  - destruct (Z_list_eqb (firstn (length b) a) b) eqn:E; [|reflexivity].
    apply Z_list_eqb_eq in E. exfalso. apply (Hba (skipn (length b) a)).
    pose proof (firstn_skipn (length b) a) as F. rewrite E in F.
    symmetry. exact F.
Qed.

Lemma numsEqual_longer (b c : list Z) :
  c <> [] -> numsEqual (b ++ c) b (Z.of_nat (length (b ++ c)))
             = Err OutOfBounds.
Proof.
  intros Hc. rewrite (numsEqual_any (length (b ++ c)) (b ++ c) b (le_n _)).
  rewrite length_app.
  replace (length b + length c <=? length b)%nat with false
    by (symmetry; apply Nat.leb_gt; destruct c; [congruence|cbn [length]; lia]).
  rewrite firstn_app, Nat.sub_diag, firstn_all. cbn [firstn].
  rewrite app_nil_r.
  replace (Z_list_eqb b b) with true
    by (symmetry; apply Z_list_eqb_eq; reflexivity).
  reflexivity.
Qed.

(** ** The tree, further *)

Lemma store_out (A : Type) (arr : list A) (i : Z) (x : A) :
  Z.of_nat (length arr) <= i -> store arr i x = Err OutOfBounds.
Proof.
  intros H. unfold store.
  replace (i <? Z.of_nat (length arr)) with false
    by (symmetry; apply Z.ltb_ge; exact H).
  rewrite andb_false_r. reflexivity.
Qed.

(** A buffer with fewer free slots than the tree has nodes. *)
Lemma treeToArr_short (t : TreeNode) : forall (pre rest : list Z),
  (length rest < length (inorder t))%nat ->
  Z.of_nat (length pre) + Z.of_nat (length (inorder t)) <= INT_MAX ->
  treeToArr t (pre ++ rest) (Z.of_nat (length pre)) = Err OutOfBounds.
Proof.
  induction t as [|d l IHl r IHr]; intros pre rest Hlen Hmax;
    [cbn [inorder length] in Hlen; lia|].
  cbn [inorder] in Hlen, Hmax. rewrite length_app in Hlen, Hmax.
  cbn [length] in Hlen, Hmax.
  cbn [treeToArr]. rewrite treeToArr_guard.
  destruct (Nat.lt_ge_cases (length rest) (length (inorder l))) as [Hl|Hl].
  - rewrite (IHl pre rest Hl) by lia. reflexivity.
  - rewrite <- (firstn_skipn (length (inorder l)) rest).
    set (mid := firstn (length (inorder l)) rest).
    set (post := skipn (length (inorder l)) rest).
    assert (Hmid : length mid = length (inorder l))
      by (subst mid; rewrite length_firstn; lia).
    assert (Hpost : (length post + length (inorder l) = length rest)%nat)
      by (subst post; rewrite length_skipn; lia).
    rewrite (treeToArr_spec l pre mid post Hmid) by lia.
    cbn [bind].
    replace (pre ++ inorder l ++ post) with ((pre ++ inorder l) ++ post)
      by (rewrite <- app_assoc; reflexivity).
    replace (Z.of_nat (length pre + length mid))
      with (Z.of_nat (length (pre ++ inorder l)))
      by (rewrite length_app; lia).
    destruct post as [|y post].
    + rewrite store_out by (rewrite app_nil_r; lia). reflexivity.
    + rewrite store_app. cbn [bind]. unfold int_incr.
      replace (Z.of_nat (length (pre ++ inorder l)) <? INT_MAX) with true
        by (symmetry; apply Z.ltb_lt; rewrite length_app; lia).
      cbn [bind]. rewrite treeToArr_guard.
      replace ((pre ++ inorder l) ++ d :: post)
        with ((pre ++ inorder l ++ [d]) ++ post)
        by (rewrite <- !app_assoc; reflexivity).
      replace (Z.of_nat (length (pre ++ inorder l)) + 1)
        with (Z.of_nat (length (pre ++ inorder l ++ [d])))
        by (rewrite !length_app; cbn [length]; lia).
      apply IHr.
      * cbn [length] in Hpost. lia.
      * rewrite !length_app. cbn [length]. lia.
Qed.

Lemma NoDup_length_le (l l' : list Z) :
  NoDup l -> (forall x, In x l -> In x l') -> (length l <= length l')%nat.
Proof. intros Hn Hi. apply NoDup_incl_length; assumption. Qed.

(** ** The textual form, character by character *)

Lemma render_members_chars (v : list Z) :
  Forall is_u32 v ->
  Forall (fun c => is_digit c = true \/ c = ","%char) (render_members v).
Proof.
  induction 1 as [|x v Hx Hv IH]; cbn [render_members]; [constructor|].
  assert (Hd : Forall (fun c => is_digit c = true \/ c = ","%char) (utoa x)).
  { eapply Forall_impl; [|apply utoa_digits; apply Hx].
    intros c Hc. left. exact Hc. }
  destruct v as [|y v]; [exact Hd|].
  apply Forall_app. split; [exact Hd|].
  constructor; [right; reflexivity | exact IH].
Qed.

Lemma render_members_length (v : list Z) :
  v <> [] ->
  S (length (render_members v)) = (length (all_digits v) + length v)%nat.
Proof.
  intros Hne. rewrite <- with_commas_length, (with_commas_members v Hne).
  rewrite length_app. cbn [length]. lia.
Qed.
(* ================================================================== *)
(** * The claims *)

(** Well-formedness of a text and of a value written out. *)
Ltac cstring_concrete :=
  split; [repeat constructor; discriminate | reflexivity].

Ltac wf_concrete :=
  split;
  [ repeat constructor
  | split; [repeat constructor; lia | vm_compute; discriminate] ].

(** C1: ContainsAll(a, b) is to return false when a.count < b.count and
    otherwise true exactly when every element of b is found in a.  At
    a = {1,2} and b = {1} both values are well formed, a is not shorter
    than b and the one element of b is in a, yet [intset_contain_all]
    returns false: its [bsize] is the byte size of b (4), not its count
    (1), so the early exit compares 2 < 4. *)
Theorem contain_all_compares_byte_size : forall fuel : nat,
  wf_intSet [1; 2] /\ wf_intSet [1] /\
  (length [1] <= length [1; 2])%nat /\
  (forall x, In x [1] -> In x [1; 2]) /\
  intset_contain_all fuel [1; 2] [1] = Ok false.
Proof.
  intros fuel. splits.
  - wf_concrete.
  - wf_concrete.
  - cbn. lia.
  - intros x [<-|[]]. left. reflexivity.
  - reflexivity.
Qed.

(** C2: the operations other than Parse are to be total on well-formed
    values, every array index within bounds.  On well-formed values the
    source reads outside an array in three ways: Difference({1}, {})
    searches the empty array up to index [bsize - 1], which wraps to
    4294967295; Contains({5}, 3) follows [mid - 1] from [mid = 0] to
    the same bound, as does Difference({1,2,3}, {2}) on its first
    element; and ContainsAll({1,2,3,4}, {1}) reads [bnums[1]] of a
    one-element array, since its loop runs over the byte size of b. *)
Theorem operators_read_out_of_bounds : forall fuel : nat,
  wf_intSet [1] /\ wf_intSet [] /\ wf_intSet [5] /\ wf_intSet [2] /\
  wf_intSet [1; 2; 3] /\ wf_intSet [1; 2; 3; 4] /\
  intset_diff (S fuel) [1] [] = Err OutOfBounds /\
  intset_contains (S (S fuel)) 3 [5] = Err OutOfBounds /\
  intset_diff (S (S fuel)) [1; 2; 3] [2] = Err OutOfBounds /\
  intset_contain_all (S (S fuel)) [1; 2; 3; 4] [1] = Err OutOfBounds.
Proof.
  intros fuel. splits; try reflexivity; wf_concrete.
Qed.

(** C3: SymmetricDifference(a, b) is to return the empty value when a
    equals b pointwise and otherwise the elements in exactly one of the
    operands.  At a = {1} and b = {1,2} the operands differ and 2 is in
    b alone, yet [intset_disjunctn] returns the empty value: its
    equality test compares the first [asize] positions only. *)
Theorem disjunctn_prefix_is_empty : forall fuel : nat,
  wf_intSet [1] /\ wf_intSet [1; 2] /\
  [1] <> [1; 2] /\ In 2 [1; 2] /\ ~ In 2 [1] /\
  intset_disjunctn fuel [1] [1; 2] = Ok [].
Proof.
  intros fuel. splits; try reflexivity.
  - wf_concrete.
  - wf_concrete.
  - discriminate.
  - right. left. reflexivity.
  - intros [H|[]]. discriminate.
Qed.

(** C4: for every well-formed value v, Parse(Render(v)) = v:
    [intset_out] returns a text, and [intset_in] returns v on it. *)
Theorem parse_render_roundtrip (v : intSet) :
  wf_intSet v ->
  exists text, intset_out v = Ok text /\ intset_in text = Ok v.
Proof.
  intros Hwf. exists (render v). split.
  - apply intset_out_render. exact Hwf.
  - apply intset_in_render. exact Hwf.
Qed.

Lemma parse_render_roundtrip_witness :
  wf_intSet [0; 7; 42; 4294967295] /\
  exists text, intset_out [0; 7; 42; 4294967295] = Ok text /\
               intset_in text = Ok [0; 7; 42; 4294967295].
Proof.
  assert (H : wf_intSet [0; 7; 42; 4294967295]).
  { wf_concrete. }
  split; [exact H | exact (parse_render_roundtrip _ H)].
Defined.

(** C5: on every text of the grammar, Parse returns the value whose
    elements are exactly the 32-bit values of the digit runs of the
    text, without duplicates and in ascending order; and
    Parse("{3, 1, 2, 1}") is the value of elements 1, 2, 3. *)
Theorem parse_digit_runs (text : list ascii) :
  grammar text -> wf_cstring text ->
  (exists v, intset_in text = Ok v /\
             StronglySorted Z.lt v /\ NoDup v /\
             (forall x, In x v <->
                        exists run, maximal_run text run /\
                                    x = run_value run)) /\
  intset_in (list_ascii_of_string "{3, 1, 2, 1}") = Ok [1; 2; 3].
Proof.
  intros Hg Hwf. split; [|reflexivity].
  destruct (intset_in_spec text Hg (wf_cstring_bound text Hwf))
    as (t & Ht & Hinv & Hsz & Hin).
  exists (inorder t). split; [exact Ht|].
  destruct (tree_inv_sorted t Hinv) as (Hs & _).
  split; [exact Hs|]. split; [apply sorted_NoDup; exact Hs|].
  intros x. rewrite Hin, in_map_iff. split.
  - intros (run & E & Hrun). exists run.
    split; [apply digit_runs_maximal; exact Hrun | congruence].
  - intros (run & Hrun & E). exists run.
    split; [congruence | apply digit_runs_maximal; exact Hrun].
Qed.

Lemma grammar_by_matching (text : list ascii) :
  matches intset_regex text = true -> grammar text.
Proof. intros H. apply grammar_Matches, matches_Matches. exact H. Qed.

Lemma parse_digit_runs_witness :
  let text := list_ascii_of_string "{3, 1, 2, 1}" in
  grammar text /\ wf_cstring text /\
  ((exists v, intset_in text = Ok v /\
              StronglySorted Z.lt v /\ NoDup v /\
              (forall x, In x v <->
                         exists run, maximal_run text run /\
                                     x = run_value run)) /\
   intset_in (list_ascii_of_string "{3, 1, 2, 1}") = Ok [1; 2; 3]).
Proof.
  intros text.
  assert (Hg : grammar text) by (apply grammar_by_matching; reflexivity).
  assert (Hwf : wf_cstring text) by cstring_concrete.
  split; [exact Hg|]. split; [exact Hwf|].
  exact (parse_digit_runs text Hg Hwf).
Defined.

(** C6: every value produced by Parse, Union, Intersection, Difference
    or SymmetricDifference is canonical: its elements are strictly
    increasing, without duplicates, and as many as its count. *)
Theorem produced_values_canonical (v : intSet) : produced v -> canonical v.
Proof.
  intros Hp. apply produced_canonical; [exact Hp|].
  intros str Hv Hwf. apply (intset_in_canonical str v Hwf Hv).
Qed.

Lemma produced_values_canonical_witness :
  produced [1; 2; 3] /\ canonical [1; 2; 3].
Proof.
  assert (Hp : produced [1; 2; 3]).
  { apply (produced_union [1; 2] [2; 3]).
    - wf_concrete.
    - wf_concrete.
    - reflexivity. }
  split; [exact Hp | exact (produced_values_canonical _ Hp)].
Defined.

(** C7: Parse fails with InvalidSyntax, carrying the text, exactly when
    the text does not match the grammar; on a match it succeeds; it
    fails in no other way; and no other operation raises the error. *)
Theorem parse_fails_iff_not_grammar (text : list ascii) :
  wf_cstring text ->
  (intset_in text = Err (InvalidSyntax text) <-> ~ grammar text) /\
  (grammar text -> exists v, intset_in text = Ok v) /\
  (forall e, intset_in text = Err e -> e = InvalidSyntax text) /\
  (forall (fuel : nat) (i : Z) (a b : intSet),
     quiet (intset_out a) /\
     quiet (intset_union a b) /\
     quiet (intset_intersectn fuel a b) /\
     quiet (intset_contain_all fuel a b) /\
     quiet (intset_contain_only fuel a b) /\
     quiet (intset_equal a b) /\
     quiet (intset_not_equal a b) /\
     quiet (intset_contains fuel i a) /\
     quiet (intset_disjunctn fuel a b) /\
     quiet (intset_diff fuel a b)).
Proof.
  intros Hwf. pose proof (wf_cstring_bound text Hwf) as Hlen.
  assert (Hok : grammar text -> exists v, intset_in text = Ok v).
  { intros Hg. destruct (intset_in_spec text Hg Hlen) as (t & Ht & _).
    exists (inorder t). exact Ht. }
  splits.
  - split.
    + intros He Hg. destruct (Hok Hg) as (v & Hv). congruence.
    + apply intset_in_invalid.
  - exact Hok.
  - intros e He. destruct (grammar_dec text) as [Hg|Hg].
    + destruct (Hok Hg) as (v & Hv). congruence.
    + rewrite (intset_in_invalid text Hg) in He. congruence.
  - intros fuel i a b. apply operators_quiet.
Qed.

Lemma parse_fails_iff_not_grammar_witness :
  let text := list_ascii_of_string "{1,}" in
  wf_cstring text /\ intset_in text = Err (InvalidSyntax text) /\
  ~ grammar text.
Proof.
  intros text.
  assert (Hwf : wf_cstring text) by cstring_concrete.
  assert (He : intset_in text = Err (InvalidSyntax text)) by reflexivity.
  split; [exact Hwf|]. split; [exact He|].
  exact (proj1 (proj1 (parse_fails_iff_not_grammar text Hwf)) He).
Defined.

(** C8: every construction tree reachable from the empty tree by Insert
    operations is a binary search tree (left < node < right at every
    node) and is height-balanced (at every node the height of the left
    subtree minus that of the right one is -1, 0 or 1); the height that
    [treeHeight] computes on it is its height, and a further Insert
    returns a tree (no rotation meets a missing child). *)
Theorem reachable_bst_balanced (t : TreeNode) :
  reachable t ->
  bst t /\ avl t /\ treeHeight t = height t /\
  (forall n, is_u32 n -> exists t', insertNode n t = Ok t').
Proof.
  intros Hr. pose proof (reachable_inv t Hr) as Hinv.
  split; [|split; [|split]].
  - destruct Hinv as (Hb & _). eapply bounded_bst. exact Hb.
  - apply Hinv.
  - apply tree_inv_height. exact Hinv.
  - intros n Hn. destruct (insertNode_inv n t Hinv Hn) as (t' & Ht & _).
    exists t'. exact Ht.
Qed.

Lemma reachable_bst_balanced_witness :
  let t := Node 2 (Node 1 NULL NULL) (Node 3 NULL NULL) in
  reachable t /\ bst t /\ avl t /\ treeHeight t = height t /\
  (forall n, is_u32 n -> exists t', insertNode n t = Ok t').
Proof.
  intros t.
  assert (Hr : reachable t).
  { apply (reach_insert 2 (Node 3 (Node 1 NULL NULL) NULL));
      [|split; [discriminate | reflexivity] | reflexivity].
    apply (reach_insert 1 (Node 3 NULL NULL));
      [|split; [discriminate | reflexivity] | reflexivity].
    apply (reach_insert 3 NULL);
      [|split; [discriminate | reflexivity] | reflexivity].
    apply reach_empty. }
  split; [exact Hr | exact (reachable_bst_balanced t Hr)].
Defined.

(** C9: for every digit run of a text of the grammar, the 32-bit
    accumulator of Parse, taken left to right in base 10, ends at the
    decimal value of the run modulo 2^32, and that is an element of the
    value returned; no error is raised when the run exceeds 32 bits. *)
Theorem parse_accumulates_mod_2_32 (text run : list ascii) :
  grammar text -> wf_cstring text -> maximal_run text run ->
  fold_left accumulate run 0 = decimal_value run mod 2 ^ 32 /\
  exists v, intset_in text = Ok v /\ In (decimal_value run mod 2 ^ 32) v.
Proof.
  intros Hg Hwf Hrun. split.
  - apply accumulate_run. apply scanned_run_maximal in Hrun. apply Hrun.
  - destruct (intset_in_spec text Hg (wf_cstring_bound text Hwf))
      as (t & Ht & _ & _ & Hin).
    exists (inorder t). split; [exact Ht|].
    apply Hin. apply in_map_iff. exists run.
    split; [reflexivity | apply digit_runs_maximal; exact Hrun].
Qed.

Lemma parse_accumulates_mod_2_32_witness :
  let text := list_ascii_of_string "{4294967297, 5}" in
  let run := list_ascii_of_string "4294967297" in
  grammar text /\ wf_cstring text /\ maximal_run text run /\
  fold_left accumulate run 0 = decimal_value run mod 2 ^ 32 /\
  exists v, intset_in text = Ok v /\ In (decimal_value run mod 2 ^ 32) v.
Proof.
  intros text run.
  assert (Hg : grammar text) by (apply grammar_by_matching; reflexivity).
  assert (Hwf : wf_cstring text) by cstring_concrete.
  assert (Hrun : maximal_run text run)
    by (apply digit_runs_maximal; left; reflexivity).
  split; [exact Hg|]. split; [exact Hwf|]. split; [exact Hrun|].
  exact (parse_accumulates_mod_2_32 text run Hg Hwf Hrun).
Defined.

(** C10: for every value b, SymmetricDifference(empty, b) returns the
    empty value: the equality test of [intset_disjunctn] runs over the
    first count(a) = 0 positions and succeeds at once. *)
Theorem disjunctn_empty_left : forall (fuel : nat) (b : intSet),
  intset_disjunctn fuel [] b = Ok [].
Proof. intros fuel b. reflexivity. Qed.

(* ================================================================== *)
(** * Further properties of the operators, the tree and the codec *)

(** ** The operators that search *)

(** X1: Intersection of two well-formed values.  With an empty operand
    the result is empty.  Otherwise the function walks the operand with
    fewer elements ([b] on a tie) and searches the other one: when the
    least element of the walked operand is below the least element of
    the searched one, the first search reads outside the array; in every
    other case the result is the walked operand restricted to the
    elements of the other, in ascending order. *)
Theorem intersectn_common_elements (fuel : nat) (a b : intSet) :
  wf_intSet a -> wf_intSet b -> (33 <= fuel)%nat ->
  intset_intersectn fuel a b =
  match a, b with
  | [], _ => Ok []
  | _ :: _, [] => Ok []
  | a0 :: _, b0 :: _ =>
      if (length a <? length b)%nat then
        if a0 <? b0 then Err OutOfBounds
        else Ok (filter (fun x => mem x b) a)
      else
        if b0 <? a0 then Err OutOfBounds
        else Ok (filter (fun x => mem x a) b)
  end.
Proof.
  intros Ha Hb Hf.
  destruct (wf_size a Ha) as (Ea & La). destruct (wf_size b Hb) as (Eb & Lb).
  unfold intset_intersectn, VARDATA_ANY. rewrite Ea, Eb.
  destruct a as [|a0 ra]; [reflexivity|].
  destruct b as [|b0 rb];
    [rewrite orb_true_r; reflexivity|].
  pose proof (length_cons_pos Z a0 ra) as Pa.
  pose proof (length_cons_pos Z b0 rb) as Pb.
  replace (Z.of_nat (length (a0 :: ra)) =? 0) with false
    by (symmetry; apply Z.eqb_neq; lia).
  replace (Z.of_nat (length (b0 :: rb)) =? 0) with false
    by (symmetry; apply Z.eqb_neq; lia).
  cbn [orb].
  pose proof (sorted_first_le a0 ra (proj1 Ha)) as Fa.
  pose proof (sorted_first_le b0 rb (proj1 Hb)) as Fb.
  destruct (Z.ltb_spec (Z.of_nat (length (a0 :: ra)))
                       (Z.of_nat (length (b0 :: rb)))) as [Hlt|Hge].
  - replace (length (a0 :: ra) <? length (b0 :: rb))%nat with true
      by (symmetry; apply Nat.ltb_lt; lia).
    destruct (Z.ltb_spec a0 b0) as [H0|H0].
    + apply fill_first_fails; [exact Ha|].
      apply search_below_first; assumption.
    + apply (fill_filter _ (fun x => mem x (b0 :: rb))); [exact Ha|].
      intros x Hx. apply search_from_first; try assumption.
      specialize (Fa x Hx). lia.
  - replace (length (a0 :: ra) <? length (b0 :: rb))%nat with false
      by (symmetry; apply Nat.ltb_ge; lia).
    destruct (Z.ltb_spec b0 a0) as [H0|H0].
    + apply fill_first_fails; [exact Hb|].
      apply search_below_first; assumption.
    + apply (fill_filter _ (fun x => mem x (a0 :: ra))); [exact Hb|].
      intros x Hx. apply search_from_first; try assumption.
      specialize (Fb x Hx). lia.
Qed.

Lemma intersectn_common_elements_witness :
  wf_intSet [2; 3; 5] /\ wf_intSet [1; 2; 3; 4] /\ (33 <= 33)%nat /\
  intset_intersectn 33 [2; 3; 5] [1; 2; 3; 4] = Ok [2; 3].
Proof.
  assert (Ha : wf_intSet [2; 3; 5]) by wf_concrete.
  assert (Hb : wf_intSet [1; 2; 3; 4]) by wf_concrete.
  splits; [exact Ha | exact Hb | lia |].
  exact (intersectn_common_elements 33 _ _ Ha Hb (le_n 33)).
Defined.

(** X2: Difference of two well-formed values.  An empty [a] gives the
    empty value.  A non-empty [a] against an empty [b] reads outside the
    array ([bsize - 1] wraps), and so does an [a] whose least element is
    below the least element of [b].  In every other case the result is
    [a] without the elements of [b], in ascending order. *)
Theorem diff_remaining_elements (fuel : nat) (a b : intSet) :
  wf_intSet a -> wf_intSet b -> (33 <= fuel)%nat ->
  intset_diff fuel a b =
  match a, b with
  | [], _ => Ok []
  | _ :: _, [] => Err OutOfBounds
  | a0 :: _, b0 :: _ =>
      if a0 <? b0 then Err OutOfBounds
      else Ok (filter (fun x => negb (mem x b)) a)
  end.
Proof.
  intros Ha Hb Hf.
  destruct (wf_size a Ha) as (Ea & La). destruct (wf_size b Hb) as (Eb & Lb).
  unfold intset_diff, VARDATA_ANY. rewrite Ea, Eb.
  destruct a as [|a0 ra]; [reflexivity|].
  pose proof (length_cons_pos Z a0 ra) as Pa.
  replace (Z.of_nat (length (a0 :: ra)) =? 0) with false
    by (symmetry; apply Z.eqb_neq; lia).
  pose proof (sorted_first_le a0 ra (proj1 Ha)) as Fa.
  destruct b as [|b0 rb].
  - apply fill_first_fails; [exact Ha|].
    unfold not_found. rewrite (binarySearch_whole fuel [] a0 Hb Hf).
    reflexivity.
  - destruct (Z.ltb_spec a0 b0) as [H0|H0].
    + apply fill_first_fails; [exact Ha|].
      unfold not_found. rewrite search_below_first by assumption.
      reflexivity.
    + apply (fill_filter _ (fun x => negb (mem x (b0 :: rb)))); [exact Ha|].
      intros x Hx. unfold not_found.
      rewrite search_from_first; try assumption; [reflexivity|].
      specialize (Fa x Hx). lia.
Qed.

Lemma diff_remaining_elements_witness :
  wf_intSet [2; 3; 5] /\ wf_intSet [2; 5; 9] /\ (33 <= 33)%nat /\
  intset_diff 33 [2; 3; 5] [2; 5; 9] = Ok [3].
Proof.
  assert (Ha : wf_intSet [2; 3; 5]) by wf_concrete.
  assert (Hb : wf_intSet [2; 5; 9]) by wf_concrete.
  splits; [exact Ha | exact Hb | lia |].
  exact (diff_remaining_elements 33 _ _ Ha Hb (le_n 33)).
Defined.

(** X3: ContainsOnly on two well-formed values.  An empty [a] gives
    true, an [a] with more elements than [b] gives false.  Otherwise,
    when the least element of [a] is below the least element of [b] the
    first search reads outside the array, and in every other case the
    answer is whether all elements of [a] are elements of [b]. *)
Theorem contain_only_subset (fuel : nat) (a b : intSet) :
  wf_intSet a -> wf_intSet b -> (33 <= fuel)%nat ->
  intset_contain_only fuel a b =
  match a, b with
  | [], _ => Ok true
  | _ :: _, [] => Ok false
  | a0 :: _, b0 :: _ =>
      if (length b <? length a)%nat then Ok false
      else if a0 <? b0 then Err OutOfBounds
      else Ok (forallb (fun x => mem x b) a)
  end.
Proof.
  intros Ha Hb Hf.
  destruct (wf_size a Ha) as (Ea & La). destruct (wf_size b Hb) as (Eb & Lb).
  unfold intset_contain_only, VARDATA_ANY. rewrite Ea, Eb.
  destruct a as [|a0 ra]; [destruct b; reflexivity|].
  pose proof (length_cons_pos Z a0 ra) as Pa.
  destruct b as [|b0 rb].
  { replace (Z.of_nat (length (a0 :: ra)) >? Z.of_nat (length (@nil Z)))
      with true; [reflexivity|].
    symmetry. rewrite Z.gtb_ltb. apply Z.ltb_lt. cbn [length] in *. lia. }
  rewrite Z.gtb_ltb.
  destruct (Z.ltb_spec (Z.of_nat (length (b0 :: rb)))
                       (Z.of_nat (length (a0 :: ra)))) as [Hlt|Hge].
  { replace (length (b0 :: rb) <? length (a0 :: ra))%nat with true
      by (symmetry; apply Nat.ltb_lt; lia).
    reflexivity. }
  replace (length (b0 :: rb) <? length (a0 :: ra))%nat with false
    by (symmetry; apply Nat.ltb_ge; lia).
  pose proof (sorted_first_le a0 ra (proj1 Ha)) as Fa.
  unfold all_found, for_upto. rewrite Nat2Z.id.
  destruct (Z.ltb_spec a0 b0) as [H0|H0].
  - apply all_found_first_fails. apply search_below_first; assumption.
  - pose proof (all_found_loop
                  (fun x => binarySearch fuel (b0 :: rb) 0
                              (u32 (Z.of_nat (length (b0 :: rb)) - 1)) x)
                  (fun x => mem x (b0 :: rb)) 0 (a0 :: ra) []) as H.
    rewrite Nat.add_0_r in H. cbn [app] in H.
    change (Z.of_nat (length (@nil Z))) with 0 in H.
    rewrite H.
    + destruct (forallb _ _); reflexivity.
    + intros x Hx. apply search_from_first; try assumption.
      specialize (Fa x Hx). lia.
Qed.

Lemma contain_only_subset_witness :
  wf_intSet [2; 5] /\ wf_intSet [2; 3; 5] /\ (33 <= 33)%nat /\
  intset_contain_only 33 [2; 5] [2; 3; 5] = Ok true.
Proof.
  assert (Ha : wf_intSet [2; 5]) by wf_concrete.
  assert (Hb : wf_intSet [2; 3; 5]) by wf_concrete.
  splits; [exact Ha | exact Hb | lia |].
  exact (contain_only_subset 33 _ _ Ha Hb (le_n 33)).
Defined.



(** X5: SymmetricDifference of two well-formed values, in full.  When
    [a] is a prefix of [b] (equal values included) the result is empty,
    whatever else [b] holds.  When [b] is a proper prefix of [a] the
    comparison reads outside the array of [b].  Otherwise both values
    are non-empty: with different least elements one of the two search
    loops reads outside its array, and with the same least element the
    result is the canonical value of the elements that are in exactly
    one of [a] and [b]. *)
Theorem disjunctn_behaviour (fuel : nat) (a b : intSet) :
  wf_intSet a -> wf_intSet b -> (33 <= fuel)%nat ->
  (forall c, b = a ++ c -> intset_disjunctn fuel a b = Ok []) /\
  (forall c, c <> [] -> a = b ++ c ->
             intset_disjunctn fuel a b = Err OutOfBounds) /\
  ((forall c, b <> a ++ c) -> (forall c, a <> b ++ c) ->
   exists a0 ra b0 rb, a = a0 :: ra /\ b = b0 :: rb /\
     (a0 <> b0 -> intset_disjunctn fuel a b = Err OutOfBounds) /\
     (a0 = b0 ->
      exists v, intset_disjunctn fuel a b = Ok v /\ canonical v /\
        (forall x, In x v <->
                   (In x a /\ ~ In x b) \/ (In x b /\ ~ In x a)))).
Proof.
  intros Ha Hb Hf.
  destruct (wf_size a Ha) as (Ea & La). destruct (wf_size b Hb) as (Eb & Lb).
  splits.
  - intros c ->. apply intset_disjunctn_prefix. exact Ha.
  - intros c Hc ->. unfold intset_disjunctn, VARDATA_ANY. rewrite Ea.
    rewrite numsEqual_longer by exact Hc. reflexivity.
  - intros Hab Hba.
    destruct a as [|a0 ra]; [exfalso; exact (Hab b eq_refl)|].
    destruct b as [|b0 rb]; [exfalso; exact (Hba (a0 :: ra) eq_refl)|].
    exists a0, ra, b0, rb. split; [reflexivity|]. split; [reflexivity|].
    pose proof (sorted_first_le a0 ra (proj1 Ha)) as Fa.
    pose proof (sorted_first_le b0 rb (proj1 Hb)) as Fb.
    pose proof Ha as (_ & Ua & _). pose proof Hb as (_ & Ub & _).
    assert (Hstart : intset_disjunctn fuel (a0 :: ra) (b0 :: rb) =
              (d <- iterate (insert_if (not_found fuel (b0 :: rb)
                      (Z.of_nat (length (b0 :: rb))))) (a0 :: ra) NULL ;;
               d <- insert_selected (not_found fuel (a0 :: ra)
                      (Z.of_nat (length (a0 :: ra)))) (b0 :: rb)
                      (Z.of_nat (length (b0 :: rb))) d ;;
               tree_to_intSet d)).
    { unfold intset_disjunctn, VARDATA_ANY. rewrite Ea, Eb.
      rewrite (numsEqual_no_prefix _ _ Hab Hba). cbn [bind].
      rewrite insert_selected_iterate. reflexivity. }
    rewrite Hstart. clear Hstart.
    assert (Ka : a0 < b0 -> not_found fuel (b0 :: rb)
                   (Z.of_nat (length (b0 :: rb))) a0 = Err OutOfBounds).
    { intros H. unfold not_found.
      rewrite search_below_first by assumption. reflexivity. }
    assert (Kb : b0 < a0 -> not_found fuel (a0 :: ra)
                   (Z.of_nat (length (a0 :: ra))) b0 = Err OutOfBounds).
    { intros H. unfold not_found.
      rewrite search_below_first by assumption. reflexivity. }
    assert (Sa : b0 <= a0 -> forall x, In x (a0 :: ra) ->
                 not_found fuel (b0 :: rb) (Z.of_nat (length (b0 :: rb))) x
                 = Ok (negb (mem x (b0 :: rb)))).
    { intros H x Hx. unfold not_found.
      rewrite search_from_first; try assumption; [reflexivity|].
      specialize (Fa x Hx). lia. }
    assert (Sb : a0 <= b0 -> forall x, In x (b0 :: rb) ->
                 not_found fuel (a0 :: ra) (Z.of_nat (length (a0 :: ra))) x
                 = Ok (negb (mem x (a0 :: ra)))).
    { intros H x Hx. unfold not_found.
      rewrite search_from_first; try assumption; [reflexivity|].
      specialize (Fb x Hx). lia. }
    split.
    + intros Hne. destruct (Z_lt_le_dec a0 b0) as [Hlt|Hge].
      * rewrite (iterate_insert_first_fails _ OutOfBounds) by (apply Ka; exact Hlt).
        reflexivity.
      * destruct (iterate_insert_filter _ _ (a0 :: ra) NULL Ua tree_inv_NULL
                    (Sa Hge)) as (t1 & E1 & I1 & _).
        rewrite E1. cbn [bind]. rewrite insert_selected_iterate.
        rewrite (iterate_insert_first_fails _ OutOfBounds)
          by (apply Kb; lia).
        reflexivity.
    + intros <-.
      destruct (iterate_insert_filter _ _ (a0 :: ra) NULL Ua tree_inv_NULL
                  (Sa (Z.le_refl a0))) as (t1 & E1 & I1 & L1 & M1).
      rewrite E1. cbn [bind]. rewrite insert_selected_iterate.
      destruct (iterate_insert_filter _ _ (a0 :: rb) t1 Ub I1
                  (Sb (Z.le_refl a0))) as (t2 & E2 & I2 & L2 & M2).
      rewrite E2. cbn [bind].
      cbn [inorder] in L1. change (length (@nil Z)) with 0%nat in L1.
      assert (Hsz : Z.of_nat (length (inorder t2)) < 2 ^ 30 - 1).
      { change (2 ^ 28) with 268435456 in *.
        change (2 ^ 30 - 1) with 1073741823. lia. }
      exists (inorder t2).
      split; [apply tree_to_intSet_inorder; exact Hsz|].
      split; [apply tree_inv_canonical; assumption|].
      intros x. rewrite M2, M1. cbn [inorder].
      rewrite !negb_true_iff.
      assert (Na : mem x (a0 :: ra) = false <-> ~ In x (a0 :: ra)).
      { rewrite <- mem_In. destruct (mem x (a0 :: ra)); split; congruence. }
      assert (Nb : mem x (a0 :: rb) = false <-> ~ In x (a0 :: rb)).
      { rewrite <- mem_In. destruct (mem x (a0 :: rb)); split; congruence. }
      rewrite Na, Nb. cbn [In]. tauto.
Qed.

Lemma disjunctn_behaviour_witness :
  wf_intSet [1; 2; 5] /\ wf_intSet [1; 3] /\ (33 <= 33)%nat /\
  intset_disjunctn 33 [1; 2; 5] [1; 2; 5; 9] = Ok [] /\
  intset_disjunctn 33 [1; 2; 5] [1; 2] = Err OutOfBounds /\
  intset_disjunctn 33 [1; 2; 5] [1; 3] = Ok [2; 3; 5].
Proof.
  assert (Ha : wf_intSet [1; 2; 5]) by wf_concrete.
  assert (Hb : wf_intSet [1; 3]) by wf_concrete.
  assert (Hc : wf_intSet [1; 2; 5; 9]) by wf_concrete.
  assert (Hd : wf_intSet [1; 2]) by wf_concrete.
  splits; [exact Ha | exact Hb | lia | | |].
  - exact (proj1 (disjunctn_behaviour 33 _ _ Ha Hc (le_n 33)) [9] eq_refl).
  - refine (proj1 (proj2 (disjunctn_behaviour 33 _ _ Ha Hd (le_n 33)))
              [5] _ eq_refl).
    discriminate.
  - reflexivity.
Defined.

(** ** The construction tree *)

(** X6: [treeEqual] answers true exactly on two trees of the same shape
    holding the same keys at the same places. *)
Theorem treeEqual_same_tree (a b : TreeNode) :
  treeEqual a b = true <-> a = b.
Proof.
  revert b. induction a as [|da la IHl ra IHr]; intros [|db lb rb];
    cbn [treeEqual]; try (split; [discriminate | congruence]);
    [split; reflexivity|].
  destruct (Z.eqb_spec da db) as [->|Hne]; cbn [negb].
  - rewrite andb_true_iff, IHl, IHr. split.
    + intros (-> & ->). reflexivity.
    + intros E. injection E as -> ->. split; reflexivity.
  - split; [discriminate | congruence].
Qed.

(** X7: a rotation that succeeds keeps the in-order sequence of the
    keys, keeps the search-tree ordering, and is undone by the opposite
    rotation; a rotation fails exactly when the child to lift is
    missing. *)
Theorem rotations_keep_order (t : TreeNode) :
  (forall t', left_rotate t = Ok t' ->
     inorder t' = inorder t /\ (bst t -> bst t') /\ right_rotate t' = Ok t) /\
  (forall t', right_rotate t = Ok t' ->
     inorder t' = inorder t /\ (bst t -> bst t') /\ left_rotate t' = Ok t) /\
  (left_rotate t = Err NullDereference <->
     t = NULL \/ exists d l, t = Node d l NULL) /\
  (right_rotate t = Err NullDereference <->
     t = NULL \/ exists d r, t = Node d NULL r).
Proof.
  splits.
  - intros t' H. destruct t as [|d l [|rd rl rr]]; try discriminate.
    cbn [left_rotate] in H. injection H as <-. splits.
    + cbn [inorder]. rewrite <- app_assoc. reflexivity.
    + cbn [bst inorder]. intros (Hl & Hr & Bl & (Hrl & Hrr & Brl & Brr)).
      apply Forall_app in Hr. destruct Hr as (Hr1 & Hr2).
      apply Forall_cons_iff in Hr2. destruct Hr2 as (Hd & Hr2).
      splits; try assumption.
      apply Forall_app. split.
      * apply (Forall_impl _ (fun x (H : x < d) => Z.lt_trans _ _ _ H Hd) Hl).
      * apply Forall_cons; assumption.
    + reflexivity.
  - intros t' H. destruct t as [|d [|ld ll lr] r]; try discriminate.
    cbn [right_rotate] in H. injection H as <-. splits.
    + cbn [inorder]. rewrite <- app_assoc. reflexivity.
    + cbn [bst inorder]. intros (Hl & Hr & (Hll & Hlr & Bll & Blr) & Br).
      apply Forall_app in Hl. destruct Hl as (Hl1 & Hl2).
      apply Forall_cons_iff in Hl2. destruct Hl2 as (Hd & Hl2).
      splits; try assumption.
      apply Forall_app. split; [exact Hlr|].
      apply Forall_cons; [exact Hd|].
      apply (Forall_impl _ (fun x (H : d < x) => Z.lt_trans _ _ _ Hd H) Hr).
    + reflexivity.
  - split.
    + intros H. destruct t as [|d l [|rd rl rr]]; try discriminate;
        [left; reflexivity | right; exists d, l; reflexivity].
    + intros [->|(d & l & ->)]; reflexivity.
  - split.
    + intros H. destruct t as [|d [|ld ll lr] r]; try discriminate;
        [left; reflexivity | right; exists d, r; reflexivity].
    + intros [->|(d & r & ->)]; reflexivity.
Qed.

(** X8: on a tree that satisfies the invariant, [insertNode] of a
    [uint32] key succeeds; the keys of the result are the old keys and
    the new one, in ascending order when traversed; the node count grows
    by one for a new key; and the height stays or grows by one. *)
Theorem insert_adds_key (n : Z) (t : TreeNode) :
  tree_inv t -> is_u32 n ->
  exists t', insertNode n t = Ok t' /\ tree_inv t' /\
    StronglySorted Z.lt (inorder t') /\
    (forall x, In x (inorder t') <-> x = n \/ In x (inorder t)) /\
    (~ In n (inorder t) ->
     length (inorder t') = S (length (inorder t))) /\
    height t <= height t' <= height t + 1.
Proof.
  intros Hinv Hn.
  destruct (insertNode_inv n t Hinv Hn) as (t' & Hins & Hinv' & Hin & Hlen).
  destruct (insertNode_height n t Hinv Hn) as (t'' & Hins' & Hh).
  rewrite Hins in Hins'. injection Hins' as <-.
  exists t'. splits; try assumption; try lia.
  - apply (tree_inv_sorted t' Hinv').
  - intros Hnew.
    assert (Hge : (length (n :: inorder t) <= length (inorder t'))%nat).
    { apply NoDup_length_le.
      - constructor; [exact Hnew|].
        apply sorted_NoDup. apply (tree_inv_sorted t Hinv).
      - intros x [<-|Hx]; apply Hin; [left; reflexivity | right; exact Hx]. }
    cbn [length] in Hge. lia.
Qed.

Lemma insert_adds_key_witness :
  let t := Node 2 (Node 1 NULL NULL) (Node 3 NULL NULL) in
  tree_inv t /\ is_u32 7 /\
  exists t', insertNode 7 t = Ok t' /\ tree_inv t' /\
    StronglySorted Z.lt (inorder t') /\
    (forall x, In x (inorder t') <-> x = 7 \/ In x (inorder t)) /\
    (~ In 7 (inorder t) ->
     length (inorder t') = S (length (inorder t))) /\
    height t <= height t' <= height t + 1.
Proof.
  intros t.
  assert (Hinv : tree_inv t).
  { split; cbn; [|lia]. lia. }
  assert (Hn : is_u32 7) by (split; [discriminate | reflexivity]).
  split; [exact Hinv|]. split; [exact Hn|].
  exact (insert_adds_key 7 t Hinv Hn).
Defined.

(** X9: duplicates leave the tree as it is: on a tree that satisfies
    the invariant, [insertNode] of a key that is present returns the
    very same tree, and so inserting a key twice is inserting it
    once. *)
Theorem insert_duplicate_unchanged (n : Z) (t : TreeNode) :
  tree_inv t -> is_u32 n ->
  (In n (inorder t) -> insertNode n t = Ok t) /\
  (forall t', insertNode n t = Ok t' -> insertNode n t' = Ok t').
Proof.
  intros Hinv Hn.
  assert (P : forall u, tree_inv u -> In n (inorder u) -> insertNode n u = Ok u).
  { intros u (Hb & Ha) Hin.
    apply (insertNode_present n u 0 (2 ^ 32)); try assumption; lia. }
  split; [apply P; exact Hinv|].
  intros t' Hins.
  destruct (insertNode_inv n t Hinv Hn) as (u & Hu & Hinv' & Hin & _).
  rewrite Hins in Hu. injection Hu as <-.
  apply P; [exact Hinv'|]. apply Hin. left. reflexivity.
Qed.

Lemma insert_duplicate_unchanged_witness :
  let t := Node 2 (Node 1 NULL NULL) (Node 3 NULL NULL) in
  tree_inv t /\ is_u32 3 /\ insertNode 3 t = Ok t.
Proof.
  intros t.
  assert (Hinv : tree_inv t).
  { split; cbn; [|lia]. lia. }
  assert (Hn : is_u32 3) by (split; [discriminate | reflexivity]).
  split; [exact Hinv|]. split; [exact Hn|].
  apply (proj1 (insert_duplicate_unchanged 3 t Hinv Hn)).
  right. right. left. reflexivity.
Defined.

(** X10: the height that [treeHeight] computes on a reachable tree is
    logarithmic in the number of nodes: a tree of height h holds at
    least 2^(h/2) - 1 keys, and h never exceeds 65. *)
Theorem reachable_height_logarithmic (t : TreeNode) :
  reachable t ->
  treeHeight t <= 65 /\
  2 ^ (treeHeight t / 2) <= Z.of_nat (length (inorder t)) + 1.
Proof.
  intros Hr. pose proof (reachable_inv t Hr) as Hinv.
  rewrite (tree_inv_height t Hinv). destruct Hinv as (Hb & Ha).
  pose proof (height_nonneg t) as H0.
  split; [apply (avl_height_bound t 0 (2 ^ 32)); try assumption; lia|].
  pose proof (avl_size (Z.to_nat (height t / 2)) t Ha) as Hs.
  rewrite Z2Nat.id in Hs by (apply Z.div_pos; lia).
  apply Hs. Z.to_euclidean_division_equations; lia.
Qed.

Lemma reachable_height_logarithmic_witness :
  let t := Node 2 (Node 1 NULL NULL) (Node 3 NULL NULL) in
  reachable t /\ treeHeight t <= 65 /\
  2 ^ (treeHeight t / 2) <= Z.of_nat (length (inorder t)) + 1.
Proof.
  intros t.
  assert (Hr : reachable t).
  { apply (reach_insert 2 (Node 3 (Node 1 NULL NULL) NULL));
      [|split; [discriminate | reflexivity] | reflexivity].
    apply (reach_insert 1 (Node 3 NULL NULL));
      [|split; [discriminate | reflexivity] | reflexivity].
    apply (reach_insert 3 NULL);
      [|split; [discriminate | reflexivity] | reflexivity].
    apply reach_empty. }
  split; [exact Hr | exact (reachable_height_logarithmic t Hr)].
Defined.

(** X11: [treeSize] is the number of nodes of the tree, modulo 2^32
    (its [uint32_t] result), whatever the tree. *)
Theorem treeSize_counts_nodes (t : TreeNode) :
  treeSize t = Z.of_nat (length (inorder t)) mod 2 ^ 32.
Proof.
  induction t as [|d l IHl r IHr]; [reflexivity|].
  cbn [treeSize inorder]. rewrite length_app. cbn [length].
  rewrite IHl, IHr. unfold u32.
  rewrite <- Z.add_mod by (change (2 ^ 32) with 4294967296; lia).
  rewrite Z.add_mod_idemp_l by (change (2 ^ 32) with 4294967296; lia).
  f_equal. lia.
Qed.

(** X12: [treeToArr] from index i writes the keys of the tree in
    in-order sequence into the slots i .. i + treeSize - 1 of the
    buffer, leaves every other slot as it was, and returns the next
    free index i + treeSize; on a buffer with fewer slots from i on
    than the tree has nodes it writes outside the buffer. *)
Theorem treeToArr_fills_segment (t : TreeNode) (pre mid post : list Z) :
  length mid = length (inorder t) ->
  Z.of_nat (length pre) + Z.of_nat (length mid) <= INT_MAX ->
  treeToArr t (pre ++ mid ++ post) (Z.of_nat (length pre))
  = Ok (pre ++ inorder t ++ post, Z.of_nat (length pre) + treeSize t) /\
  (forall short, (length short < length mid)%nat ->
     treeToArr t (pre ++ short) (Z.of_nat (length pre)) = Err OutOfBounds).
Proof.
  intros Hlen Hmax. unfold INT_MAX in Hmax. split.
  - rewrite (treeToArr_spec t pre mid post Hlen) by (unfold INT_MAX; lia).
    rewrite treeSize_length by (change (2 ^ 32) with 4294967296; lia).
    rewrite <- Hlen, Nat2Z.inj_add. reflexivity.
  - intros short Hs. apply treeToArr_short; unfold INT_MAX; lia.
Qed.

Lemma treeToArr_fills_segment_witness :
  let t := Node 2 (Node 1 NULL NULL) (Node 3 NULL NULL) in
  length [0; 0; 0] = length (inorder t) /\
  Z.of_nat (length [9]) + Z.of_nat (length [0; 0; 0]) <= INT_MAX /\
  treeToArr t [9; 0; 0; 0; 8] 1 = Ok ([9; 1; 2; 3; 8], 4) /\
  treeToArr t [9; 0; 0] 1 = Err OutOfBounds.
Proof.
  intros t.
  assert (H1 : length [0; 0; 0] = length (inorder t)) by reflexivity.
  assert (H2 : Z.of_nat (length [9]) + Z.of_nat (length [0; 0; 0]) <= INT_MAX)
    by (vm_compute; discriminate).
  split; [exact H1|]. split; [exact H2|]. split.
  - exact (proj1 (treeToArr_fills_segment t [9] [0; 0; 0] [8] H1 H2)).
  - refine (proj2 (treeToArr_fills_segment t [9] [0; 0; 0] [8] H1 H2)
              [0; 0] _).
    cbn. lia.
Defined.

(** ** Search and comparison *)

(** X13: [binarySearch] on an ascending array, over any index range
    within the array, returns within 33 nested calls; for a target not
    below the first element of the array it answers whether the target
    is in the range, and for a target below the first element, searched
    from index 0, it reads outside the array ([mid - 1] wraps). *)
Theorem binarySearch_sorted_range (fuel : nat) (n : list Z)
    (low high target : Z) :
  StronglySorted Z.lt n -> Z.of_nat (length n) < 2 ^ 31 ->
  (33 <= fuel)%nat ->
  0 <= low -> 0 <= high < Z.of_nat (length n) -> low - 1 <= high ->
  (nth 0 n 0 <= target ->
   exists b, binarySearch fuel n low high target = Ok b /\
     (b = true <->
      exists i, low <= i <= high /\ nth (Z.to_nat i) n 0 = target)) /\
  (low = 0 -> target < nth 0 n 0 ->
   binarySearch fuel n low high target = Err OutOfBounds).
Proof.
  intros Hs Hlen Hf Hlow Hhigh Hlh.
  change (2 ^ 31) with 2147483648 in Hlen. split.
  - intros Ht.
    destruct (binarySearch_range 32 n low high target Hs) as (b & Hb & Hiff);
      try assumption;
      try (change (2 ^ 31) with 2147483648;
           change (2 ^ Z.of_nat 32) with 4294967296; lia).
    exists b. split; [|exact Hiff].
    apply (binarySearch_fuel_mono 33 n low high target (Ok b) Hb);
      [discriminate | exact Hf].
  - intros -> Ht.
    apply (binarySearch_fuel_mono 33 n 0 high target);
      [|discriminate | exact Hf].
    apply (binarySearch_below 31 n high target Hs); try assumption;
      change (2 ^ 31) with 2147483648;
      change (2 ^ Z.of_nat 31) with 2147483648; lia.
Qed.

Lemma binarySearch_sorted_range_witness :
  StronglySorted Z.lt [1; 3; 5; 7] /\
  Z.of_nat (length [1; 3; 5; 7]) < 2 ^ 31 /\ (33 <= 33)%nat /\
  0 <= 1 /\ 0 <= 3 < Z.of_nat (length [1; 3; 5; 7]) /\ 1 - 1 <= 3 /\
  (nth 0 [1; 3; 5; 7] 0 <= 5 ->
   exists b, binarySearch 33 [1; 3; 5; 7] 1 3 5 = Ok b /\
     (b = true <->
      exists i, 1 <= i <= 3 /\ nth (Z.to_nat i) [1; 3; 5; 7] 0 = 5)).
Proof.
  assert (Hs : StronglySorted Z.lt [1; 3; 5; 7]) by (repeat constructor).
  assert (Hl : Z.of_nat (length [1; 3; 5; 7]) < 2 ^ 31) by reflexivity.
  assert (Hlow : 0 <= 1) by lia.
  assert (Hh : 0 <= 3 < Z.of_nat (length [1; 3; 5; 7])) by (cbn; lia).
  assert (Hlh : 1 - 1 <= 3) by lia.
  splits; try assumption; [lia|].
  exact (proj1 (binarySearch_sorted_range 33 [1; 3; 5; 7] 1 3 5
                  Hs Hl (le_n 33) Hlow Hh Hlh)).
Defined.



(** X15: Contains on a well-formed value answers true exactly for the
    elements of the value; it answers false exactly for a non-element
    that is not below the least element (or when the value is empty);
    and for a number below the least element of a non-empty value it
    reads outside the array. *)
Theorem contains_membership (fuel : nat) (i : Z) (a : intSet) :
  wf_intSet a -> (33 <= fuel)%nat ->
  (intset_contains fuel i a = Ok true <-> In i a) /\
  (intset_contains fuel i a = Ok false <->
   ~ In i a /\ (a = [] \/ nth 0 a 0 <= i)) /\
  (intset_contains fuel i a = Err OutOfBounds <->
   a <> [] /\ i < nth 0 a 0).
Proof.
  intros Ha Hf. rewrite (intset_contains_spec fuel i a Ha Hf).
  destruct a as [|first rest].
  { splits.
    - split; [discriminate | intros []].
    - split; [|reflexivity].
      intros _. split; [intros [] | left; reflexivity].
    - split; [discriminate | intros (H & _); congruence]. }
  pose proof (sorted_first_le first rest (proj1 Ha)) as Fa.
  cbn [nth].
  destruct (Z.ltb_spec i first) as [Hlt|Hge].
  - splits.
    + split; [discriminate|]. intros Hin. specialize (Fa i Hin). lia.
    + split; [discriminate|]. intros (_ & [H|H]); [discriminate | lia].
    + split; [|reflexivity]. intros _. split; [discriminate | exact Hlt].
  - destruct (in_dec Z.eq_dec i (first :: rest)) as [Hin|Hin]; splits.
    + split; [intros _; exact Hin | reflexivity].
    + split; [discriminate | intros (H & _); contradiction].
    + split; [discriminate | intros (_ & H); lia].
    + split; [discriminate | intros H; contradiction].
    + split; [|reflexivity]. intros _. split; [exact Hin | right; exact Hge].
    + split; [discriminate | intros (_ & H); lia].
Qed.

Lemma contains_membership_witness :
  wf_intSet [2; 3; 5] /\ (33 <= 33)%nat /\
  intset_contains 33 5 [2; 3; 5] = Ok true.
Proof.
  assert (Ha : wf_intSet [2; 3; 5]) by wf_concrete.
  split; [exact Ha|]. split; [lia|].
  apply (proj1 (contains_membership 33 5 [2; 3; 5] Ha (le_n 33))).
  right. right. left. reflexivity.
Defined.

(** X16: Equal and NotEqual on well-formed values always return, with
    opposite answers, and Equal answers true exactly when the two
    values have the same elements. *)
Theorem equal_same_elements (a b : intSet) :
  wf_intSet a -> wf_intSet b ->
  exists r, intset_equal a b = Ok r /\ intset_not_equal a b = Ok (negb r) /\
            (r = true <-> forall x, In x a <-> In x b).
Proof.
  intros Ha Hb. destruct (intset_equal_spec a b Ha Hb) as (He & Hn).
  exists (Z_list_eqb a b). split; [exact He|]. split; [exact Hn|].
  rewrite Z_list_eqb_eq. split.
  - intros ->. tauto.
  - intros H. apply sorted_unique; [apply Ha | apply Hb | exact H].
Qed.

Lemma equal_same_elements_witness :
  wf_intSet [1; 2; 3] /\ wf_intSet [1; 2; 4] /\
  exists r, intset_equal [1; 2; 3] [1; 2; 4] = Ok r /\
            intset_not_equal [1; 2; 3] [1; 2; 4] = Ok (negb r) /\
            (r = true <-> forall x, In x [1; 2; 3] <-> In x [1; 2; 4]).
Proof.
  assert (Ha : wf_intSet [1; 2; 3]) by wf_concrete.
  assert (Hb : wf_intSet [1; 2; 4]) by wf_concrete.
  split; [exact Ha|]. split; [exact Hb|].
  exact (equal_same_elements _ _ Ha Hb).
Defined.

(** ** Union and Cardinality *)

(** X17: Union of two well-formed values always returns; the result is
    ascending, of [uint32] elements, holds exactly the elements of
    either operand, and its Cardinality lies between the larger of the
    operands' cardinalities and their sum. *)
Theorem union_elements_and_count (a b : intSet) :
  wf_intSet a -> wf_intSet b ->
  exists v, intset_union a b = Ok v /\
    StronglySorted Z.lt v /\
    (forall x, In x v <-> In x a \/ In x b) /\
    Z.max (intset_cardinality a) (intset_cardinality b)
      <= intset_cardinality v
      <= intset_cardinality a + intset_cardinality b.
Proof.
  intros Ha Hb.
  destruct (intset_union_spec a b Ha Hb) as (v & Hv & (Hs & Hnd & Hc) & Hin).
  exists v. split; [exact Hv|]. split; [exact Hs|]. split; [exact Hin|].
  destruct (wf_size a Ha) as (_ & La). destruct (wf_size b Hb) as (_ & Lb).
  change (2 ^ 28) with 268435456 in La, Lb.
  rewrite <- Hc.
  rewrite (cardinality_length a), (cardinality_length b)
    by (change (2 ^ 64) with 18446744073709551616; lia).
  assert (H1 : (length a <= length v)%nat).
  { apply NoDup_length_le; [apply sorted_NoDup; apply Ha|].
    intros x Hx. apply Hin. left. exact Hx. }
  assert (H2 : (length b <= length v)%nat).
  { apply NoDup_length_le; [apply sorted_NoDup; apply Hb|].
    intros x Hx. apply Hin. right. exact Hx. }
  assert (H3 : (length v <= length (a ++ b))%nat).
  { apply NoDup_length_le; [exact Hnd|].
    intros x Hx. apply in_or_app. apply Hin. exact Hx. }
  rewrite length_app in H3. lia.
Qed.

Lemma union_elements_and_count_witness :
  wf_intSet [1; 2; 5] /\ wf_intSet [2; 3] /\
  exists v, intset_union [1; 2; 5] [2; 3] = Ok v /\
    StronglySorted Z.lt v /\
    (forall x, In x v <-> In x [1; 2; 5] \/ In x [2; 3]) /\
    Z.max (intset_cardinality [1; 2; 5]) (intset_cardinality [2; 3])
      <= intset_cardinality v
      <= intset_cardinality [1; 2; 5] + intset_cardinality [2; 3].
Proof.
  assert (Ha : wf_intSet [1; 2; 5]) by wf_concrete.
  assert (Hb : wf_intSet [2; 3]) by wf_concrete.
  split; [exact Ha|]. split; [exact Hb|].
  exact (union_elements_and_count _ _ Ha Hb).
Defined.

(** X18: on well-formed values Union is commutative and idempotent, and
    the empty value is its neutral element. *)
Theorem union_algebra (a b : intSet) :
  wf_intSet a -> wf_intSet b ->
  intset_union a b = intset_union b a /\
  intset_union a a = Ok a /\
  intset_union a [] = Ok a /\
  intset_union [] a = Ok a.
Proof.
  intros Ha Hb.
  assert (He : wf_intSet []).
  { split; [constructor|]. split; [constructor | vm_compute; discriminate]. }
  assert (U : forall p q w, wf_intSet p -> wf_intSet q ->
                StronglySorted Z.lt w ->
                (forall x, In x w <-> In x p \/ In x q) ->
                intset_union p q = Ok w).
  { intros p q w Hp Hq Hw Hin.
    destruct (intset_union_spec p q Hp Hq) as (v & Hv & (Hs & _) & Hiv).
    rewrite Hv. f_equal. apply sorted_unique; [exact Hs | exact Hw|].
    intros x. rewrite Hiv, Hin. tauto. }
  splits.
  - destruct (intset_union_spec b a Hb Ha) as (v & Hv & (Hs & _) & Hiv).
    rewrite Hv. apply U; try assumption.
    intros x. rewrite Hiv. tauto.
  - apply U; try assumption; [apply Ha|]. intros x. tauto.
  - apply U; try assumption; [apply Ha|]. intros x. cbn [In]. tauto.
  - apply U; try assumption; [apply Ha|]. intros x. cbn [In]. tauto.
Qed.

Lemma union_algebra_witness :
  wf_intSet [1; 2; 5] /\ wf_intSet [2; 3] /\
  intset_union [1; 2; 5] [2; 3] = intset_union [2; 3] [1; 2; 5] /\
  intset_union [1; 2; 5] [1; 2; 5] = Ok [1; 2; 5] /\
  intset_union [1; 2; 5] [] = Ok [1; 2; 5] /\
  intset_union [] [1; 2; 5] = Ok [1; 2; 5].
Proof.
  assert (Ha : wf_intSet [1; 2; 5]) by wf_concrete.
  assert (Hb : wf_intSet [2; 3]) by wf_concrete.
  split; [exact Ha|]. split; [exact Hb|].
  exact (union_algebra _ _ Ha Hb).
Defined.

(** ** The text codec *)

(** X19: Render of a well-formed value returns an opening brace, the
    elements in ascending order in decimal with one comma between
    neighbours, and a closing brace, and nothing else: a text of the
    grammar made of digits, commas and the two braces only, whose digit
    runs are the decimal forms of the elements, in order, and whose
    length is the number of digits plus the number of elements plus
    one (two for the empty value). *)
Theorem out_text_format (v : intSet) :
  wf_intSet v ->
  intset_out v = Ok (render v) /\
  grammar (render v) /\
  digit_runs (render v) = map utoa v /\
  Forall (fun c => is_digit c = true \/ c = ","%char \/
                   c = "{"%char \/ c = "}"%char) (render v) /\
  strlen (render v)
  = Z.of_nat (length (all_digits v)) + Z.max 1 (Z.of_nat (length v)) + 1.
Proof.
  intros Hv. pose proof Hv as (_ & Hu & _).
  splits.
  - apply intset_out_render. exact Hv.
  - apply render_grammar. exact Hu.
  - apply render_runs. exact Hu.
  - unfold render. constructor; [right; right; left; reflexivity|].
    apply Forall_app. split.
    + eapply Forall_impl; [|apply render_members_chars; exact Hu].
      intros c [H|H]; [left; exact H | right; left; exact H].
    + constructor; [right; right; right; reflexivity | constructor].
  - unfold render, strlen. cbn [length]. rewrite length_app. cbn [length].
    destruct v as [|x v]; [reflexivity|].
    pose proof (render_members_length (x :: v) ltac:(discriminate)) as Hl.
    cbn [length] in *. lia.
Qed.

Lemma out_text_format_witness :
  wf_intSet [0; 7; 42] /\
  intset_out [0; 7; 42] = Ok (list_ascii_of_string "{0,7,42}").
Proof.
  assert (Hv : wf_intSet [0; 7; 42]) by wf_concrete.
  split; [exact Hv|].
  exact (proj1 (out_text_format [0; 7; 42] Hv)).
Defined.

(** X20: Parse does not depend on the order of the numbers in the
    text, on repetitions, or on the spaces: two texts of the grammar
    whose digit runs have the same set of 32-bit values parse to the
    same value. *)
Theorem parse_same_members (t1 t2 : list ascii) :
  grammar t1 -> grammar t2 -> wf_cstring t1 -> wf_cstring t2 ->
  (forall x, In x (map run_value (digit_runs t1)) <->
             In x (map run_value (digit_runs t2))) ->
  intset_in t1 = intset_in t2.
Proof.
  intros G1 G2 W1 W2 Hsame.
  destruct (intset_in_spec t1 G1 (wf_cstring_bound t1 W1))
    as (u1 & E1 & I1 & _ & M1).
  destruct (intset_in_spec t2 G2 (wf_cstring_bound t2 W2))
    as (u2 & E2 & I2 & _ & M2).
  rewrite E1, E2. f_equal. apply sorted_unique.
  - apply (tree_inv_sorted u1 I1).
  - apply (tree_inv_sorted u2 I2).
  - intros x. rewrite M1, M2. apply Hsame.
Qed.

Lemma parse_same_members_witness :
  let t1 := list_ascii_of_string " { 3,1 , 2,1}" in
  let t2 := list_ascii_of_string "{1,2,3}" in
  grammar t1 /\ grammar t2 /\ wf_cstring t1 /\ wf_cstring t2 /\
  intset_in t1 = intset_in t2.
Proof.
  intros t1 t2.
  assert (G1 : grammar t1) by (apply grammar_by_matching; reflexivity).
  assert (G2 : grammar t2) by (apply grammar_by_matching; reflexivity).
  assert (W1 : wf_cstring t1) by cstring_concrete.
  assert (W2 : wf_cstring t2) by cstring_concrete.
  splits; try assumption.
  apply (parse_same_members t1 t2 G1 G2 W1 W2).
  intros x.
  change (map run_value (digit_runs t1)) with [3; 1; 2; 1].
  change (map run_value (digit_runs t2)) with [1; 2; 3].
  cbn [In]. tauto.
Defined.
